(** * go-socket.io: rooms, acknowledgements, dispatch and close

    A shallow embedding of the Socket.IO core of the repository (package
    [socketio]): the room index ([map.go]), the local broadcaster
    ([broadcast_local.go]), the cluster overlay ([redisBroadcastRemoteV9]),
    the namespace handler, the namespace-connection view and the per
    connection reader, together with the properties the specification
    states about them; further the adapter configuration ([config.go]) and
    the engine session (package [session]).

    Conventions of the embedding.
    - A Go [map[string]V] is a [gmap string V]; a nil pointer is [None].
    - A [sync.RWMutex]-protected method whose whole body runs between
      [Lock] and the deferred [Unlock] is one state transition.
    - The order in which Go ranges over a map is unspecified: it is a
      parameter of the development (class [MapRange]).
    - Code that runs user callbacks records the invocation in a trace. *)

From Stdlib Require Import ZArith Lia Ascii.
From stdpp Require Import base option list strings gmap fin_maps fin_sets.

Open Scope string_scope.
Open Scope list_scope.

(* ===================================================================== *)
(** ** Go map iteration                                                    *)
(* ===================================================================== *)

(** [for k, v := range m]: every entry exactly once, in an order the
    language leaves open. *)
Class MapRange := {
  map_range : ∀ {V : Type}, gmap string V → list (string * V);
  map_range_perm : ∀ (V : Type) (m : gmap string V),
      map_range m ≡ₚ map_to_list m
}.

(** One admissible iteration order, used to evaluate the model. *)
#[export] Instance canonical_range : MapRange :=
  {| map_range := λ V m, map_to_list m;
     map_range_perm := λ V m, reflexivity (map_to_list m) |}.

(* ===================================================================== *)
(** ** Connection handles                                                  *)
(* ===================================================================== *)

(** [Conn] (interface): what the room index uses of a handle is [ID()];
    a namespace-connection view also carries its namespace. *)
Record Conn := mkConn { ID : string; Namespace : string }.

(* ===================================================================== *)
(** ** map.go                                                              *)
(* ===================================================================== *)

(** [connMap.data : map[string]Conn], keyed by connection id. *)
Abbreviation connMap := (gmap string Conn).
(** [roomMap.data : map[string]*connMap], keyed by room name. *)
Abbreviation roomMap := (gmap string (gmap string Conn)).

Definition newConnMap : connMap := ∅.
Definition newRoomMap : roomMap := ∅.

Definition connMap_join (conn : Conn) (cm : connMap) : connMap :=
  <[ID conn := conn]> cm.

Definition connMap_leave (conn : Conn) (cm : connMap) : connMap :=
  delete (ID conn) cm.

Definition connMap_len (cm : connMap) : nat := size cm.

Section map_go.
Context `{MapRange}.

(** [res := make([]K, len(m))] holds [len(m)] zero values (empty strings
    for [K = string]); the loop appends the keys after them. *)
Definition getKeysOfMap {V : Type} (m : gmap string V) : list string :=
  replicate (size m) EmptyString ++ (map_range m).*1.

Definition copyMap {V : Type} (m : gmap string V) : gmap string V :=
  foldl (λ res kv, <[kv.1 := kv.2]> res) ∅ (map_range m).

Definition roomMap_join (room : string) (conn : Conn) (rm : roomMap) : roomMap :=
  match rm !! room with
  | None => <[room := connMap_join conn newConnMap]> rm
  | Some cm => <[room := connMap_join conn cm]> rm
  end.

Definition roomMap_listRoomID (rm : roomMap) : list string :=
  getKeysOfMap rm.

(** [cm] is a pointer: [cm.leave] updates the stored inner map, then the
    outer entry is deleted when the inner map became empty. *)
Definition roomMap_leave (room : string) (conn : Conn) (rm : roomMap) : roomMap :=
  match rm !! room with
  | None => rm
  | Some cm =>
      let cm' := connMap_leave conn cm in
      let rm' := <[room := cm']> rm in
      if Nat.eqb (connMap_len cm') 0 then delete room rm' else rm'
  end.

(** The program points of [leave], each with whether [rm.mutex] is
    write-held there: after [Lock], after [cm.leave], after [delete],
    after the deferred [Unlock]. *)
Definition roomMap_leave_points (room : string) (conn : Conn) (rm : roomMap)
  : list (bool * roomMap) :=
  match rm !! room with
  | None => [(true, rm); (false, rm)]
  | Some cm =>
      let cm' := connMap_leave conn cm in
      let rm' := <[room := cm']> rm in
      if Nat.eqb (connMap_len cm') 0
      then [(true, rm); (true, rm'); (true, delete room rm'); (false, delete room rm')]
      else [(true, rm); (true, rm'); (false, rm')]
  end.

Definition roomMap_leaveAll (conn : Conn) (rm : roomMap) : roomMap :=
  foldl (λ acc roomID, roomMap_leave roomID conn acc) rm (roomMap_listRoomID rm).

Definition roomMap_delete (room : string) (rm : roomMap) : roomMap :=
  delete room rm.

Definition roomMap_getConnections (room : string) (rm : roomMap)
  : option connMap := rm !! room.

(** The callbacks passed to [forEach] are closures over local variables;
    the captured variables are the accumulator [A], the returned [bool]
    is the callback's own ([false] breaks the loop). *)
Fixpoint roomMap_forEach_loop {A : Type} (rm : roomMap)
    (h : string → connMap → A → A * bool) (ids : list string) (acc : A) : A :=
  match ids with
  | [] => acc
  | roomID :: rest =>
      match roomMap_getConnections roomID rm with
      | None => roomMap_forEach_loop rm h rest acc
      | Some cm =>
          let r := h roomID cm acc in
          if r.2 then roomMap_forEach_loop rm h rest r.1 else r.1
      end
  end.

Definition roomMap_forEach {A : Type} (rm : roomMap)
    (h : string → connMap → A → A * bool) (acc : A) : A :=
  roomMap_forEach_loop rm h (roomMap_listRoomID rm) acc.

Definition connMap_listConnID (cm : connMap) : list string := getKeysOfMap cm.

Fixpoint connMap_forEach_loop {A : Type} (cm : connMap)
    (h : string → Conn → A → A * bool) (ids : list string) (acc : A) : A :=
  match ids with
  | [] => acc
  | connID :: rest =>
      match cm !! connID with
      | None => connMap_forEach_loop cm h rest acc
      | Some c =>
          let r := h connID c acc in
          if r.2 then connMap_forEach_loop cm h rest r.1 else r.1
      end
  end.

Definition connMap_forEach {A : Type} (cm : connMap)
    (h : string → Conn → A → A * bool) (acc : A) : A :=
  connMap_forEach_loop cm h (connMap_listConnID cm) acc.

(* =================================================================== *)
(** ** broadcast_local.go                                                *)
(* =================================================================== *)

Record broadcastLocal := mkBroadcastLocal {
  nsp : string;
  uid : string;
  roomsSync : roomMap
}.

(** [uid] is [newV4UUID()], supplied by the caller here. *)
Definition newBroadcastLocal (nsp0 uid0 : string) : broadcastLocal :=
  {| nsp := nsp0; uid := uid0; roomsSync := newRoomMap |}.

Definition with_rooms (bc : broadcastLocal) (rm : roomMap) : broadcastLocal :=
  {| nsp := nsp bc; uid := uid bc; roomsSync := rm |}.

Definition broadcastLocal_getOccupants (bc : broadcastLocal) (room : string)
  : option connMap := roomMap_getConnections room (roomsSync bc).

Definition broadcastLocal_clear (room : string) (bc : broadcastLocal) :=
  with_rooms bc (roomMap_delete room (roomsSync bc)).

Definition broadcastLocal_join (room : string) (conn : Conn) (bc : broadcastLocal) :=
  with_rooms bc (roomMap_join room conn (roomsSync bc)).

Definition broadcastLocal_leaveAll (conn : Conn) (bc : broadcastLocal) :=
  with_rooms bc (roomMap_leaveAll conn (roomsSync bc)).

Definition broadcastLocal_leave (room : string) (conn : Conn) (bc : broadcastLocal) :=
  with_rooms bc (roomMap_leave room conn (roomsSync bc)).

(** [forEach(room, f)]: the handles [f] is applied to, in order. *)
Definition broadcastLocal_forEach (bc : broadcastLocal) (room : string)
  : list Conn :=
  match broadcastLocal_getOccupants bc room with
  | None => []
  | Some occupants =>
      connMap_forEach occupants (λ _ conn acc, (acc ++ [conn], true)) []
  end.

(** [send]: one [go conn.Emit(event, args...)] per listed handle. *)
Definition broadcastLocal_send (bc : broadcastLocal) (room : string)
  : list Conn :=
  match broadcastLocal_getOccupants bc room with
  | None => []
  | Some conns =>
      connMap_forEach conns (λ _ conn acc, (acc ++ [conn], true)) []
  end.

Definition broadcastLocal_sendAll (bc : broadcastLocal) : list Conn :=
  roomMap_forEach (roomsSync bc)
    (λ _ cm acc,
       (connMap_forEach cm (λ _ conn acc', (acc' ++ [conn], true)) acc, true))
    [].

Definition broadcastLocal_allRooms (bc : broadcastLocal) : list string :=
  roomMap_forEach (roomsSync bc) (λ room _ rooms, (rooms ++ [room], true)) [].

Definition broadcastLocal_lenRoom (bc : broadcastLocal) (roomID : string) : Z :=
  roomMap_forEach (roomsSync bc)
    (λ room _ res, (if decide (room = roomID) then (res + 1)%Z else res, true))
    0%Z.

Definition broadcastLocal_getRoomsByConn (bc : broadcastLocal) (connection : Conn)
  : list string :=
  roomMap_forEach (roomsSync bc)
    (λ room cm rooms,
       (connMap_forEach cm
          (λ connID _ rooms',
             (if decide (ID connection = connID) then rooms' ++ [room] else rooms',
              true))
          rooms, true))
    [].
End map_go.

(* ===================================================================== *)
(** ** Histories of join/leave on one room index                           *)
(* ===================================================================== *)

Inductive roomOp :=
  | opJoin (room : string) (conn : Conn)
  | opLeave (room : string) (conn : Conn).

Definition roomMap_apply (rm : roomMap) (op : roomOp) : roomMap :=
  match op with
  | opJoin room conn => roomMap_join room conn rm
  | opLeave room conn => roomMap_leave room conn rm
  end.

(** The index after the operations [ops], in order, on a fresh index. *)
Definition roomMap_run (ops : list roomOp) : roomMap :=
  foldl roomMap_apply newRoomMap ops.

(** Member count of a room as the index stores it: [cm.len()] of its entry,
    nothing when the entry is absent. *)
Definition roomMap_card (rm : roomMap) (room : string) : nat :=
  match rm !! room with
  | Some cm => connMap_len cm
  | None => 0
  end.

(** Reference notion, from the specification's wording: a connection
    (identified by its id) is joined-but-not-left in [room] when the history
    holds a join of it to [room] with no leave of it from [room] afterwards. *)
Definition still_joined (ops : list roomOp) (room id : string) : Prop :=
  ∃ pre conn post,
    ops = pre ++ opJoin room conn :: post ∧ ID conn = id ∧
    ∀ conn', ID conn' = id → opLeave room conn' ∉ post.

(** The same notion as a finite set, so that it has a cardinality. *)
Definition joined_not_left (ops : list roomOp) (room : string) : gset string :=
  foldl (λ s op,
           match op with
           | opJoin r conn => if decide (r = room) then {[ID conn]} ∪ s else s
           | opLeave r conn => if decide (r = room) then s ∖ {[ID conn]} else s
           end) ∅ ops.

(** Ids stored under [room]. *)
Definition members (rm : roomMap) (room : string) : gset string :=
  match rm !! room with
  | Some cm => dom cm
  | None => ∅
  end.

(** No entry of the index is an empty inner map. *)
Definition no_empty_room (rm : roomMap) : Prop :=
  ∀ room, rm !! room ≠ Some ∅.

(* ===================================================================== *)
(** ** Constants, errors, packets                                          *)
(* ===================================================================== *)

(** The namespace and message constants are used by the code under
    analysis but declared elsewhere in the package; they are parameters. *)
Class Constants := {
  rootNamespace : string;
  aliasRootNamespace : string;
  clientDisconnectMsg : string
}.

(** Modelled from the spec: the declarations of [rootNamespace],
    [aliasRootNamespace] and [clientDisconnectMsg] are missing; the
    specification canonicalises the empty string to ["/"] and closes with
    the reason ["client disconnected"]. *)
Definition spec_constants : Constants :=
  {| rootNamespace := "/";
     aliasRootNamespace := EmptyString;
     clientDisconnectMsg := "client disconnected" |}.

(** Go [error] values met by the code: the package's sentinels, the
    parser's [ErrInvalidPacketType], and any other error by its text. *)
Inductive error :=
  | errDecodeArgs
  | errHandleDispatch
  | errFailedConnectNamespace
  | ErrInvalidPacketType
  | errorString (msg : string).

(** Modelled from the spec: the declaration of [errFailedConnectNamespace]
    is missing; its text is the one the specification quotes. The texts of
    the other sentinels are given nowhere. *)
Definition error_text (e : error) : option string :=
  match e with
  | errFailedConnectNamespace => Some "failed to connect to the namespace"
  | errorString msg => Some msg
  | errDecodeArgs | errHandleDispatch | ErrInvalidPacketType => None
  end.

(** [parser.Type] *)
Inductive PacketType := Connect | Disconnect | Event | Ack | Error.

(** [uint64] arithmetic wraps. *)
Definition uint64_mod : Z := 2 ^ 64.
Definition uint64_add (a b : Z) : Z := ((a + b) mod uint64_mod)%Z.

(** [parser.Header] *)
Record Header := mkHeader {
  hType : PacketType;
  hNamespace : string;
  hID : Z;
  hNeedAck : bool
}.

Definition set_hType (t : PacketType) (h : Header) : Header :=
  {| hType := t; hNamespace := hNamespace h; hID := hID h; hNeedAck := hNeedAck h |}.

Definition set_hNamespace (ns : string) (h : Header) : Header :=
  {| hType := hType h; hNamespace := ns; hID := hID h; hNeedAck := hNeedAck h |}.

(** Payload values: what JSON decoding yields, and [DFunc] for a function
    value met among outbound arguments (it has no encoding). *)
#[warnings="-register-all"]
Inductive Data :=
  | DNull
  | DString (s : string)
  | DNumber (z : Z)
  | DMap (kvs : list (string * Data))
  | DFunc.

(** [reflect.Type] of a parameter, as far as the decoder is told. *)
Inductive Ty := TString | TNumber | TMap | TOther (name : string).

(** [reflect.Value] passed to a user function. *)
Inductive Value :=
  | VConn (c : Conn)
  | VData (d : Data).

(** What a panic carries: [r.(error)] succeeds or not. *)
Inductive PanicValue :=
  | PanicError (e : error)
  | PanicOther (shown : string).

(** Outcome of running a user function on its arguments. *)
Inductive CallOutcome :=
  | Returned (ret : list Data)
  | Panicked (r : PanicValue).

(** [funcHandler]: [f] is the user function, by the outcome of calling it
    on given arguments. What a user function does to the connection through
    its [Conn] argument (emitting, joining, closing) is outside the model. *)
Record funcHandler := mkFuncHandler {
  argTypes : list Ty;
  f : list Value → CallOutcome
}.

(** [funcHandler.Call]: the deferred [recover] turns a panic into the
    returned error; [ret] keeps its zero value in that case. *)
Definition funcHandler_Call (h : funcHandler) (args : list Value)
  : list Data * option error :=
  match f h args with
  | Returned ret => (ret, None)
  | Panicked (PanicError e) => ([], Some e)
  | Panicked (PanicOther shown) => ([], Some (errorString ("event call error: " +:+ shown)))
  end.

(** [parser.Payload] *)
Record Payload := mkPayload {
  pHeader : Header;
  pData : list Data;
  pArgs : list Data
}.

(** [errorMessage], built by [newErrorMessage(namespace, err)]. *)
Record errorMessage := mkErrorMessage {
  em_namespace : string;
  em_err : error
}.

(** Invocations of user code and of the embedded session's [Close], in the
    order they happen. *)
Inductive Call :=
  | CallEvent (ns event : string) (args : list Value)
  | CallAck (ns : string) (id : Z) (args : list Value)
  | CallOnConnect (c : Conn) (auth : Data)
  | CallOnDisconnect (c : Conn) (reason : string) (details : Data)
  | CallOnError (c : Conn) (e : error)
  | CallSessionClose.

(* ===================================================================== *)
(** ** Namespace handler                                                   *)
(* ===================================================================== *)

(** [Handler]. Its [broadcast] is the adapter [NewHandler] picks without
    cluster options ([*broadcast], which embeds [*broadcastLocal]); the
    cluster adapter's own requests are modelled further below.
    [onDisconnect] and [onError] return nothing: only their presence
    matters, their invocations go to the trace. *)
Record Handler := mkHandler {
  broadcast : broadcastLocal;
  events : gmap string funcHandler;
  onConnect : option (Conn → Data → option error);
  onDisconnect : bool;
  onError : bool
}.

Definition with_broadcast (nh : Handler) (bc : broadcastLocal) : Handler :=
  {| broadcast := bc; events := events nh; onConnect := onConnect nh;
     onDisconnect := onDisconnect nh; onError := onError nh |}.

(** [NewHandler(nsp, nil)]: [newBroadcast()] names its local broadcaster by
    the empty string, whatever [nsp] is. *)
Definition NewHandler (nsp0 uid0 : string) : Handler :=
  {| broadcast := newBroadcastLocal EmptyString uid0; events := ∅;
     onConnect := None; onDisconnect := false; onError := false |}.

Section handler.
Context `{MapRange}.

(** Methods on a possibly nil [*Handler]: the result and the handler
    after the call. *)
Definition Handler_Join (nh : option Handler) (room : string) (conn : Conn)
  : bool * option Handler :=
  match nh with
  | None => (false, None)
  | Some h => (true, Some (with_broadcast h (broadcastLocal_join room conn (broadcast h))))
  end.

Definition Handler_Leave (nh : option Handler) (room : string) (conn : Conn)
  : bool * option Handler :=
  match nh with
  | None => (false, None)
  | Some h => (true, Some (with_broadcast h (broadcastLocal_leave room conn (broadcast h))))
  end.

Definition Handler_LeaveAll (nh : option Handler) (conn : Conn)
  : bool * option Handler :=
  match nh with
  | None => (false, None)
  | Some h => (true, Some (with_broadcast h (broadcastLocal_leaveAll conn (broadcast h))))
  end.

Definition Handler_Clear (nh : option Handler) (room : string)
  : bool * option Handler :=
  match nh with
  | None => (false, None)
  | Some h => (true, Some (with_broadcast h (broadcastLocal_clear room (broadcast h))))
  end.

(** [Send]/[SendAll]: the result and the handles an emission is started
    for. *)
Definition Handler_Send (nh : option Handler) (room : string)
  : bool * list Conn :=
  match nh with
  | None => (false, [])
  | Some h => (true, broadcastLocal_send (broadcast h) room)
  end.

Definition Handler_SendAll (nh : option Handler) : bool * list Conn :=
  match nh with
  | None => (false, [])
  | Some h => (true, broadcastLocal_sendAll (broadcast h))
  end.

Definition Handler_Len (nh : option Handler) (room : string) : Z :=
  match nh with
  | None => (-1)%Z
  | Some h => broadcastLocal_lenRoom (broadcast h) room
  end.

(** [Rooms(conn)] with a nil [conn] reaches [connection.ID()] on a nil
    interface as soon as the inner callback runs, which panics: the
    result is [None] then. The inner callback runs once per member
    visited, exactly when [sendAll] would start an emission. *)
Definition Handler_Rooms (nh : option Handler) (conn : option Conn)
  : option (list string) :=
  match nh with
  | None => Some []
  | Some h =>
      match conn with
      | Some c => Some (broadcastLocal_getRoomsByConn (broadcast h) c)
      | None =>
          match broadcastLocal_sendAll (broadcast h) with
          | [] => Some []
          | _ :: _ => None
          end
      end
  end.

(** [ForEach]: the result and the handles [f] is applied to. *)
Definition Handler_ForEach (nh : option Handler) (room : string)
  : bool * list Conn :=
  match nh with
  | None => (false, [])
  | Some h => (true, broadcastLocal_forEach (broadcast h) room)
  end.
End handler.

Definition Handler_getEventTypes (nh : Handler) (event : string) : list Ty :=
  match events nh !! event with
  | Some namespaceHandler => argTypes namespaceHandler
  | None => []
  end.

Definition getDispatchData (args : list Data) : Data :=
  match args with
  | d :: _ => d
  | [] => DNull
  end.

(** [reason] is [args[0].(string)], [details] is [args[1]]; both keep their
    zero value when missing. *)
Definition getDispatchDisconnectData (args : list Data) : string * Data :=
  (match args with DString s :: _ => s | _ => EmptyString end,
   match args with _ :: d :: _ => d | _ => DNull end).

Definition getDispatchMessage (args : list Data) : string :=
  match args with DString s :: _ => s | _ => EmptyString end.

(** [Handler.dispatch]: returned error and the calls made. The [Error] case
    has no [return] and falls out of the [switch]. *)
Definition Handler_dispatch (nh : Handler) (conn : Conn) (header : Header)
    (args : list Data) : option error * list Call :=
  match hType header with
  | Connect =>
      match onConnect nh with
      | Some onC =>
          (onC conn (getDispatchData args), [CallOnConnect conn (getDispatchData args)])
      | None => (None, [])
      end
  | Disconnect =>
      if onDisconnect nh
      then (None, [CallOnDisconnect conn (getDispatchDisconnectData args).1
                                         (getDispatchDisconnectData args).2])
      else (None, [])
  | Error =>
      if onError nh
      then (Some ErrInvalidPacketType,
            [CallOnError conn
               (errorString (if decide (getDispatchMessage args = EmptyString)
                             then "parser error gotAck"
                             else getDispatchMessage args))])
      else (Some ErrInvalidPacketType, [])
  | _ => (Some ErrInvalidPacketType, [])
  end.

(** [Handler.dispatchEvent]: returned values, returned error, calls made. *)
Definition Handler_dispatchEvent (nh : Handler) (ns : string) (conn : Conn)
    (event : string) (args : list Data)
  : list Data * option error * list Call :=
  match events nh !! event with
  | None => ([], None, [])
  | Some namespaceHandler =>
      let full := VConn conn :: (VData <$> args) in
      (funcHandler_Call namespaceHandler full, [CallEvent ns event full])
  end.

(* ===================================================================== *)
(** ** Handler registry and server                                         *)
(* ===================================================================== *)

(** [Handlers.handlers : map[string]*Handler] *)
Abbreviation Handlers := (gmap string Handler).

(** [Server]: the engine and the adapter options play no part in the room
    operations. *)
Record Server := mkServer { nspHandlers : Handlers }.

Section server.
Context `{MapRange} `{Constants}.

Definition canonical_nsp (nsp0 : string) : string :=
  if decide (nsp0 = aliasRootNamespace) then rootNamespace else nsp0.

Definition Server_getNamespaceHandler (s : Server) (nsp0 : string)
  : option Handler := nspHandlers s !! canonical_nsp nsp0.

(** A handler is a pointer held by the registry: what a method does to
    it is seen through the registry entry it was fetched from. *)
Definition Server_store (s : Server) (nsp0 : string) (nh : option Handler) : Server :=
  match nh with
  | Some h => {| nspHandlers := <[canonical_nsp nsp0 := h]> (nspHandlers s) |}
  | None => s
  end.

Definition Server_createNamespaceHandler (s : Server) (nsp0 uid0 : string)
  : Handler * Server :=
  let handler := NewHandler (canonical_nsp nsp0) uid0 in
  (handler, {| nspHandlers := <[canonical_nsp nsp0 := handler]> (nspHandlers s) |}).

Definition Server_getOrCreateNamespaceHandler (s : Server) (nsp0 uid0 : string)
  : Handler * Server :=
  match Server_getNamespaceHandler s nsp0 with
  | Some h => (h, s)
  | None => Server_createNamespaceHandler s nsp0 uid0
  end.

Definition Server_JoinRoom (s : Server) (namespace room : string) (conn : Conn)
  : bool * Server :=
  let r := Handler_Join (Server_getNamespaceHandler s namespace) room conn in
  (r.1, Server_store s namespace r.2).

Definition Server_LeaveRoom (s : Server) (namespace room : string) (conn : Conn)
  : bool * Server :=
  let r := Handler_Leave (Server_getNamespaceHandler s namespace) room conn in
  (r.1, Server_store s namespace r.2).

Definition Server_LeaveAllRooms (s : Server) (namespace : string) (conn : Conn)
  : bool * Server :=
  let r := Handler_LeaveAll (Server_getNamespaceHandler s namespace) conn in
  (r.1, Server_store s namespace r.2).

Definition Server_ClearRoom (s : Server) (namespace room : string)
  : bool * Server :=
  let r := Handler_Clear (Server_getNamespaceHandler s namespace) room in
  (r.1, Server_store s namespace r.2).

Definition Server_BroadcastToRoom (s : Server) (namespace room : string)
  : bool * list Conn * Server :=
  (Handler_Send (Server_getNamespaceHandler s namespace) room, s).

Definition Server_BroadcastToNamespace (s : Server) (namespace : string)
  : bool * list Conn * Server :=
  (Handler_SendAll (Server_getNamespaceHandler s namespace), s).

Definition Server_RoomLen (s : Server) (namespace room : string) : Z * Server :=
  (Handler_Len (Server_getNamespaceHandler s namespace) room, s).

Definition Server_Rooms (s : Server) (namespace : string)
  : option (list string) * Server :=
  (Handler_Rooms (Server_getNamespaceHandler s namespace) None, s).

Definition Server_ForEach (s : Server) (namespace room : string)
  : bool * list Conn * Server :=
  (Handler_ForEach (Server_getNamespaceHandler s namespace) room, s).
End server.

(* ===================================================================== *)
(** ** Namespace-connection view                                           *)
(* ===================================================================== *)

(** [namespaceConn]. [nc_conn] is the view as a [Conn] handle: the id of
    the embedded connection and [namespace]. The [broadcast] field aliases
    the broadcaster of the namespace's handler and is reached through the
    registry; [context] is not modelled. *)
Record namespaceConn := mkNamespaceConn {
  nc_conn : Conn;
  pkgID : Z;
  ack : gmap Z funcHandler
}.

Definition newNamespaceConn (id namespace : string) : namespaceConn :=
  {| nc_conn := mkConn id namespace; pkgID := 0; ack := ∅ |}.

(** [pkgID.Add(1)]: the new value, and the view holding it. *)
Definition namespaceConn_nextPkgID (nc : namespaceConn) : Z * namespaceConn :=
  let id := uint64_add (pkgID nc) 1 in
  (id, {| nc_conn := nc_conn nc; pkgID := id; ack := ack nc |}).

Definition namespaceConn_ackStore (id : Z) (fh : funcHandler) (nc : namespaceConn)
  : namespaceConn :=
  {| nc_conn := nc_conn nc; pkgID := pkgID nc; ack := <[id := fh]> (ack nc) |}.

(** [ack.LoadAndDelete(id)] *)
Definition namespaceConn_ackLoadAndDelete (id : Z) (nc : namespaceConn)
  : option funcHandler * namespaceConn :=
  (ack nc !! id, {| nc_conn := nc_conn nc; pkgID := pkgID nc; ack := delete id (ack nc) |}).

(** An argument of [Emit(eventName, v...)]: a nil interface, a value, or a
    function ([newAckFunc] reads its parameter types). *)
Inductive EmitArg :=
  | ArgNil
  | ArgData (d : Data)
  | ArgFunc (fh : funcHandler).

(** [reflect.ValueOf(x).Interface()]: panics on the zero [Value] that a nil
    interface gives. *)
Definition EmitArg_interface (a : EmitArg) : option Data :=
  match a with
  | ArgNil => None
  | ArgData d => Some d
  | ArgFunc _ => Some DFunc
  end.

(** Result of [Emit] up to its final [nc.conn.write]: the view, and either
    the packet handed to [write] or a panic. *)
Inductive EmitResult :=
  | EmitWrite (nc : namespaceConn) (header : Header) (args : list Data)
  | EmitPanic (nc : namespaceConn).

Section view.
Context `{MapRange} `{Constants}.

Definition Emit_header (nc : namespaceConn) : Header :=
  {| hType := Event;
     hNamespace := if decide (Namespace (nc_conn nc) = aliasRootNamespace)
                   then EmptyString else Namespace (nc_conn nc);
     hID := 0; hNeedAck := false |}.

Definition Emit_finish (nc : namespaceConn) (header : Header) (eventName : string)
    (v : list EmitArg) : EmitResult :=
  match mapM EmitArg_interface v with
  | Some data => EmitWrite nc header (DString eventName :: data)
  | None => EmitPanic nc
  end.

(** [namespaceConn.Emit] *)
Definition namespaceConn_Emit (nc : namespaceConn) (eventName : string)
    (v : list EmitArg) : EmitResult :=
  let header := Emit_header nc in
  match last v with
  | None => Emit_finish nc header eventName v
  | Some ArgNil => EmitPanic nc
  | Some (ArgData _) => Emit_finish nc header eventName v
  | Some (ArgFunc fh) =>
      let r := namespaceConn_nextPkgID nc in
      let header' := {| hType := hType header; hNamespace := hNamespace header;
                        hID := r.1; hNeedAck := true |} in
      Emit_finish (namespaceConn_ackStore r.1 fh r.2) header' eventName
                  (removelast v)
  end.

(** [Join]/[Leave]/[LeaveAll] of a view act on the broadcaster of its
    namespace's handler. *)
Definition namespaceConn_Join (nc : namespaceConn) (room : string) (hs : Handlers)
  : Handlers :=
  match hs !! Namespace (nc_conn nc) with
  | Some h => <[Namespace (nc_conn nc) :=
                  with_broadcast h (broadcastLocal_join room (nc_conn nc) (broadcast h))]> hs
  | None => hs
  end.

Definition namespaceConn_LeaveAll (nc : namespaceConn) (hs : Handlers) : Handlers :=
  match hs !! Namespace (nc_conn nc) with
  | Some h => <[Namespace (nc_conn nc) :=
                  with_broadcast h (broadcastLocal_leaveAll (nc_conn nc) (broadcast h))]> hs
  | None => hs
  end.
End view.

(* ===================================================================== *)
(** ** Socket.IO connection                                                *)
(* ===================================================================== *)

(** [conn]. [closeOnce] is whether the [sync.Once] has fired, [quitChan]
    whether the channel is closed; [writeChan] and [errorChan] hold what was
    sent on them, oldest first; [engineCloseErr] is what the embedded
    session's [Close] returns; [calls] is the trace of user code run for
    this connection. [handlers] is the registry shared with the server. *)
Record conn := mkConnState {
  connID : string;
  handlers : Handlers;
  namespaceConns : gmap string namespaceConn;
  closeOnce : bool;
  quitChan : bool;
  engineCloseErr : option error;
  writeChan : list Payload;
  errorChan : list errorMessage;
  calls : list Call
}.

Definition NewConn (id : string) (hs : Handlers) (closeErr : option error) : conn :=
  {| connID := id; handlers := hs; namespaceConns := ∅; closeOnce := false;
     quitChan := false; engineCloseErr := closeErr; writeChan := [];
     errorChan := []; calls := [] |}.

Definition set_handlers (hs : Handlers) (c : conn) : conn :=
  {| connID := connID c; handlers := hs; namespaceConns := namespaceConns c;
     closeOnce := closeOnce c; quitChan := quitChan c;
     engineCloseErr := engineCloseErr c; writeChan := writeChan c;
     errorChan := errorChan c; calls := calls c |}.

Definition set_namespaceConns (ncs : gmap string namespaceConn) (c : conn) : conn :=
  {| connID := connID c; handlers := handlers c; namespaceConns := ncs;
     closeOnce := closeOnce c; quitChan := quitChan c;
     engineCloseErr := engineCloseErr c; writeChan := writeChan c;
     errorChan := errorChan c; calls := calls c |}.

Definition add_calls (cl : list Call) (c : conn) : conn :=
  {| connID := connID c; handlers := handlers c; namespaceConns := namespaceConns c;
     closeOnce := closeOnce c; quitChan := quitChan c;
     engineCloseErr := engineCloseErr c; writeChan := writeChan c;
     errorChan := errorChan c; calls := calls c ++ cl |}.

Definition send_writeChan (pkg : Payload) (c : conn) : conn :=
  {| connID := connID c; handlers := handlers c; namespaceConns := namespaceConns c;
     closeOnce := closeOnce c; quitChan := quitChan c;
     engineCloseErr := engineCloseErr c; writeChan := writeChan c ++ [pkg];
     errorChan := errorChan c; calls := calls c |}.

Definition send_errorChan (m : errorMessage) (c : conn) : conn :=
  {| connID := connID c; handlers := handlers c; namespaceConns := namespaceConns c;
     closeOnce := closeOnce c; quitChan := quitChan c;
     engineCloseErr := engineCloseErr c; writeChan := writeChan c;
     errorChan := errorChan c ++ [m]; calls := calls c |}.

Definition fire_close (c : conn) : conn :=
  {| connID := connID c; handlers := handlers c; namespaceConns := namespaceConns c;
     closeOnce := true; quitChan := true;
     engineCloseErr := engineCloseErr c; writeChan := writeChan c;
     errorChan := errorChan c; calls := calls c ++ [CallSessionClose] |}.

(** [select { case <-c.quitChan: return; case c.writeChan <- pkg: }]: the
    send happens while the quit channel is open. *)
Definition conn_write (header : Header) (args : list Data) (c : conn) : conn :=
  if quitChan c then c
  else send_writeChan {| pHeader := header; pData := args; pArgs := [] |} c.

Definition conn_writeWithArgs (header : Header) (args : list Data) (c : conn) : conn :=
  if quitChan c then c
  else send_writeChan {| pHeader := header; pData := []; pArgs := args |} c.

Definition conn_onError (namespace : string) (err : error) (c : conn) : conn :=
  if quitChan c then c
  else send_errorChan {| em_namespace := namespace; em_err := err |} c.

(** An inbound Socket.IO packet as the decoder presents it: the header and
    event name from [DecodeHeader], and what [DecodeArgs(types)] answers for
    its payload. *)
Record InPacket := mkInPacket {
  inHeader : Header;
  inEvent : string;
  inDecodeArgs : list Ty → error + list Data
}.

(** What the reader meets: a header that fails to decode, or a packet. *)
Inductive Frame :=
  | BadHeader (err : error)
  | Packet (p : InPacket).

Definition defaultHeaderType : list Ty := [TMap].
Definition disconnectHeaderType : list Ty := [TString; TMap].

Section connection.
Context `{MapRange} `{Constants}.

Definition conn_ackPacketHandler (c : conn) (header : Header)
    (decode : list Ty → error + list Data) : option error * conn :=
  match namespaceConns c !! hNamespace header with
  | None => (None, c)
  | Some nc =>
      let r := namespaceConn_ackLoadAndDelete (hID header) nc in
      match r.1 with
      | None => (None, c)
      | Some fh =>
          let c1 := set_namespaceConns
                      (<[hNamespace header := r.2]> (namespaceConns c)) c in
          match decode (argTypes fh) with
          | inl err => (None, conn_onError (Namespace (nc_conn nc)) err c1)
          | inr args =>
              let c2 := add_calls [CallAck (Namespace (nc_conn nc)) (hID header)
                                           (VData <$> args)] c1 in
              match (funcHandler_Call fh (VData <$> args)).2 with
              | Some err => (None, conn_onError (Namespace (nc_conn nc)) err c2)
              | None => (None, c2)
              end
          end
      end
  end.

Definition conn_eventPacketHandler (c : conn) (event : string) (header : Header)
    (decode : list Ty → error + list Data) : option error * conn :=
  match namespaceConns c !! hNamespace header with
  | None => (None, c)
  | Some nc =>
      match handlers c !! hNamespace header with
      | None => (None, c)
      | Some handler =>
          match decode (Handler_getEventTypes handler event) with
          | inl err => (Some errDecodeArgs, conn_onError (hNamespace header) err c)
          | inr args =>
              let r := Handler_dispatchEvent handler (hNamespace header)
                         (nc_conn nc) event args in
              let c1 := add_calls r.2 c in
              match r.1.2 with
              | Some err =>
                  (Some errHandleDispatch, conn_onError (hNamespace header) err c1)
              | None =>
                  if decide (0 < length r.1.1)
                  then (None, conn_write (set_hType Ack header) r.1.1 c1)
                  else (None, c1)
              end
          end
      end
  end.

Definition conn_connectPacketHandler (c : conn) (header : Header)
    (decode : list Ty → error + list Data) : option error * conn :=
  match decode defaultHeaderType with
  | inl err => (Some errDecodeArgs, conn_onError (hNamespace header) err c)
  | inr args =>
      match handlers c !! hNamespace header with
      | None =>
          (Some errFailedConnectNamespace,
           conn_onError (hNamespace header) errFailedConnectNamespace c)
      | Some handler =>
          let r :=
            match namespaceConns c !! hNamespace header with
            | Some nc => (nc, c)
            | None =>
                let nc := newNamespaceConn (connID c) (hNamespace header) in
                (nc, set_handlers (namespaceConn_Join nc (connID c) (handlers c))
                       (set_namespaceConns
                          (<[hNamespace header := nc]> (namespaceConns c)) c))
            end in
          let d := Handler_dispatch handler (nc_conn r.1) header args in
          let c1 := add_calls d.2 r.2 in
          match d.1 with
          | Some err =>
              (Some errHandleDispatch, conn_onError (hNamespace header) err c1)
          | None =>
              (None, conn_writeWithArgs header
                       [DMap [("sid", DString (ID (nc_conn r.1)))]] c1)
          end
      end
  end.

Definition conn_disconnectPacketHandler (c : conn) (header : Header)
    (decode : list Ty → error + list Data) : option error * conn :=
  match decode disconnectHeaderType with
  | inl err => (Some errDecodeArgs, conn_onError (hNamespace header) err c)
  | inr args =>
      match namespaceConns c !! hNamespace header with
      | None => (None, c)
      | Some nc =>
          let c1 := set_namespaceConns (delete (hNamespace header) (namespaceConns c))
                      (set_handlers (namespaceConn_LeaveAll nc (handlers c)) c) in
          match handlers c !! hNamespace header with
          | None => (None, c1)
          | Some handler =>
              let d := Handler_dispatch handler (nc_conn nc) header args in
              let c2 := add_calls d.2 c1 in
              match d.1 with
              | Some err =>
                  (Some errHandleDispatch, conn_onError (hNamespace header) err c2)
              | None => (None, c2)
              end
          end
      end
  end.

(** One turn of the reader's [switch header.Type]. *)
Definition conn_dispatchPacket (c : conn) (p : InPacket) : option error * conn :=
  let header :=
    if decide (hNamespace (inHeader p) = aliasRootNamespace)
    then set_hNamespace rootNamespace (inHeader p) else inHeader p in
  match hType header with
  | Ack => conn_ackPacketHandler c header (inDecodeArgs p)
  | Connect => conn_connectPacketHandler c header (inDecodeArgs p)
  | Disconnect => conn_disconnectPacketHandler c header (inDecodeArgs p)
  | Event => conn_eventPacketHandler c (inEvent p) header (inDecodeArgs p)
  | Error => (None, c)
  end.

(** [serveRead] over the frames that arrive: the connection when the
    reader returns or has consumed them all, and the frames it did not
    read. *)
Fixpoint conn_serveRead (frames : list Frame) (c : conn) : conn * list Frame :=
  match frames with
  | [] => (c, [])
  | fr :: rest =>
      if quitChan c then (c, frames)
      else
        match fr with
        | BadHeader err => (conn_onError rootNamespace err c, rest)
        | Packet p =>
            let r := conn_dispatchPacket c p in
            match r.1 with
            | Some err => (conn_onError rootNamespace err r.2, rest)
            | None => conn_serveRead rest r.2
            end
        end
  end.

(** The body of [serveError] for one received message. *)
Definition conn_serveError_handle (m : errorMessage) (c : conn) : conn :=
  match handlers c !! em_namespace m with
  | None => c
  | Some handler =>
      if onError handler
      then match namespaceConns c !! em_namespace m with
           | None => c
           | Some nsConn => add_calls [CallOnError (nc_conn nsConn) (em_err m)] c
           end
      else c
  end.

(** The function passed to [namespaceConns.Range] in [Close]. *)
Definition conn_Close_visit (c : conn) (entry : string * namespaceConn) : conn :=
  let c1 := set_handlers (namespaceConn_LeaveAll entry.2 (handlers c)) c in
  match handlers c1 !! entry.1 with
  | Some nh =>
      if onDisconnect nh
      then add_calls [CallOnDisconnect (nc_conn entry.2) clientDisconnectMsg DNull] c1
      else c1
  | None => c1
  end.

(** [Emit] on the view stored under [ns], followed by its
    [nc.conn.write]; [None] when there is no such view or [Emit] panics. *)
Definition conn_Emit (c : conn) (ns eventName : string) (v : list EmitArg)
  : option conn :=
  match namespaceConns c !! ns with
  | None => None
  | Some nc =>
      match namespaceConn_Emit nc eventName v with
      | EmitWrite nc' header args =>
          Some (conn_write header args
                  (set_namespaceConns (<[ns := nc']> (namespaceConns c)) c))
      | EmitPanic _ => None
      end
  end.

(** [conn.Close]: the returned error and the connection afterwards. *)
Definition conn_Close (c : conn) : option error * conn :=
  if closeOnce c then (None, c)
  else
    (engineCloseErr c,
     fire_close (foldl conn_Close_visit c (map_range (namespaceConns c)))).
End connection.

(* ===================================================================== *)
(** ** Cluster requests of the remote broadcaster                          *)
(* ===================================================================== *)

Definition roomLenReqType : string := "0".
Definition clearRoomReqType : string := "1".
Definition allRoomReqType : string := "2".

(** [roomLenRequest] and [allRoomRequest], with [done] as the number of
    values sent on the channel so far. *)
Record roomLenRequest := mkRoomLenRequest {
  rl_Room : string;
  rl_numSub : Z;
  rl_msgCount : Z;
  rl_connections : Z;
  rl_done : nat
}.

Record allRoomRequest := mkAllRoomRequest {
  ar_rooms : gmap string bool;
  ar_numSub : Z;
  ar_msgCount : Z;
  ar_done : nat
}.

(** An entry of [requests : map[string]interface{}]. *)
Inductive Request :=
  | ReqRoomLen (r : roomLenRequest)
  | ReqAllRoom (r : allRoomRequest).

(** A response message after [json.Unmarshal] into a map: the fields
    [onResponse] reads, [None] where the field is missing or of another
    JSON type. *)
Record Response := mkResponse {
  resRequestType : string;
  resRequestID : string;
  resConnections : option Z;
  resRooms : option (list string)
}.

(** What the bus answers during one request: the outcome of marshalling the
    request, of [PubSubNumSub] (the first count of the reply, if any), of
    [Publish], and the responses that reach [onResponse] while the caller
    waits, in order. Nothing arrives after the last of them. *)
Record Bus := mkBus {
  bus_marshal : option error;
  bus_numSub : error + option Z;
  bus_publish : option error;
  bus_responses : list Response
}.

Definition remote_getNumSub (bus : Bus) : error + Z :=
  match bus_numSub bus with
  | inl err => inl err
  | inr (Some numSub) => inr numSub
  | inr None => inr 0%Z
  end.

(** [onResponse]: the request table afterwards, [None] when a type
    assertion fails and the dispatcher panics. *)
Definition remote_onResponse (res : Response) (requests : gmap string Request)
  : option (gmap string Request) :=
  match requests !! resRequestID res with
  | None => Some requests
  | Some req =>
      if decide (resRequestType res = roomLenReqType) then
        match req, resConnections res with
        | ReqRoomLen r, Some n =>
            let msgCount := (rl_msgCount r + 1)%Z in
            Some (<[resRequestID res :=
                      ReqRoomLen {| rl_Room := rl_Room r; rl_numSub := rl_numSub r;
                                    rl_msgCount := msgCount;
                                    rl_connections := (rl_connections r + n)%Z;
                                    rl_done := if decide (rl_numSub r = msgCount)
                                               then S (rl_done r) else rl_done r |}]>
                    requests)
        | _, _ => None
        end
      else if decide (resRequestType res = allRoomReqType) then
        match req with
        | ReqAllRoom r =>
            match resRooms res with
            | None =>
                Some (<[resRequestID res :=
                          ReqAllRoom {| ar_rooms := ar_rooms r; ar_numSub := ar_numSub r;
                                        ar_msgCount := ar_msgCount r;
                                        ar_done := S (ar_done r) |}]> requests)
            | Some rooms =>
                let msgCount := (ar_msgCount r + 1)%Z in
                Some (<[resRequestID res :=
                          ReqAllRoom {| ar_rooms := foldl (λ m room, <[room := true]> m)
                                                          (ar_rooms r) rooms;
                                        ar_numSub := ar_numSub r;
                                        ar_msgCount := msgCount;
                                        ar_done := if decide (ar_numSub r = msgCount)
                                                   then S (ar_done r) else ar_done r |}]>
                        requests)
            end
        | ReqRoomLen _ => None
        end
      else Some requests
  end.

Section remote.
Context `{MapRange}.

(** [<-req.done] in [lenRoom]: the value returned once [done] has been
    signalled, [None] when it never is. *)
Fixpoint remote_await_roomLen (RequestID : string) (responses : list Response)
    (requests : gmap string Request) : option Z :=
  match requests !! RequestID with
  | Some (ReqRoomLen r) =>
      if decide (0 < rl_done r) then Some (rl_connections r)
      else match responses with
           | [] => None
           | res :: rest =>
               match remote_onResponse res requests with
               | None => None
               | Some requests' => remote_await_roomLen RequestID rest requests'
               end
           end
  | _ => None
  end.

Fixpoint remote_await_allRooms (RequestID : string) (responses : list Response)
    (requests : gmap string Request) : option (list string) :=
  match requests !! RequestID with
  | Some (ReqAllRoom r) =>
      if decide (0 < ar_done r) then Some (map_range (ar_rooms r)).*1
      else match responses with
           | [] => None
           | res :: rest =>
               match remote_onResponse res requests with
               | None => None
               | Some requests' => remote_await_allRooms RequestID rest requests'
               end
           end
  | _ => None
  end.

(** [redisBroadcastRemoteV9.lenRoom]; [RequestID] is the fresh
    [newV4UUID()]. [None]: the call does not return. *)
Definition remote_lenRoom (bus : Bus) (requests : gmap string Request)
    (RequestID room : string) : option Z :=
  match bus_marshal bus with
  | Some _ => Some (-1)%Z
  | None =>
      match remote_getNumSub bus with
      | inl _ => Some (-1)%Z
      | inr numSub =>
          let req := {| rl_Room := room; rl_numSub := numSub; rl_msgCount := 0;
                        rl_connections := 0; rl_done := 0 |} in
          match bus_publish bus with
          | Some _ => Some (-1)%Z
          | None =>
              remote_await_roomLen RequestID (bus_responses bus)
                (<[RequestID := ReqRoomLen req]> requests)
          end
      end
  end.

(** [redisBroadcastRemoteV9.allRooms]: the errors of [json.Marshal] and
    [getNumSub] are discarded ([numSub] is then 0). *)
Definition remote_allRooms (bus : Bus) (requests : gmap string Request)
    (RequestID : string) : option (list string) :=
  let numSub := match remote_getNumSub bus with inl _ => 0%Z | inr n => n end in
  let req := {| ar_rooms := ∅; ar_numSub := numSub; ar_msgCount := 0; ar_done := 0 |} in
  match bus_publish bus with
  | Some _ => Some []
  | None =>
      remote_await_allRooms RequestID (bus_responses bus)
        (<[RequestID := ReqAllRoom req]> requests)
  end.
End remote.

(* ===================================================================== *)
(** ** Concrete scenarios                                                  *)
(* ===================================================================== *)

Definition connA : Conn := mkConn "A" "/chat".
Definition connB : Conn := mkConn "B" "/chat".

(** Scenario 1 of the specification: A and B both join ["r1"]. *)
Definition chat_two_joined : broadcastLocal :=
  broadcastLocal_join "r1" connB
    (broadcastLocal_join "r1" connA (newBroadcastLocal "/chat" "uid-1")).

(** One connection joins the room whose name is the empty string. *)
Definition chat_unnamed_room : broadcastLocal :=
  broadcastLocal_join EmptyString connA (newBroadcastLocal "/chat" "uid-1").

(** A registry without any handler. *)
Definition empty_server : Server := {| nspHandlers := ∅ |}.

(** No pending id of a view lies outside [1 .. pkgID]. *)
Definition ack_ids_allocated (nc : namespaceConn) : Prop :=
  ∀ id, is_Some (ack nc !! id) → (1 ≤ id ≤ pkgID nc)%Z.

(** The error a recovered panic becomes in [funcHandler.Call]. *)
Definition recovered_error (r : PanicValue) : error :=
  match r with
  | PanicError e => e
  | PanicOther shown => errorString ("event call error: " +:+ shown)
  end.

(** [Close] called [n] times in a row. *)
Definition conn_Close_times `{MapRange} `{Constants} (n : nat) (c : conn) : conn :=
  Nat.iter n (λ c', (conn_Close c').2) c.

(** A view has left every room of a registry: its id is in no room of the
    broadcaster of its namespace. *)
Definition left_all_rooms (nc : namespaceConn) (hs : Handlers) : Prop :=
  ∀ h room, hs !! Namespace (nc_conn nc) = Some h →
            ID (nc_conn nc) ∉ members (roomsSync (broadcast h)) room.

(** The only callback [Close] runs for a view. *)
Definition is_disconnect_call `{Constants} (e : Call) : Prop :=
  ∃ nc, e = CallOnDisconnect nc clientDisconnectMsg DNull.

(** User functions of the scenarios. *)
Definition cb_pong : funcHandler :=
  {| argTypes := [TString]; f := λ _, Returned [] |}.
Definition fn_boom : funcHandler :=
  {| argTypes := []; f := λ _, Panicked (PanicOther "boom") |}.
Definition fn_hello : funcHandler :=
  {| argTypes := [TString]; f := λ _, Returned [] |}.

(** Namespace ["/chat"] with two event functions and an [onError]. *)
Definition chat_handler : Handler :=
  {| broadcast := newBroadcastLocal EmptyString "uid-1";
     events := <["boom" := fn_boom]> (<["hello" := fn_hello]> ∅);
     onConnect := None; onDisconnect := false; onError := true |}.

Definition decode_to (args : list Data) : list Ty → error + list Data :=
  λ _, inr args.
Definition decode_fails : list Ty → error + list Data :=
  λ _, inl (errorString "invalid character").

Definition packet (t : PacketType) (ns : string) (id : Z) (event : string)
    (decode : list Ty → error + list Data) : InPacket :=
  {| inHeader := {| hType := t; hNamespace := ns; hID := id; hNeedAck := false |};
     inEvent := event; inDecodeArgs := decode |}.

(** Connection A after its CONNECT to ["/chat"] has been served. *)
Definition chat_conn : conn :=
  (@conn_serveRead canonical_range spec_constants
     [Packet (packet Connect "/chat" 0 EmptyString (decode_to [DMap []]))]
     (NewConn "A" (<["/chat" := chat_handler]> ∅) None)).1.

(** [chat_conn] after [Emit("ping", cb_pong)]. *)
Definition chat_conn_pinged : conn :=
  default chat_conn (@conn_Emit spec_constants chat_conn "/chat" "ping" [ArgFunc cb_pong]).

(** Inbound packets of the scenarios. *)
Definition ack1_undecodable : InPacket := packet Ack "/chat" 1 EmptyString decode_fails.
Definition ack1_pong : InPacket := packet Ack "/chat" 1 EmptyString (decode_to [DString "pong"]).
Definition event_boom : InPacket := packet Event "/chat" 0 "boom" (decode_to []).
Definition event_hello : InPacket :=
  packet Event "/chat" 0 "hello" (decode_to [DString "hi"]).
Definition event_unknown : InPacket := packet Event "/chat" 0 "nope" (decode_to []).
Definition event_unknown_undecodable : InPacket :=
  packet Event "/chat" 0 "nope" decode_fails.
Definition connect_admin : InPacket := packet Connect "/admin" 0 EmptyString (decode_to [DMap []]).
Definition connect_admin_undecodable : InPacket :=
  packet Connect "/admin" 0 EmptyString decode_fails.

(** The header the reader dispatches on: the decoded one, its namespace
    rewritten from the alias to the root name. *)
Definition served_header `{Constants} (p : InPacket) : Header :=
  set_hNamespace (canonical_nsp (hNamespace (inHeader p))) (inHeader p).

(** Cluster scenarios: one subscriber is counted and the publish succeeds,
    but no response ever arrives; the subscriber count cannot be read while
    the publish succeeds and one peer answers; the publish fails. *)
Definition bus_silent : Bus :=
  {| bus_marshal := None; bus_numSub := inr (Some 1%Z); bus_publish := None;
     bus_responses := [] |}.

Definition bus_numSub_fails : Bus :=
  {| bus_marshal := None; bus_numSub := inl (errorString "connection reset");
     bus_publish := None;
     bus_responses :=
       [{| resRequestType := allRoomReqType; resRequestID := "req-1";
           resConnections := None; resRooms := Some ["r1"] |}] |}.

Definition bus_publish_fails : Bus :=
  {| bus_marshal := None; bus_numSub := inr (Some 1%Z);
     bus_publish := Some (errorString "connection reset");
     bus_responses := [] |}.

(* ===================================================================== *)
(** ** Notions used by the further properties                              *)
(* ===================================================================== *)

(** The handle stored for connection id [id] in [room], if any. *)
Definition roomMap_handle (rm : roomMap) (room id : string) : option Conn :=
  rm !! room ≫= (λ cm, cm !! id).

(** No room is named by the empty string and no member has the empty
    string as its id. *)
Definition well_named (rm : roomMap) : Prop :=
  rm !! EmptyString = None
  ∧ map_Forall (λ _ (cm : connMap), cm !! EmptyString = None) rm.

(* ===================================================================== *)
(** ** Registration of callbacks                                           *)
(* ===================================================================== *)

(** A value handed to [OnEvent] as [f interface{}]: something that is not a
    function, or a function by its parameter types and its behaviour. *)
Inductive GoValue :=
  | GoNotFunc
  | GoFunc (params : list Ty) (body : list Value → CallOutcome).

(** [ft.In(0).Name() == "Conn"]: the built-in and unnamed types have other
    names; a named type is compared by its bare name. *)
Definition Ty_named_Conn (t : Ty) : bool :=
  match t with
  | TOther name => bool_decide (name = "Conn")
  | _ => false
  end.

(** [newEventFunc]; [None] when it panics. *)
Definition newEventFunc (v : GoValue) : option funcHandler :=
  match v with
  | GoNotFunc => None
  | GoFunc [] _ => None
  | GoFunc (first :: rest) body =>
      if Ty_named_Conn first
      then Some {| argTypes := rest; f := body |}
      else None
  end.

(** [newAckFunc]; [None] when it panics. *)
Definition newAckFunc (v : GoValue) : option funcHandler :=
  match v with
  | GoNotFunc => None
  | GoFunc params body => Some {| argTypes := params; f := body |}
  end.

Definition Handler_OnConnect (nh : Handler) (fn : option (Conn → Data → option error))
  : Handler :=
  {| broadcast := broadcast nh; events := events nh; onConnect := fn;
     onDisconnect := onDisconnect nh; onError := onError nh |}.

(** [OnDisconnect(f)] and [OnError(f)]: [registered] is whether [f] is
    non-nil. *)
Definition Handler_OnDisconnect (nh : Handler) (registered : bool) : Handler :=
  {| broadcast := broadcast nh; events := events nh; onConnect := onConnect nh;
     onDisconnect := registered; onError := onError nh |}.

Definition Handler_OnError (nh : Handler) (registered : bool) : Handler :=
  {| broadcast := broadcast nh; events := events nh; onConnect := onConnect nh;
     onDisconnect := onDisconnect nh; onError := registered |}.

(** [Handler.OnEvent]; [None] when [newEventFunc] panics. *)
Definition Handler_OnEvent (nh : Handler) (event : string) (v : GoValue)
  : option Handler :=
  match newEventFunc v with
  | Some fh =>
      Some {| broadcast := broadcast nh; events := <[event := fh]> (events nh);
              onConnect := onConnect nh; onDisconnect := onDisconnect nh;
              onError := onError nh |}
  | None => None
  end.

(** [Handlers.Set] and [Handlers.Get] *)
Definition Handlers_Set (namespace : string) (handler : Handler) (hs : Handlers)
  : Handlers := <[namespace := handler]> hs.

Definition Handlers_Get (nsp0 : string) (hs : Handlers) : option Handler :=
  hs !! nsp0.

Section registration.
Context `{Constants}.

(** The registry entry a handler pointer obtained for [nsp0] stands for. *)
Definition Server_update (s : Server) (nsp0 : string) (h : Handler) : Server :=
  {| nspHandlers := Handlers_Set (canonical_nsp nsp0) h (nspHandlers s) |}.

(** [Server.OnConnect], [OnDisconnect], [OnError]; [uid0] is the uuid a
    newly created handler's broadcaster draws. *)
Definition Server_OnConnect (s : Server) (namespace uid0 : string)
    (fn : option (Conn → Data → option error)) : Server :=
  let r := Server_getOrCreateNamespaceHandler s namespace uid0 in
  Server_update r.2 namespace (Handler_OnConnect r.1 fn).

Definition Server_OnDisconnect (s : Server) (namespace uid0 : string)
    (registered : bool) : Server :=
  let r := Server_getOrCreateNamespaceHandler s namespace uid0 in
  Server_update r.2 namespace (Handler_OnDisconnect r.1 registered).

Definition Server_OnError (s : Server) (namespace uid0 : string)
    (registered : bool) : Server :=
  let r := Server_getOrCreateNamespaceHandler s namespace uid0 in
  Server_update r.2 namespace (Handler_OnError r.1 registered).

(** [Server.OnEvent]: whether the call returned (it panics in
    [newEventFunc] otherwise) and the server afterwards; the handler is
    created before the function is examined. *)
Definition Server_OnEvent (s : Server) (namespace uid0 event : string) (v : GoValue)
  : bool * Server :=
  let r := Server_getOrCreateNamespaceHandler s namespace uid0 in
  match Handler_OnEvent r.1 event v with
  | Some h => (true, Server_update r.2 namespace h)
  | None => (false, r.2)
  end.
End registration.

(** A server on which ["/chat"] has been registered. *)
Definition chat_server : Server :=
  @Server_OnDisconnect spec_constants empty_server "/chat" "uid-1" true.

(** The view as [Emit] leaves it, whether it returned or panicked. *)
Definition EmitResult_view (r : EmitResult) : namespaceConn :=
  match r with
  | EmitWrite nc _ _ => nc
  | EmitPanic nc => nc
  end.

(** One [Emit(eventName, fh)] per callback of [fhs], in order. *)
Definition emit_callbacks `{Constants} (eventName : string)
    (fhs : list funcHandler) (nc : namespaceConn) : namespaceConn :=
  foldl (λ nc0 fh, EmitResult_view (namespaceConn_Emit nc0 eventName [ArgFunc fh]))
        nc fhs.

(** A fresh connection A on a registry holding ["/chat"], and its CONNECT. *)
Definition fresh_conn : conn := NewConn "A" (<["/chat" := chat_handler]> ∅) None.
Definition connect_chat : InPacket :=
  packet Connect "/chat" 0 EmptyString (decode_to [DMap []]).
Definition disconnect_chat : InPacket :=
  packet Disconnect "/chat" 0 EmptyString
         (decode_to [DString "client namespace disconnect"; DMap []]).

(** Namespace ["/chat"] with an [onConnect] that refuses everybody. *)
Definition refuse_all : Conn → Data → option error :=
  λ _ _, Some (errorString "unauthorized").
Definition strict_handler : Handler := Handler_OnConnect chat_handler (Some refuse_all).
Definition strict_conn : conn := NewConn "A" (<["/chat" := strict_handler]> ∅) None.

(* ===================================================================== *)
(** ** Cluster requests served by a node                                   *)
(* ===================================================================== *)

(** [req[k]] on a [map[string]string]: the zero value when absent. *)
Definition req_field (req : gmap string string) (k : string) : string :=
  default EmptyString (req !! k).

(** The JSON objects [json.Marshal] makes of the three request structs (the
    unexported and the [json:"-"] fields are left out), as [onRequest]
    unmarshals them. *)
Definition roomLenRequest_json (RequestID room : string) : gmap string string :=
  <["RequestType" := roomLenReqType]>
    (<["RequestID" := RequestID]> (<["Room" := room]> ∅)).

Definition allRoomRequest_json (RequestID : string) : gmap string string :=
  <["RequestType" := allRoomReqType]> (<["RequestID" := RequestID]> ∅).

Definition clearRoomRequest_json (RequestID room UUID : string)
  : gmap string string :=
  <["RequestType" := clearRoomReqType]>
    (<["RequestID" := RequestID]> (<["Room" := room]> (<["UUID" := UUID]> ∅))).

(** Sum of the [Connections] fields of responses. *)
Definition sum_connections (rs : list Response) : Z :=
  foldr (λ res acc, (default 0 (resConnections res) + acc)%Z) 0%Z rs.

(** The responses that name the request [RequestID]. *)
Definition replies_to (RequestID : string) (rs : list Response) : list Response :=
  filter (λ res, resRequestID res = RequestID) rs.

(** A well-formed reply to the room-length request [RequestID]. *)
Definition roomLen_reply (RequestID : string) (res : Response) : Prop :=
  resRequestID res = RequestID ∧ resRequestType res = roomLenReqType
  ∧ is_Some (resConnections res).

(** A well-formed reply to the all-rooms request [RequestID]. *)
Definition allRoom_reply (RequestID : string) (res : Response) : Prop :=
  resRequestID res = RequestID ∧ resRequestType res = allRoomReqType
  ∧ is_Some (resRooms res).

(** A response to a request this node is not waiting for. *)
Definition foreign_reply (requests : gmap string Request) (RequestID : string)
    (res : Response) : Prop :=
  resRequestID res ≠ RequestID ∧ requests !! resRequestID res = None.

Section remote_requests.
Context `{MapRange}.

(** [onRequest]: the response handed to [publish] for the response
    channel, if any, as [onResponse] of the requesting node decodes it, and
    the local broadcaster afterwards. [req] is the unmarshalled message,
    [None] when [json.Unmarshal] fails. *)
Definition remote_onRequest (req : option (gmap string string))
    (local : broadcastLocal) : option Response * broadcastLocal :=
  match req with
  | None => (None, local)
  | Some req =>
      let ty := req_field req "RequestType" in
      if decide (ty = roomLenReqType) then
        (Some {| resRequestType := ty;
                 resRequestID := req_field req "RequestID";
                 resConnections :=
                   Some (broadcastLocal_lenRoom local (req_field req "Room"));
                 resRooms := None |}, local)
      else if decide (ty = allRoomReqType) then
        (Some {| resRequestType := ty;
                 resRequestID := req_field req "RequestID";
                 resConnections := None;
                 resRooms := Some (broadcastLocal_allRooms local) |}, local)
      else if decide (ty = clearRoomReqType) then
        if decide (uid local = req_field req "UUID") then (None, local)
        else (None, broadcastLocal_clear (req_field req "Room") local)
      else (None, local)
  end.

(** [publishClear]: the request published on the request channel;
    [RequestID] is the fresh [newV4UUID()]. *)
Definition remote_publishClear (local : broadcastLocal) (RequestID room : string)
  : gmap string string :=
  clearRoomRequest_json RequestID room (uid local).

(** [broadcastRemote.Clear] on a node: the local broadcaster afterwards and
    the request sent to the cluster. *)
Definition broadcastRemote_Clear (local : broadcastLocal) (RequestID room : string)
  : broadcastLocal * gmap string string :=
  (broadcastLocal_clear room local, remote_publishClear local RequestID room).

(** What the nodes subscribed to the request channel answer to [req]. *)
Definition cluster_replies (req : gmap string string) (nodes : list broadcastLocal)
  : list Response :=
  omap (λ local, (remote_onRequest (Some req) local).1) nodes.
End remote_requests.

(** A bus with [nodes] subscribed on which every call succeeds and the
    answers to [req] arrive in the order of [nodes]. *)
Definition cluster_bus `{MapRange} (req : gmap string string)
    (nodes : list broadcastLocal) : Bus :=
  {| bus_marshal := None;
     bus_numSub := inr (Some (Z.of_nat (length nodes)));
     bus_publish := None;
     bus_responses := cluster_replies req nodes |}.

(* ===================================================================== *)
(** ** Broadcast messages between nodes                                    *)
(* ===================================================================== *)





Section remote_messages.
Context `{MapRange}.



End remote_messages.

(** Two nodes serving ["/chat"]: [node_1] holds the rooms [r1] (two
    members) and [r2], [node_2] holds [r1] only. *)
Definition node_1 : broadcastLocal :=
  broadcastLocal_join "r2" connA
    (broadcastLocal_join "r1" connB
       (broadcastLocal_join "r1" connA (newBroadcastLocal "/chat" "uid-1"))).
Definition node_2 : broadcastLocal :=
  broadcastLocal_join "r1" connB (newBroadcastLocal "/chat" "uid-2").

(** A reply to another node's request, as every subscriber of the response
    channel sees it. *)
Definition stray_reply : Response :=
  {| resRequestType := roomLenReqType; resRequestID := "req-0";
     resConnections := Some 7%Z; resRooms := None |}.

Definition reply_len (RequestID : string) (n : Z) : Response :=
  {| resRequestType := roomLenReqType; resRequestID := RequestID;
     resConnections := Some n; resRooms := None |}.

Definition reply_rooms (RequestID : string) (rooms : option (list string))
  : Response :=
  {| resRequestType := allRoomReqType; resRequestID := RequestID;
     resConnections := None; resRooms := rooms |}.

(** A bus on which every call succeeds, with [numSub] subscribers counted
    and the given responses arriving. *)
Definition bus_answering (numSub : Z) (responses : list Response) : Bus :=
  {| bus_marshal := None; bus_numSub := inr (Some numSub);
     bus_publish := None; bus_responses := responses |}.


(* ===================================================================== *)
(** ** Adapter configuration ([config.go])                                 *)
(* ===================================================================== *)

Record RedisAdapterConfig := mkRedisAdapterConfig {
  Addr : string;
  Prefix : string;
  Network : string;
  Password : string;
  DB : Z
}.

Definition defaultConfig : RedisAdapterConfig :=
  {| Addr := "127.0.0.1:6379"; Prefix := "socket.io"; Network := "tcp";
     Password := EmptyString; DB := 0 |}.

(** [GetOptions]; [None] is the nil pointer. *)
Definition GetOptions (opts : option RedisAdapterConfig) : RedisAdapterConfig :=
  let options := defaultConfig in
  match opts with
  | None => options
  | Some opts =>
      let options :=
        if decide (Addr opts ≠ EmptyString)
        then {| Addr := Addr opts; Prefix := Prefix options;
                Network := Network options; Password := Password options;
                DB := DB options |}
        else options in
      let options :=
        if decide (Prefix opts ≠ EmptyString)
        then {| Addr := Addr options; Prefix := Prefix opts;
                Network := Network options; Password := Password options;
                DB := DB options |}
        else options in
      let options :=
        if decide (Network opts ≠ EmptyString)
        then {| Addr := Addr options; Prefix := Prefix options;
                Network := Network opts; Password := Password options;
                DB := DB options |}
        else options in
      let options :=
        if decide (0 < DB opts)%Z
        then {| Addr := Addr options; Prefix := Prefix options;
                Network := Network options; Password := Password options;
                DB := DB opts |}
        else options in
      let options :=
        if decide (0 < String.length (Password opts))%nat
        then {| Addr := Addr options; Prefix := Prefix options;
                Network := Network options; Password := Password opts;
                DB := DB options |}
        else options in
      options
  end.

(* ===================================================================== *)
(** ** The engine session ([session.go])                                   *)
(* ===================================================================== *)

(** [frame.Type] and the [packet.Type] constants the session names. *)
Inductive frame_Type := frame_String | frame_Binary.

Inductive packet_Type :=
  | OPEN | CLOSE | PING | PONG | MESSAGE | UPGRADE | NOOP.

#[export] Instance frame_Type_eq_dec : EqDecision frame_Type.
Proof. solve_decision. Defined.
#[export] Instance packet_Type_eq_dec : EqDecision packet_Type.
Proof. solve_decision. Defined.

Definition io_EOF : error := errorString "EOF".

(** What [conn.NextReader()] of the transport yields: an error that is a
    [payload.Error] with [Temporary()], another error, or a packet. *)
Inductive ReadResult :=
  | ReadTemporary
  | ReadFails (e : error)
  | ReadPacket (ft : frame_Type) (pt : packet_Type) (data : string).

(** What [conn.NextWriter(ft, pt)] yields: a temporary error, another
    error, or a writer, given by the outcome of writing into it and of
    closing it. *)
Inductive WriteResult :=
  | WriteTemporary
  | WriteFails (e : error)
  | WriteOpens (write close : option error).

(** A [transport.Conn]: the outcomes of its coming [NextWriter] calls, of
    [SetReadDeadline], [SetWriteDeadline] and [Close], the number of
    [Close] calls made, and the packets written and closed without
    error. What it will read is passed to the reading functions. *)
Record Transport := mkTransport {
  t_writes : list WriteResult;
  t_setReadDeadline : option error;
  t_setWriteDeadline : option error;
  t_close : option error;
  t_closed : nat;
  t_sent : list (frame_Type * packet_Type * string)
}.

(** [Session]; [s_quitChan] is [None] for the nil channel and tells
    otherwise whether the channel is closed, [s_readDeadline] whether the
    pong timer is armed. *)
Record Session := mkSession {
  s_conn : Transport;
  s_transport : string;
  s_SID : string;
  s_readDeadline : bool;
  s_quitChan : option bool;
  s_quitOnce : bool
}.

Definition Transport_Close (t : Transport) : option error * Transport :=
  (t_close t,
   {| t_writes := t_writes t; t_setReadDeadline := t_setReadDeadline t;
      t_setWriteDeadline := t_setWriteDeadline t; t_close := t_close t;
      t_closed := S (t_closed t); t_sent := t_sent t |}).

Definition Transport_set_writes (ws : list WriteResult) (t : Transport) : Transport :=
  {| t_writes := ws; t_setReadDeadline := t_setReadDeadline t;
     t_setWriteDeadline := t_setWriteDeadline t; t_close := t_close t;
     t_closed := t_closed t; t_sent := t_sent t |}.

Definition Transport_send (p : frame_Type * packet_Type * string) (t : Transport)
  : Transport :=
  {| t_writes := t_writes t; t_setReadDeadline := t_setReadDeadline t;
     t_setWriteDeadline := t_setWriteDeadline t; t_close := t_close t;
     t_closed := t_closed t; t_sent := t_sent t ++ [p] |}.

Definition Session_set_conn (c : Transport) (s : Session) : Session :=
  {| s_conn := c; s_transport := s_transport s; s_SID := s_SID s;
     s_readDeadline := s_readDeadline s; s_quitChan := s_quitChan s;
     s_quitOnce := s_quitOnce s |}.

(** [Session.Close]: [None] when [close(s.quitChan)] panics (nil or
    already closed channel). The transport is closed on every call. *)
Definition Session_Close (s : Session) : option (option error * Session) :=
  let closed := Transport_Close (s_conn s) in
  if s_quitOnce s then Some (closed.1, Session_set_conn closed.2 s)
  else
    match s_quitChan s with
    | Some false =>
        Some (closed.1,
              {| s_conn := closed.2; s_transport := s_transport s;
                 s_SID := s_SID s; s_readDeadline := s_readDeadline s;
                 s_quitChan := Some true; s_quitOnce := true |})
    | _ => None
    end.

(** [resetDeadlines] *)
Definition Session_resetDeadlines (s : Session) : option error :=
  match t_setReadDeadline (s_conn s) with
  | Some err => Some err
  | None => t_setWriteDeadline (s_conn s)
  end.

(** [New]: [None] when the call panics; the health-check goroutine it
    starts is left out. *)
Definition Session_New (conn : Transport) (sid transport : string)
  : option (error + Session) :=
  let ses := {| s_conn := conn; s_transport := transport; s_SID := sid;
                s_readDeadline := false; s_quitChan := None;
                s_quitOnce := false |} in
  match Session_resetDeadlines ses with
  | Some err =>
      match Session_Close ses with
      | None => None
      | Some _ => Some (inl err)
      end
  | None =>
      Some (inr {| s_conn := conn; s_transport := transport; s_SID := sid;
                   s_readDeadline := false; s_quitChan := Some false;
                   s_quitOnce := false |})
  end.

(** [releasePongReadline] *)
Definition Session_releasePongReadline (s : Session) : Session :=
  {| s_conn := s_conn s; s_transport := s_transport s; s_SID := s_SID s;
     s_readDeadline := false; s_quitChan := s_quitChan s;
     s_quitOnce := s_quitOnce s |}.

(** The loop of [nextWriter] over the transport's answers: temporary
    errors are retried; [None] when no answer comes any more. *)
Fixpoint transport_nextWriter (writes : list WriteResult)
  : option ((error + option error * option error) * list WriteResult) :=
  match writes with
  | [] => None
  | WriteTemporary :: rest => transport_nextWriter rest
  | WriteFails err :: rest => Some (inl err, rest)
  | WriteOpens write close :: rest => Some (inr (write, close), rest)
  end.

(** [nextWriter] *)
Definition Session_nextWriter (s : Session)
  : option ((error + option error * option error) * Session) :=
  match transport_nextWriter (t_writes (s_conn s)) with
  | None => None
  | Some (w, rest) => Some (w, Session_set_conn (Transport_set_writes rest (s_conn s)) s)
  end.

Inductive NextReaderResult :=
  | NRMessage (ft : frame_Type) (data : string)
  | NRError (err : error).

(** [return 0, nil, err] after [s.Close()], whose result is dropped. *)
Definition Session_close_and_fail (err : error) (rest : list ReadResult)
    (s : Session) : option (NextReaderResult * list ReadResult * Session) :=
  match Session_Close s with
  | None => None
  | Some (_, s') => Some (NRError err, rest, s')
  end.

(** [NextReader], with the loop of [nextReader] inlined, over what the
    transport reads: the result, what is left to read and the session.
    [None]: the call does not return. *)
Fixpoint Session_NextReader (reads : list ReadResult) (s : Session)
  : option (NextReaderResult * list ReadResult * Session) :=
  match reads with
  | [] => None
  | ReadTemporary :: rest => Session_NextReader rest s
  | ReadFails err :: rest => Session_close_and_fail err rest s
  | ReadPacket ft pt data :: rest =>
      let s := Session_releasePongReadline s in
      match pt with
      | MESSAGE => Some (NRMessage ft data, rest, s)
      | PING =>
          match Session_nextWriter s with
          | None => None
          | Some (inl err, s) => Session_close_and_fail err rest s
          | Some (inr (Some err, _), s) => Session_close_and_fail err rest s
          | Some (inr (None, close), s) =>
              Session_NextReader rest
                (match close with
                 | None => Session_set_conn (Transport_send (ft, PONG, data) (s_conn s)) s
                 | Some _ => s
                 end)
          end
      | CLOSE => Session_close_and_fail io_EOF rest s
      | _ => Session_NextReader rest s
      end
  end.

(** [InitSession]; [params] is what [s.params.WriteTo] writes. *)
Definition Session_InitSession (params : string) (s : Session)
  : option (option error * Session) :=
  match Session_nextWriter s with
  | None => None
  | Some (inl err, s) =>
      match Session_Close s with
      | None => None
      | Some (_, s) => Some (Some err, s)
      end
  | Some (inr (Some err, _), s) =>
      match Session_Close s with
      | None => None
      | Some (_, s) => Some (Some err, s)
      end
  | Some (inr (None, Some err), s) =>
      match Session_Close s with
      | None => None
      | Some (_, s) => Some (Some err, s)
      end
  | Some (inr (None, None), s) =>
      Some (None, Session_set_conn (Transport_send (frame_String, OPEN, params)
                                                   (s_conn s)) s)
  end.

(** A session as [New] leaves it and [Close] keeps it: the quit channel
    exists and is closed exactly when [quitOnce] has run. *)
Definition Session_ok (s : Session) : Prop :=
  s_quitChan s = Some (s_quitOnce s).

(** Reads that make [NextReader] go on: temporary errors and packets
    other than MESSAGE and CLOSE. *)
Definition passes (r : ReadResult) : Prop :=
  match r with
  | ReadTemporary => True
  | ReadFails _ => False
  | ReadPacket _ pt _ => pt ≠ MESSAGE ∧ pt ≠ CLOSE
  end.

(** The PONG packets answering the PING packets among [reads]. *)
Definition pongs (reads : list ReadResult) : list (frame_Type * packet_Type * string) :=
  omap (λ r, match r with
             | ReadPacket ft PING data => Some (ft, PONG, data)
             | _ => None
             end) reads.

(** [n] successive [Close] calls (stopping at a panic). *)
Fixpoint Session_Close_times (n : nat) (s : Session) : option Session :=
  match n with
  | O => Some s
  | S n' =>
      match Session_Close s with
      | None => None
      | Some (_, s') => Session_Close_times n' s'
      end
  end.

(* --------------------------------------------------------------------- *)
(** *** Transport upgrade                                                  *)

(** What the new connection does during [upgrading], call by call: the
    outcomes of the two [SetReadDeadline] calls, of the two [NextReader]
    calls (a packet comes with the outcome of closing its reader), of
    [NextWriter] (a writer comes with the outcomes of [io.Copy] into it
    and of closing it) and of [SetWriteDeadline]. *)
Record Upgrader := mkUpgrader {
  u_setReadDeadline1 : option error;
  u_read1 : error + (frame_Type * packet_Type * string * option error);
  u_nextWriter : error + (option error * option error);
  u_setWriteDeadline : option error;
  u_setReadDeadline2 : option error;
  u_read2 : error + (packet_Type * option error)
}.

(** What [upgrading] does to the two connections, in order. *)
Inductive UpgradeAction :=
  | NewReaderOpened
  | NewReaderClosed
  | NewWriterOpened
  | NewEchoed (ft : frame_Type) (data : string)
  | NewWriterClosed
  | NewClosed
  | OldPaused
  | OldResumed
  | OldClosed.

#[export] Instance UpgradeAction_eq_dec : EqDecision UpgradeAction.
Proof. solve_decision. Defined.

(** The second half of [upgrading], after the old connection has been
    paused: the actions, and whether the session switched to the new
    connection. The deferred [p.Resume()] runs last when [p] is still
    set. *)
Definition Session_upgrading_paused (new : Upgrader) : list UpgradeAction * bool :=
  match u_setReadDeadline2 new with
  | Some _ => ([NewClosed; OldResumed], false)
  | None =>
      match u_read2 new with
      | inl _ => ([NewClosed; OldResumed], false)
      | inr (pt, rclose) =>
          if decide (pt ≠ UPGRADE)
          then ([NewReaderOpened; NewReaderClosed; NewClosed; OldResumed], false)
          else
            match rclose with
            | Some _ => ([NewReaderOpened; NewReaderClosed; NewClosed; OldResumed],
                         false)
            | None => ([NewReaderOpened; NewReaderClosed; OldClosed], true)
            end
      end
  end.

(** [upgrading(t, conn)]: [oldPauser] tells whether the session's current
    connection is a [Pauser]. The result is the list of actions and the
    name of the session's transport afterwards, with whether its
    connection is now the new one. *)
Definition Session_upgrading (t : string) (new : Upgrader) (oldPauser : bool)
    (s : Session) : list UpgradeAction * (string * bool) :=
  let stay (acts : list UpgradeAction) := (acts, (s_transport s, false)) in
  match u_setReadDeadline1 new with
  | Some _ => stay [NewClosed]
  | None =>
      match u_read1 new with
      | inl _ => stay [NewClosed]
      | inr (ft, pt, data, rclose) =>
          if decide (pt ≠ PING)
          then stay [NewReaderOpened; NewReaderClosed; NewClosed]
          else
            match u_nextWriter new with
            | inl _ => stay [NewReaderOpened; NewReaderClosed; NewClosed]
            | inr (copy, wclose) =>
                match u_setWriteDeadline new with
                | Some _ =>
                    stay [NewReaderOpened; NewWriterOpened; NewWriterClosed;
                          NewReaderClosed; NewClosed]
                | None =>
                    match copy with
                    | Some _ =>
                        stay [NewReaderOpened; NewWriterOpened; NewWriterClosed;
                              NewReaderClosed; NewClosed]
                    | None =>
                        match rclose with
                        | Some _ =>
                            stay [NewReaderOpened; NewWriterOpened;
                                  NewEchoed ft data; NewReaderClosed;
                                  NewWriterClosed; NewClosed]
                        | None =>
                            match wclose with
                            | Some _ =>
                                stay [NewReaderOpened; NewWriterOpened;
                                      NewEchoed ft data; NewReaderClosed;
                                      NewWriterClosed; NewClosed]
                            | None =>
                                let echoed :=
                                  [NewReaderOpened; NewWriterOpened;
                                   NewEchoed ft data; NewReaderClosed;
                                   NewWriterClosed] in
                                if oldPauser then
                                  let r := Session_upgrading_paused new in
                                  (echoed ++ [OldPaused] ++ r.1,
                                   if r.2 then (t, true)
                                   else (s_transport s, false))
                                else stay (echoed ++ [NewClosed])
                            end
                        end
                    end
                end
            end
      end
  end.

(** A transport on which every call succeeds, with writers for two
    packets. *)
Definition good_transport : Transport :=
  {| t_writes := [WriteOpens None None; WriteOpens None None];
     t_setReadDeadline := None; t_setWriteDeadline := None; t_close := None;
     t_closed := 0; t_sent := [] |}.

(** A transport that refuses deadlines. *)
Definition deaf_transport : Transport :=
  {| t_writes := []; t_setReadDeadline := Some (errorString "closed");
     t_setWriteDeadline := None; t_close := None; t_closed := 0; t_sent := [] |}.

Definition good_session : Session :=
  {| s_conn := good_transport; s_transport := "polling"; s_SID := "sid-1";
     s_readDeadline := true; s_quitChan := Some false; s_quitOnce := false |}.

(** The client pings, polls and then sends a message. *)
Definition ping_then_message : list ReadResult :=
  [ReadPacket frame_String PING "probe"; ReadTemporary;
   ReadPacket frame_String PONG EmptyString;
   ReadPacket frame_String MESSAGE "hello";
   ReadPacket frame_String CLOSE EmptyString].

(** A new connection on which the upgrade handshake succeeds. *)
Definition good_upgrader : Upgrader :=
  {| u_setReadDeadline1 := None;
     u_read1 := inr (frame_String, PING, "probe", None);
     u_nextWriter := inr (None, None);
     u_setWriteDeadline := None;
     u_setReadDeadline2 := None;
     u_read2 := inr (UPGRADE, None) |}.

(** Number of occurrences of an action. *)
Definition count_action (a : UpgradeAction) (acts : list UpgradeAction) : nat :=
  length (filter (λ b, b = a) acts).

(** The actions on the session's old connection. *)
Definition old_actions (acts : list UpgradeAction) : list UpgradeAction :=
  filter (λ a, a = OldPaused ∨ a = OldResumed ∨ a = OldClosed) acts.

(* ===================================================================== *)
(** * Properties                                                           *)
(* ===================================================================== *)

(* stdpp's [set_solver] clears hypotheses by name whether or not they
   exist. *)
#[local] Set Warnings "-clear-no-such-hyp".

Section map_go_facts.
Context `{MapRange}.

Lemma map_range_keys_perm {V : Type} (m : gmap string V) :
  (map_range m).*1 ≡ₚ (map_to_list m).*1.
Proof. by rewrite map_range_perm. Qed.

Lemma map_range_keys_NoDup {V : Type} (m : gmap string V) :
  NoDup (map_range m).*1.
Proof. rewrite map_range_keys_perm. apply NoDup_fst_map_to_list. Qed.

Lemma elem_of_map_range_keys {V : Type} (m : gmap string V) (k : string) :
  k ∈ (map_range m).*1 ↔ is_Some (m !! k).
Proof.
  rewrite map_range_keys_perm, list_elem_of_fmap. split.
  - intros [[k' v] [-> Hin]]. apply elem_of_map_to_list in Hin. by exists v.
  - intros [v Hv]. exists (k, v). split; [done|]. by apply elem_of_map_to_list.
Qed.

Lemma map_range_length {V : Type} (m : gmap string V) :
  length (map_range m) = size m.
Proof. by rewrite map_range_perm, length_map_to_list. Qed.

(** A callback that never breaks turns [forEach] into a left fold over the
    listed ids that are present. *)
Lemma roomMap_forEach_loop_foldl {A : Type} (rm : roomMap)
    (g : string → connMap → A → A) (ids : list string) (acc : A) :
  roomMap_forEach_loop rm (λ room cm a, (g room cm a, true)) ids acc =
  foldl (λ a room, match rm !! room with Some cm => g room cm a | None => a end)
        acc ids.
Proof.
  revert acc. induction ids as [|id ids IH]; intros acc; simpl; [done|].
  unfold roomMap_getConnections. destruct (rm !! id); simpl; apply IH.
Qed.

Lemma allRooms_loop (rm : roomMap) (ids acc : list string) :
  foldl (λ a room, match rm !! room with Some _ => a ++ [room] | None => a end)
        acc ids
  = acc ++ filter (λ room, is_Some (rm !! room)) ids.
Proof.
  revert acc. induction ids as [|id ids IH]; intros acc; simpl.
  - by rewrite app_nil_r.
  - rewrite IH. destruct (rm !! id) as [cm|] eqn:E.
    + rewrite filter_cons_True by (by eexists). by rewrite <- app_assoc.
    + by rewrite filter_cons_False by (intros [? ?]; congruence).
Qed.

Lemma lenRoom_loop (rm : roomMap) (roomID : string) (ids : list string) (acc : Z) :
  foldl (λ a room, match rm !! room with
                   | Some _ => if decide (room = roomID) then (a + 1)%Z else a
                   | None => a end) acc ids
  = (acc + Z.of_nat (length (filter (λ room, room = roomID ∧ is_Some (rm !! room)) ids)))%Z.
Proof.
  revert acc. induction ids as [|id ids IH]; intros acc; simpl; [lia|].
  rewrite IH. destruct (rm !! id) as [cm|] eqn:E.
  - destruct (decide (id = roomID)) as [->|Hne].
    + rewrite filter_cons_True by (by eexists). simpl. lia.
    + by rewrite filter_cons_False by (by intros [? _]).
  - by rewrite filter_cons_False by (intros [_ [? ?]]; congruence).
Qed.

Lemma filter_keep_all {A : Type} (P : A → Prop) `{∀ x, Decision (P x)}
    (l : list A) : Forall P l → filter P l = l.
Proof.
  induction 1 as [|x l Hx _ IH]; [done|]. by rewrite filter_cons_True, IH.
Qed.

Lemma filter_drop_all {A : Type} (P : A → Prop) `{∀ x, Decision (P x)}
    (l : list A) : Forall (λ x, ¬ P x) l → filter P l = [].
Proof.
  induction 1 as [|x l Hx _ IH]; [done|]. by rewrite filter_cons_False, IH.
Qed.

Lemma filter_replicate_True {A : Type} (P : A → Prop) `{∀ x, Decision (P x)}
    (n : nat) (x : A) : P x → filter P (replicate n x) = replicate n x.
Proof.
  intros HP. induction n as [|n IH]; simpl; [done|].
  by rewrite filter_cons_True, IH.
Qed.

Lemma filter_replicate_False {A : Type} (P : A → Prop) `{∀ x, Decision (P x)}
    (n : nat) (x : A) : ¬ P x → filter P (replicate n x) = [].
Proof.
  intros HP. induction n as [|n IH]; simpl; [done|].
  by rewrite filter_cons_False, IH.
Qed.

Lemma filter_present_keys (rm : roomMap) :
  filter (λ room, is_Some (rm !! room)) (map_range rm).*1 = (map_range rm).*1.
Proof.
  apply filter_keep_all, Forall_forall. intros k Hk.
  by apply elem_of_map_range_keys.
Qed.

Lemma length_filter_eq_NoDup (l : list string) (r : string) (P : string → Prop)
    `{∀ x, Decision (P x)} :
  NoDup l → P r → r ∈ l → length (filter (λ k, k = r ∧ P k) l) = 1%nat.
Proof.
  intros Hnd HP. induction Hnd as [|x l Hx Hnd IH]; intros Hin.
  - by apply elem_of_nil in Hin.
  - destruct (decide (x = r)) as [->|Hne].
    + rewrite filter_cons_True by done. simpl. f_equal.
      apply length_zero_iff_nil, filter_drop_all, Forall_forall.
      intros y Hy [-> _]. done.
    + rewrite filter_cons_False by (by intros [? _]).
      apply IH. apply elem_of_cons in Hin as [?|?]; [congruence|done].
Qed.

(** What [allRooms] returns: the present ids among [listRoomID], that is
    the keys, preceded by [len] empty strings when a room named by the
    empty string exists. *)
Lemma allRooms_value (bc : broadcastLocal) :
  broadcastLocal_allRooms bc =
  (if decide (is_Some (roomsSync bc !! EmptyString)) then replicate (size (roomsSync bc)) EmptyString else [])
    ++ (map_range (roomsSync bc)).*1.
Proof.
  unfold broadcastLocal_allRooms, roomMap_forEach, roomMap_listRoomID, getKeysOfMap.
  rewrite (roomMap_forEach_loop_foldl _ (λ room _ rooms, rooms ++ [room])).
  rewrite allRooms_loop. simpl. rewrite filter_app, filter_present_keys.
  f_equal. case_decide.
  - by apply filter_replicate_True.
  - by apply filter_replicate_False.
Qed.

Lemma lenRoom_value (bc : broadcastLocal) (roomID : string) :
  broadcastLocal_lenRoom bc roomID =
  match roomsSync bc !! roomID with
  | None => 0%Z
  | Some _ => if decide (roomID = EmptyString)
              then (Z.of_nat (size (roomsSync bc)) + 1)%Z else 1%Z
  end.
Proof.
  unfold broadcastLocal_lenRoom, roomMap_forEach, roomMap_listRoomID, getKeysOfMap.
  rewrite (roomMap_forEach_loop_foldl _
             (λ room _ res, if decide (room = roomID) then (res + 1)%Z else res)).
  rewrite lenRoom_loop, filter_app, length_app. simpl.
  destruct (roomsSync bc !! roomID) as [cm|] eqn:E.
  - rewrite (length_filter_eq_NoDup (map_range (roomsSync bc)).*1 roomID
               (λ k, is_Some (roomsSync bc !! k))).
    2: apply map_range_keys_NoDup. 2: by eexists.
    2: by apply elem_of_map_range_keys; eexists.
    case_decide as Hr.
    + subst roomID. rewrite filter_replicate_True by (by eexists).
      rewrite length_replicate. lia.
    + rewrite filter_replicate_False by (by intros [? _]). simpl; lia.
  - rewrite !(proj2 (length_zero_iff_nil _)); [done| |].
    + apply filter_drop_all, Forall_forall. intros k _ [-> [? ?]]. congruence.
    + apply filter_drop_all, Forall_forall. intros k _ [-> [? ?]]. congruence.
Qed.
End map_go_facts.

Section room_histories.

Lemma list_snoc_cases {A : Type} (l : list A) :
  l = [] ∨ ∃ l' x, l = l' ++ [x].
Proof.
  induction l as [|x l _] using rev_ind; [by left|right; eauto].
Qed.

Lemma roomMap_card_members (rm : roomMap) (room : string) :
  roomMap_card rm room = size (members rm room).
Proof.
  unfold roomMap_card, members, connMap_len.
  destruct (rm !! room) as [cm|]; [by rewrite size_dom|done].
Qed.

Lemma members_join (rm : roomMap) (r room : string) (conn : Conn) :
  members (roomMap_join r conn rm) room =
  if decide (r = room) then {[ID conn]} ∪ members rm room else members rm room.
Proof.
  unfold members, roomMap_join, connMap_join, newConnMap.
  case_decide as Hr.
  - subst r. destruct (rm !! room) as [cm|] eqn:E;
      rewrite lookup_insert_eq, dom_insert_L; [done|].
    by rewrite dom_empty_L.
  - destruct (rm !! r); by rewrite lookup_insert_ne.
Qed.

Lemma members_leave (rm : roomMap) (r room : string) (conn : Conn) :
  members (roomMap_leave r conn rm) room =
  if decide (r = room) then members rm room ∖ {[ID conn]} else members rm room.
Proof.
  unfold members, roomMap_leave, connMap_leave, connMap_len.
  case_decide as Hr.
  - subst r. destruct (rm !! room) as [cm|] eqn:E.
    + destruct (Nat.eqb_spec (size (delete (ID conn) cm)) 0) as [H0|H0].
      * rewrite lookup_delete_eq. apply map_size_empty_inv in H0.
        rewrite <- dom_delete_L, H0. by rewrite dom_empty_L.
      * by rewrite lookup_insert_eq, dom_delete_L.
    + rewrite E. set_solver.
  - destruct (rm !! r) as [cm|] eqn:E; [|done].
    destruct (Nat.eqb (size (delete (ID conn) cm)) 0).
    + by rewrite lookup_delete_ne, lookup_insert_ne.
    + by rewrite lookup_insert_ne.
Qed.

Lemma no_empty_room_join (rm : roomMap) (r : string) (conn : Conn) :
  no_empty_room rm → no_empty_room (roomMap_join r conn rm).
Proof.
  intros Hrm room. unfold roomMap_join, connMap_join.
  destruct (decide (r = room)) as [->|Hne].
  - destruct (rm !! room); rewrite lookup_insert_eq; intros [= Heq];
      by apply insert_non_empty in Heq.
  - destruct (rm !! r); rewrite lookup_insert_ne by done; apply Hrm.
Qed.

Lemma no_empty_room_leave (rm : roomMap) (r : string) (conn : Conn) :
  no_empty_room rm → no_empty_room (roomMap_leave r conn rm).
Proof.
  intros Hrm room. unfold roomMap_leave, connMap_leave, connMap_len.
  destruct (rm !! r) as [cm|] eqn:E; [|apply Hrm].
  destruct (Nat.eqb_spec (size (delete (ID conn) cm)) 0) as [H0|H0].
  - destruct (decide (r = room)) as [->|Hne].
    + by rewrite lookup_delete_eq.
    + rewrite lookup_delete_ne, lookup_insert_ne by done. apply Hrm.
  - destruct (decide (r = room)) as [->|Hne].
    + rewrite lookup_insert_eq. intros [= Heq]. rewrite Heq in H0.
      by rewrite map_size_empty in H0.
    + rewrite lookup_insert_ne by done. apply Hrm.
Qed.

Lemma roomMap_run_snoc (ops : list roomOp) (op : roomOp) :
  roomMap_run (ops ++ [op]) = roomMap_apply (roomMap_run ops) op.
Proof. unfold roomMap_run. by rewrite foldl_app. Qed.

Lemma joined_not_left_snoc (ops : list roomOp) (op : roomOp) (room : string) :
  joined_not_left (ops ++ [op]) room =
  match op with
  | opJoin r conn =>
      if decide (r = room) then {[ID conn]} ∪ joined_not_left ops room
      else joined_not_left ops room
  | opLeave r conn =>
      if decide (r = room) then joined_not_left ops room ∖ {[ID conn]}
      else joined_not_left ops room
  end.
Proof. unfold joined_not_left. by rewrite foldl_app. Qed.

Lemma roomMap_run_members (ops : list roomOp) (room : string) :
  members (roomMap_run ops) room = joined_not_left ops room.
Proof.
  induction ops as [|op ops IH] using rev_ind; [done|].
  rewrite roomMap_run_snoc, joined_not_left_snoc.
  destruct op as [r conn|r conn]; simpl.
  - by rewrite members_join, IH.
  - by rewrite members_leave, IH.
Qed.

Lemma roomMap_run_no_empty_room (ops : list roomOp) :
  no_empty_room (roomMap_run ops).
Proof.
  induction ops as [|op ops IH] using rev_ind.
  - intros room. unfold roomMap_run, newRoomMap. simpl. by rewrite lookup_empty.
  - rewrite roomMap_run_snoc. destruct op; simpl.
    + by apply no_empty_room_join.
    + by apply no_empty_room_leave.
Qed.

(** The finite set agrees with the history-based notion. *)
Lemma joined_not_left_still_joined (ops : list roomOp) (room id : string) :
  id ∈ joined_not_left ops room ↔ still_joined ops room id.
Proof.
  induction ops as [|op ops IH] using rev_ind.
  - split; [set_solver|]. intros (pre & c & post & Heq & _).
    by destruct pre.
  - rewrite joined_not_left_snoc. split.
    + intros Hin. destruct op as [r c|r c]; case_decide as Hr; subst.
      * apply elem_of_union in Hin as [Hin|Hin].
        -- apply elem_of_singleton in Hin. subst id.
           exists ops, c, []. split_and!; [done..|]. intros c' _ Hc'.
           by apply elem_of_nil in Hc'.
        -- apply IH in Hin as (pre & c0 & post & -> & Hid & Hpost).
           exists pre, c0, (post ++ [opJoin room c]).
           split_and!; [by rewrite <- app_assoc|done|].
           intros c' Hc' Hin'. apply elem_of_app in Hin' as [Hin'|Hin'].
           ++ by apply (Hpost c').
           ++ by apply list_elem_of_singleton in Hin'.
      * apply IH in Hin as (pre & c0 & post & -> & Hid & Hpost).
        exists pre, c0, (post ++ [opJoin r c]).
        split_and!; [by rewrite <- app_assoc|done|].
        intros c' Hc' Hin'. apply elem_of_app in Hin' as [Hin'|Hin'].
        ++ by apply (Hpost c').
        ++ by apply list_elem_of_singleton in Hin'.
      * apply elem_of_difference in Hin as [Hin Hne].
        apply IH in Hin as (pre & c0 & post & -> & Hid & Hpost).
        exists pre, c0, (post ++ [opLeave room c]).
        split_and!; [by rewrite <- app_assoc|done|].
        intros c' Hc' Hin'. apply elem_of_app in Hin' as [Hin'|Hin'].
        ++ by apply (Hpost c').
        ++ apply list_elem_of_singleton in Hin'. injection Hin' as ->.
           apply Hne, elem_of_singleton. congruence.
      * apply IH in Hin as (pre & c0 & post & -> & Hid & Hpost).
        exists pre, c0, (post ++ [opLeave r c]).
        split_and!; [by rewrite <- app_assoc|done|].
        intros c' Hc' Hin'. apply elem_of_app in Hin' as [Hin'|Hin'].
        ++ by apply (Hpost c').
        ++ apply list_elem_of_singleton in Hin'. congruence.
    + intros (pre & c0 & post & Heq & Hid & Hpost).
      destruct (list_snoc_cases post) as [->|(post' & p & ->)].
      * apply app_inj_tail in Heq as [-> ->].
        rewrite decide_True by done. set_solver.
      * rewrite app_comm_cons, app_assoc in Heq.
        apply app_inj_tail in Heq as [-> Hop]. subst p.
        assert (id ∈ joined_not_left (pre ++ opJoin room c0 :: post') room) as Hin.
        { apply IH. exists pre, c0, post'. split_and!; [done..|].
          intros c' Hc' Hin'. apply (Hpost c' Hc'), elem_of_app. by left. }
        destruct op as [r c|r c]; case_decide as Hr; subst; try done.
        -- set_solver.
        -- apply elem_of_difference. split; [done|].
           intros Hc%elem_of_singleton.
           apply (Hpost c (eq_sym Hc)), elem_of_app. right.
           by apply list_elem_of_singleton.
Qed.

(** In every program point of [leave] where the entry of [room] is an
    empty inner map, the write lock is held. *)
Lemma roomMap_leave_points_locked (rm : roomMap) (room : string) (conn : Conn)
    (p : bool * roomMap) :
  no_empty_room rm →
  p ∈ roomMap_leave_points room conn rm → p.2 !! room = Some ∅ → p.1 = true.
Proof.
  intros Hrm Hp Hempty. unfold roomMap_leave_points in Hp.
  destruct (rm !! room) as [cm|] eqn:E.
  - destruct (Nat.eqb_spec (connMap_len (connMap_leave conn cm)) 0) as [H0|H0];
      repeat (apply elem_of_cons in Hp as [->|Hp]); simpl in *; try done.
    + by rewrite lookup_delete_eq in Hempty.
    + by apply elem_of_nil in Hp.
    + rewrite lookup_insert_eq in Hempty. injection Hempty as Heq.
      exfalso. apply H0. unfold connMap_len. rewrite Heq. apply map_size_empty.
    + by apply elem_of_nil in Hp.
  - repeat (apply elem_of_cons in Hp as [->|Hp]); simpl in *; try done.
    + congruence.
    + by apply elem_of_nil in Hp.
Qed.

Lemma roomMap_leave_points_last (rm : roomMap) (room : string) (conn : Conn) :
  last (roomMap_leave_points room conn rm) = Some (false, roomMap_leave room conn rm).
Proof.
  unfold roomMap_leave_points, roomMap_leave.
  destruct (rm !! room) as [cm|]; [|done].
  by destruct (Nat.eqb (connMap_len (connMap_leave conn cm)) 0).
Qed.
End room_histories.

Section local_broadcaster_claims.
Context `{MapRange}.

Lemma roomMap_leaveAll_fold_members (conn : Conn) (ids : list string)
    (rm : roomMap) (room : string) :
  members (foldl (λ acc roomID, roomMap_leave roomID conn acc) rm ids) room =
  if decide (room ∈ ids) then members rm room ∖ {[ID conn]} else members rm room.
Proof.
  revert rm. induction ids as [|id ids IH]; intros rm; cbn [foldl].
  - case_decide as Hin; [by apply elem_of_nil in Hin|done].
  - rewrite IH, members_leave.
    destruct (decide (room ∈ id :: ids)) as [Hin|Hnin];
      destruct (decide (room ∈ ids)) as [Hin'|Hnin'];
      destruct (decide (id = room)) as [->|Hne]; try done.
    + set_solver.
    + apply elem_of_cons in Hin as [?|?]; congruence.
    + exfalso. apply Hnin. by apply list_elem_of_further.
    + exfalso. apply Hnin. by apply list_elem_of_further.
    + exfalso. apply Hnin. apply list_elem_of_here.
Qed.

(** [leaveAll] removes the connection from every room. *)
Lemma roomMap_leaveAll_members (conn : Conn) (rm : roomMap) (room : string) :
  members (roomMap_leaveAll conn rm) room = members rm room ∖ {[ID conn]}.
Proof.
  unfold roomMap_leaveAll. rewrite roomMap_leaveAll_fold_members.
  case_decide as Hin; [done|].
  assert (rm !! room = None) as Hnone.
  { destruct (rm !! room) as [cm|] eqn:E; [|done]. exfalso. apply Hin.
    unfold roomMap_listRoomID, getKeysOfMap. apply elem_of_app. right.
    apply elem_of_map_range_keys. by eexists. }
  unfold members. rewrite Hnone. set_solver.
Qed.

(** When no room is named by the empty string, [allRooms] lists exactly
    the keys of the index, each once. *)
Lemma allRooms_keys (bc : broadcastLocal) :
  roomsSync bc !! EmptyString = None →
  broadcastLocal_allRooms bc = (map_range (roomsSync bc)).*1
  ∧ NoDup (broadcastLocal_allRooms bc)
  ∧ ∀ room, room ∈ broadcastLocal_allRooms bc ↔ room ∈ dom (roomsSync bc).
Proof.
  intros Hnone. rewrite allRooms_value.
  rewrite decide_False by (rewrite Hnone; by intros [? ?]). simpl.
  split_and!; [done|apply map_range_keys_NoDup|].
  intros room. by rewrite elem_of_map_range_keys, elem_of_dom.
Qed.

(** C1, evaluated on scenario 1 of the specification: with A and B both
    joined to room ["r1"] the room holds two members, and [lenRoom] returns
    1, the number of rooms named ["r1"], not the member count 2. *)
Theorem lenRoom_two_members_returns_one :
  roomMap_card (roomsSync chat_two_joined) "r1" = 2
  ∧ broadcastLocal_lenRoom chat_two_joined "r1" = 1%Z.
Proof.
  split; [by vm_compute|]. rewrite lenRoom_value. by vm_compute.
Qed.

(** C4, evaluated on a state whose only room is named by the empty
    string: the index has the single key [EmptyString], and [allRooms] returns it
    twice, once from the zero-valued slot that [getKeysOfMap] allocates
    and once from the appended key. *)
Theorem allRooms_duplicates_unnamed_room :
  dom (roomsSync chat_unnamed_room) = {[ EmptyString ]}
  ∧ broadcastLocal_allRooms chat_unnamed_room = [EmptyString; EmptyString]
  ∧ ¬ NoDup (broadcastLocal_allRooms chat_unnamed_room).
Proof.
  assert (broadcastLocal_allRooms chat_unnamed_room = [EmptyString; EmptyString]) as Heq.
  { rewrite allRooms_value.
    assert ((map_range (roomsSync chat_unnamed_room)).*1 = [EmptyString]) as ->.
    { apply Permutation_singleton_r. rewrite map_range_keys_perm.
      by vm_compute. }
    by vm_compute. }
  split_and!; [by vm_compute|done|].
  rewrite Heq. intros Hnd. apply NoDup_cons in Hnd as [Hnin _].
  apply Hnin, list_elem_of_here.
Qed.
End local_broadcaster_claims.

(** C3: on a fresh room index, after any sequence of join/leave
    operations (hence after each operation of any sequence), the member
    count stored for a room equals the number of connections joined to it
    and not left since, and the room's entry exists exactly when that
    number is positive; the set counted is the one the history determines.
    In [leave], the entry of the room is an empty inner map only at program
    points where the write lock is held, and the state published at
    [Unlock] is the result of [leave]: the emptied entry is removed in the
    critical section that removed its last member. *)
Theorem roomMap_cardinality_tracks_history (ops : list roomOp) (room : string) :
  roomMap_card (roomMap_run ops) room = size (joined_not_left ops room)
  ∧ (is_Some (roomMap_run ops !! room) ↔ 0 < size (joined_not_left ops room))
  ∧ (∀ id, id ∈ joined_not_left ops room ↔ still_joined ops room id)
  ∧ (∀ conn p, p ∈ roomMap_leave_points room conn (roomMap_run ops) →
               p.2 !! room = Some ∅ → p.1 = true)
  ∧ (∀ conn, last (roomMap_leave_points room conn (roomMap_run ops))
             = Some (false, roomMap_leave room conn (roomMap_run ops))).
Proof.
  split_and!.
  - by rewrite roomMap_card_members, roomMap_run_members.
  - rewrite <- roomMap_run_members. unfold members.
    pose proof (roomMap_run_no_empty_room ops room) as Hne.
    destruct (roomMap_run ops !! room) as [cm|] eqn:E.
    + split; [intros _|by eexists]. rewrite size_dom.
      destruct (decide (size cm = 0)) as [H0|H0]; [|lia].
      apply map_size_empty_inv in H0. congruence.
    + rewrite size_empty. split; [by intros [? ?]|lia].
  - intros id. apply joined_not_left_still_joined.
  - intros conn p. apply roomMap_leave_points_locked, roomMap_run_no_empty_room.
  - intros conn. apply roomMap_leave_points_last.
Qed.

(* ===================================================================== *)
(** ** Server room operations                                              *)
(* ===================================================================== *)

(** C9: when no handler is registered for a namespace name (looked up, as
    the server does, after mapping the alias to the root name), [JoinRoom],
    [LeaveRoom], [LeaveAllRooms], [ClearRoom], [BroadcastToRoom],
    [BroadcastToNamespace] and [ForEach] return [false], [RoomLen] returns
    -1 and [Rooms] returns the nil list; the registry, and with it every
    room index, is left as it was, and nothing is emitted or visited. *)
Theorem room_ops_without_handler `{MapRange} `{Constants}
    (s : Server) (namespace room : string) (conn : Conn) :
  nspHandlers s !! canonical_nsp namespace = None →
  Server_JoinRoom s namespace room conn = (false, s)
  ∧ Server_LeaveRoom s namespace room conn = (false, s)
  ∧ Server_LeaveAllRooms s namespace conn = (false, s)
  ∧ Server_ClearRoom s namespace room = (false, s)
  ∧ Server_BroadcastToRoom s namespace room = (false, [], s)
  ∧ Server_BroadcastToNamespace s namespace = (false, [], s)
  ∧ Server_ForEach s namespace room = (false, [], s)
  ∧ Server_RoomLen s namespace room = ((-1)%Z, s)
  ∧ Server_Rooms s namespace = (Some [], s).
Proof.
  intros Hnone.
  unfold Server_JoinRoom, Server_LeaveRoom, Server_LeaveAllRooms, Server_ClearRoom,
    Server_BroadcastToRoom, Server_BroadcastToNamespace, Server_ForEach,
    Server_RoomLen, Server_Rooms, Server_getNamespaceHandler.
  rewrite Hnone. simpl. by split_and!.
Qed.

Lemma room_ops_without_handler_witness :
  nspHandlers empty_server !! @canonical_nsp spec_constants "/admin" = None
  ∧ @Server_JoinRoom spec_constants empty_server "/admin" "r1" connA = (false, empty_server)
  ∧ @Server_RoomLen canonical_range spec_constants empty_server "/admin" "r1"
    = ((-1)%Z, empty_server)
  ∧ @Server_Rooms canonical_range spec_constants empty_server "/admin"
    = (Some [], empty_server).
Proof.
  assert (nspHandlers empty_server !! @canonical_nsp spec_constants "/admin" = None)
    as Hnone by reflexivity.
  destruct (@room_ops_without_handler canonical_range spec_constants
              empty_server "/admin" "r1" connA Hnone)
    as (HJ & _ & _ & _ & _ & _ & _ & HL & HR).
  exact (conj Hnone (conj HJ (conj HL HR))).
Defined.

(* ===================================================================== *)
(** ** Close                                                               *)
(* ===================================================================== *)

Section close_facts.
Context `{MapRange} `{Constants}.

Lemma namespaceConn_LeaveAll_left (nc : namespaceConn) (hs : Handlers) :
  left_all_rooms nc (namespaceConn_LeaveAll nc hs).
Proof.
  intros h room. unfold namespaceConn_LeaveAll.
  destruct (hs !! Namespace (nc_conn nc)) as [h0|] eqn:E.
  - rewrite lookup_insert_eq. intros [= <-]. simpl.
    rewrite roomMap_leaveAll_members. set_solver.
  - by rewrite E.
Qed.

Lemma namespaceConn_LeaveAll_keeps_left (nc nc' : namespaceConn) (hs : Handlers) :
  left_all_rooms nc hs → left_all_rooms nc (namespaceConn_LeaveAll nc' hs).
Proof.
  intros Hleft h room. unfold namespaceConn_LeaveAll.
  destruct (hs !! Namespace (nc_conn nc')) as [h0|] eqn:E; [|apply Hleft].
  destruct (decide (Namespace (nc_conn nc') = Namespace (nc_conn nc))) as [Heq|Hne].
  - rewrite Heq, lookup_insert_eq. intros [= <-]. simpl.
    rewrite roomMap_leaveAll_members. rewrite Heq in E.
    specialize (Hleft h0 room E). set_solver.
  - rewrite lookup_insert_ne by done. apply Hleft.
Qed.

(** What one visit of [Close] leaves untouched, and what it adds. *)
Lemma conn_Close_visit_frame (c : conn) (entry : string * namespaceConn) :
  ∃ added,
    conn_Close_visit c entry =
    add_calls added
      (set_handlers (namespaceConn_LeaveAll entry.2 (handlers c)) c)
    ∧ Forall (λ e, e = CallOnDisconnect (nc_conn entry.2) clientDisconnectMsg DNull)
             added.
Proof.
  unfold conn_Close_visit.
  destruct (handlers _ !! entry.1) as [nh|]; [destruct (onDisconnect nh)|].
  - eexists. split; [done|]. by apply Forall_singleton.
  - exists []. split; [|done]. destruct c. unfold add_calls, set_handlers. simpl.
    by rewrite app_nil_r.
  - exists []. split; [|done]. destruct c. unfold add_calls, set_handlers. simpl.
    by rewrite app_nil_r.
Qed.

Lemma conn_Close_visits (entries : list (string * namespaceConn)) (c : conn) :
  let c' := foldl conn_Close_visit c entries in
  closeOnce c' = closeOnce c ∧ quitChan c' = quitChan c
  ∧ namespaceConns c' = namespaceConns c
  ∧ writeChan c' = writeChan c ∧ errorChan c' = errorChan c
  ∧ (∃ added, calls c' = calls c ++ added ∧ Forall is_disconnect_call added)
  ∧ (∀ nc, left_all_rooms nc (handlers c) → left_all_rooms nc (handlers c'))
  ∧ (∀ entry, entry ∈ entries → left_all_rooms entry.2 (handlers c')).
Proof.
  revert c. induction entries as [|e entries IH]; intros c; simpl.
  - split_and!; try done.
    + exists []. by rewrite app_nil_r.
    + intros entry Hin. by apply elem_of_nil in Hin.
  - destruct (conn_Close_visit_frame c e) as (added & Heq & Hadded).
    destruct (IH (conn_Close_visit c e))
      as (Hco & Hq & Hncs & Hw & Herr & (added' & Hcalls & Hadded') & Hkeep & Hleft).
    rewrite Heq in Hco, Hq, Hncs, Hw, Herr, Hcalls, Hkeep, Hleft.
    rewrite Heq. simpl in *.
    split_and!; try done.
    + exists (added ++ added'). split; [by rewrite Hcalls, app_assoc|].
      apply Forall_app. split; [|done].
      eapply Forall_impl; [exact Hadded|]. intros x ->. by eexists.
    + intros nc Hnc. by apply Hkeep, namespaceConn_LeaveAll_keeps_left.
    + intros entry [->|Hin]%elem_of_cons; [|by apply Hleft].
      apply Hkeep, namespaceConn_LeaveAll_left.
Qed.

Lemma conn_Close_closed (c : conn) :
  closeOnce c = true → conn_Close c = (None, c).
Proof. unfold conn_Close. by intros ->. Qed.

Lemma conn_Close_closeOnce (c : conn) : closeOnce (conn_Close c).2 = true.
Proof.
  unfold conn_Close. destruct (closeOnce c) eqn:E; [done|]. reflexivity.
Qed.
End close_facts.

(** C8: the body of the close sequence runs at most once. A call of
    [Close] on a connection whose latch has not fired runs the body: every
    view leaves all rooms, the only callbacks run are [onDisconnect] with
    reason [clientDisconnectMsg] and nil details, then the session is closed
    and the quit channel is closed. Any further call returns nil and changes
    nothing, so after any number of calls the connection is as after the
    first and the session was closed once. *)
Theorem conn_Close_body_runs_once `{MapRange} `{Constants} (c : conn) (n : nat) :
  let closed := (conn_Close c).2 in
  conn_Close closed = (None, closed)
  ∧ conn_Close_times (S n) c = closed
  ∧ (closeOnce c = false →
       quitChan closed = true
       ∧ (∃ visits, calls closed = calls c ++ visits ++ [CallSessionClose]
                    ∧ Forall is_disconnect_call visits)
       ∧ (∀ ns nc, namespaceConns c !! ns = Some nc →
                   left_all_rooms nc (handlers closed)))
  ∧ (closeOnce c = true → closed = c).
Proof.
  intros closed. subst closed.
  assert (∀ c0, conn_Close (conn_Close c0).2 = (None, (conn_Close c0).2)) as Hagain.
  { intros c0. apply conn_Close_closed, conn_Close_closeOnce. }
  split_and!.
  - apply Hagain.
  - induction n as [|n IH]; [done|].
    change (conn_Close_times (S (S n)) c)
      with (conn_Close (conn_Close_times (S n) c)).2.
    by rewrite IH, Hagain.
  - intros Hopen. unfold conn_Close. rewrite Hopen. simpl.
    destruct (conn_Close_visits (map_range (namespaceConns c)) c)
      as (_ & _ & _ & _ & _ & (added & Hcalls & Hadded) & _ & Hleft).
    split_and!; [done| |].
    + exists added. split; [|done]. by rewrite Hcalls, app_assoc.
    + intros ns nc Hnc. apply (Hleft (ns, nc)).
      rewrite map_range_perm. by apply elem_of_map_to_list.
  - intros Hclosed. by rewrite conn_Close_closed.
Qed.

(* ===================================================================== *)
(** ** Acknowledgements                                                    *)
(* ===================================================================== *)

Section ack_facts.
Context `{Constants}.

Lemma last_snoc_func (v : list EmitArg) (fh : funcHandler) :
  last (v ++ [ArgFunc fh]) = Some (ArgFunc fh).
Proof. apply last_snoc. Qed.

(** [Emit] with a trailing function, none of the other arguments nil. *)
Lemma namespaceConn_Emit_callback (nc : namespaceConn) (eventName : string)
    (v : list EmitArg) (fh : funcHandler) (data : list Data) :
  mapM EmitArg_interface v = Some data →
  namespaceConn_Emit nc eventName (v ++ [ArgFunc fh]) =
  EmitWrite
    {| nc_conn := nc_conn nc; pkgID := uint64_add (pkgID nc) 1;
       ack := <[uint64_add (pkgID nc) 1 := fh]> (ack nc) |}
    {| hType := Event; hNamespace := hNamespace (Emit_header nc);
       hID := uint64_add (pkgID nc) 1; hNeedAck := true |}
    (DString eventName :: data).
Proof.
  intros Hdata. unfold namespaceConn_Emit. rewrite last_snoc_func.
  rewrite removelast_last. unfold Emit_finish. by rewrite Hdata.
Qed.

Lemma uint64_add_small (a : Z) :
  (0 ≤ a < uint64_mod - 1)%Z → uint64_add a 1 = (a + 1)%Z.
Proof.
  intros Ha. unfold uint64_add. apply Z.mod_small. unfold uint64_mod in *. lia.
Qed.

(** A pending id is never ahead of the counter, so the next id is free. *)
Lemma next_id_not_pending (nc : namespaceConn) :
  ack_ids_allocated nc → ack nc !! (pkgID nc + 1)%Z = None.
Proof.
  intros Hwf. destruct (ack nc !! (pkgID nc + 1)%Z) as [fh|] eqn:E; [|done].
  assert (1 ≤ pkgID nc + 1 ≤ pkgID nc)%Z by (apply Hwf; by eexists). lia.
Qed.

Lemma ack_ids_allocated_new (id namespace : string) :
  ack_ids_allocated (newNamespaceConn id namespace).
Proof. intros i [fh Hfh]. simpl in Hfh. by rewrite lookup_empty in Hfh. Qed.

Lemma ack_ids_allocated_store (nc : namespaceConn) (fh : funcHandler) :
  (0 ≤ pkgID nc)%Z → ack_ids_allocated nc →
  ack_ids_allocated {| nc_conn := nc_conn nc; pkgID := (pkgID nc + 1)%Z;
                       ack := <[(pkgID nc + 1)%Z := fh]> (ack nc) |}.
Proof.
  intros Hpos Hwf id. simpl. destruct (decide (id = (pkgID nc + 1)%Z)) as [->|Hne].
  - intros _. lia.
  - rewrite lookup_insert_ne by done. intros Hid. apply Hwf in Hid. lia.
Qed.

Lemma ack_ids_allocated_delete (nc : namespaceConn) (id : Z) :
  ack_ids_allocated nc →
  ack_ids_allocated (namespaceConn_ackLoadAndDelete id nc).2.
Proof.
  intros Hwf i. simpl. destruct (decide (i = id)) as [->|Hne].
  - rewrite lookup_delete_eq. by intros [? ?].
  - rewrite lookup_delete_ne by done. apply Hwf.
Qed.

(** An ACK whose id is not pending changes nothing. *)
Lemma conn_ackPacketHandler_not_pending (c : conn) (header : Header)
    (decode : list Ty → error + list Data) (nc : namespaceConn) :
  namespaceConns c !! hNamespace header = Some nc →
  ack nc !! hID header = None →
  conn_ackPacketHandler c header decode = (None, c).
Proof.
  intros Hnc Hid. unfold conn_ackPacketHandler. rewrite Hnc. simpl. by rewrite Hid.
Qed.

(** Whatever the payload, a pending entry does not survive its ACK. *)
Lemma conn_ackPacketHandler_consumes (c : conn) (header : Header)
    (decode : list Ty → error + list Data) (nc : namespaceConn) :
  namespaceConns c !! hNamespace header = Some nc →
  ∃ nc', namespaceConns (conn_ackPacketHandler c header decode).2
           !! hNamespace header = Some nc'
         ∧ ack nc' !! hID header = None.
Proof.
  intros Hnc. unfold conn_ackPacketHandler. rewrite Hnc. simpl.
  destruct (ack nc !! hID header) as [fh|] eqn:Hid.
  - exists (namespaceConn_ackLoadAndDelete (hID header) nc).2.
    split; [|simpl; apply lookup_delete_eq].
    destruct (decode (argTypes fh)) as [err|args];
      [|destruct (funcHandler_Call fh (VData <$> args)).2];
      unfold conn_onError, send_errorChan, add_calls, set_namespaceConns; simpl;
      destruct (quitChan c); simpl; apply lookup_insert_eq.
  - by exists nc.
Qed.
End ack_facts.

(** C2 (amended): on a view whose pending ids were all allocated by its
    counter and whose counter is below the top of [uint64], an emit with a
    trailing callback registers the callback under the next id, which was
    not pending. The first inbound ACK with that id whose arguments decode
    for the callback's parameter types removes the entry and invokes the
    callback exactly once; any later ACK with the same id changes nothing
    and invokes nothing. *)
Theorem ack_callback_invoked_once `{Constants} (c : conn) (ns eventName : string)
    (nc : namespaceConn) (v : list EmitArg) (data : list Data) (fh : funcHandler) :
  namespaceConns c !! ns = Some nc →
  ack_ids_allocated nc →
  (0 ≤ pkgID nc < uint64_mod - 1)%Z →
  mapM EmitArg_interface v = Some data →
  let id := (pkgID nc + 1)%Z in
  ack nc !! id = None
  ∧ ∃ c1 nc1,
      conn_Emit c ns eventName (v ++ [ArgFunc fh]) = Some c1
      ∧ namespaceConns c1 !! ns = Some nc1
      ∧ ack nc1 = <[id := fh]> (ack nc) ∧ pkgID nc1 = id ∧ ack_ids_allocated nc1
      ∧ calls c1 = calls c
      ∧ ∀ header decode args,
          hNamespace header = ns → hID header = id →
          decode (argTypes fh) = inr args →
          ∃ c2 nc2,
            conn_ackPacketHandler c1 header decode = (None, c2)
            ∧ calls c2 = calls c ++ [CallAck (Namespace (nc_conn nc)) id (VData <$> args)]
            ∧ namespaceConns c2 !! ns = Some nc2 ∧ ack nc2 !! id = None
            ∧ ∀ header' decode',
                hNamespace header' = ns → hID header' = id →
                conn_ackPacketHandler c2 header' decode' = (None, c2).
Proof.
  intros Hnc Hwf Hrange Hdata id.
  split; [by apply next_id_not_pending|].
  unfold conn_Emit. rewrite Hnc.
  rewrite (namespaceConn_Emit_callback nc eventName v fh data Hdata).
  rewrite (uint64_add_small (pkgID nc) Hrange). fold id.
  eexists _, _. split; [reflexivity|].
  assert (∀ hdr args0 (c0 : conn),
            namespaceConns (conn_write hdr args0 c0) = namespaceConns c0
            ∧ calls (conn_write hdr args0 c0) = calls c0) as Hwrite.
  { intros hdr args0 c0. unfold conn_write. by destruct (quitChan c0). }
  split_and!.
  - rewrite (proj1 (Hwrite _ _ _)). simpl. apply lookup_insert_eq.
  - done.
  - done.
  - apply ack_ids_allocated_store; [lia|done].
  - by rewrite (proj2 (Hwrite _ _ _)).
  - intros header decode args Hns Hid Hdec.
    unfold conn_ackPacketHandler at 1.
    rewrite Hns, Hid, (proj1 (Hwrite _ _ _)). simpl.
    rewrite !lookup_insert_eq. simpl. rewrite lookup_insert_eq, Hdec.
    set (c2 := add_calls _ _).
    assert (calls c2 = calls c ++ [CallAck (Namespace (nc_conn nc)) id (VData <$> args)])
      as Hcalls.
    { subst c2. simpl. by rewrite (proj2 (Hwrite _ _ _)). }
    assert (∃ nc2, namespaceConns c2 !! ns = Some nc2 ∧ ack nc2 !! id = None)
      as (nc2 & Hnc2 & Hgone).
    { eexists. subst c2. simpl. rewrite lookup_insert_eq. split; [done|].
      simpl. apply lookup_delete_eq. }
    destruct (funcHandler_Call fh (VData <$> args)).2 as [err|].
    + exists (conn_onError (Namespace (nc_conn nc)) err c2), nc2.
      assert (namespaceConns (conn_onError (Namespace (nc_conn nc)) err c2)
              = namespaceConns c2
              ∧ calls (conn_onError (Namespace (nc_conn nc)) err c2) = calls c2)
        as [Hsame Hsamec].
      { unfold conn_onError. by destruct (quitChan c2). }
      split_and!; [done|by rewrite Hsamec|by rewrite Hsame|done|].
      intros header' decode' Hns' Hid'.
      apply (conn_ackPacketHandler_not_pending _ _ _ nc2).
      * by rewrite Hns', Hsame.
      * by rewrite Hid'.
    + exists c2, nc2. split_and!; [done..|].
      intros header' decode' Hns' Hid'.
      apply (conn_ackPacketHandler_not_pending _ _ _ nc2).
      * by rewrite Hns'.
      * by rewrite Hid'.
Qed.

Lemma ack_callback_invoked_once_witness :
  namespaceConns chat_conn !! "/chat" = Some (newNamespaceConn "A" "/chat")
  ∧ (0 ≤ pkgID (newNamespaceConn "A" "/chat") < uint64_mod - 1)%Z
  ∧ mapM EmitArg_interface [] = Some []
  ∧ ack (newNamespaceConn "A" "/chat") !! 1%Z = None.
Proof.
  assert (namespaceConns chat_conn !! "/chat" = Some (newNamespaceConn "A" "/chat"))
    as Hview by (vm_compute; reflexivity).
  assert (0 ≤ pkgID (newNamespaceConn "A" "/chat") < uint64_mod - 1)%Z
    as Hrange by (vm_compute; split; [discriminate|reflexivity]).
  assert (ack_ids_allocated (newNamespaceConn "A" "/chat")) as Hwf.
  { intros id [fh Hfh]. vm_compute in Hfh. discriminate Hfh. }
  split; [exact Hview|]. split; [exact Hrange|]. split; [reflexivity|].
  exact (proj1 (@ack_callback_invoked_once spec_constants chat_conn "/chat" "ping"
                  (newNamespaceConn "A" "/chat") [] [] cb_pong
                  Hview Hwf Hrange eq_refl)).
Defined.

(** C2 as stated fails: with the callback [cb_pong] pending under id 1,
    the first inbound ACK with id 1 has arguments that do not decode; the
    entry is consumed, the error goes to the error queue, and the callback
    is not invoked, neither then nor by the well-formed ACK that follows. *)
Lemma ack_undecodable_not_invoked :
  (∃ nc, namespaceConns chat_conn_pinged !! "/chat" = Some nc
         ∧ (map_to_list (ack nc)).*1 = [1%Z])
  ∧ calls chat_conn_pinged = []
  ∧ (let served := @conn_serveRead canonical_range spec_constants
                     [Packet ack1_undecodable; Packet ack1_pong] chat_conn_pinged in
     served.2 = []
     ∧ calls served.1 = []
     ∧ errorChan served.1 =
         [{| em_namespace := "/chat"; em_err := errorString "invalid character" |}]
     ∧ ∃ nc, namespaceConns served.1 !! "/chat" = Some nc ∧ ack nc = ∅).
Proof.
  split_and!.
  - eexists. split; vm_compute; reflexivity.
  - vm_compute; reflexivity.
  - vm_compute. split_and!; try reflexivity. eexists. split; reflexivity.
Qed.

(* ===================================================================== *)
(** ** The reader                                                          *)
(* ===================================================================== *)

Section reader_facts.
Context `{MapRange} `{Constants}.

Lemma conn_dispatchPacket_header (c : conn) (p : InPacket) :
  conn_dispatchPacket c p =
  match hType (inHeader p) with
  | Ack => conn_ackPacketHandler c (served_header p) (inDecodeArgs p)
  | Connect => conn_connectPacketHandler c (served_header p) (inDecodeArgs p)
  | Disconnect => conn_disconnectPacketHandler c (served_header p) (inDecodeArgs p)
  | Event => conn_eventPacketHandler c (inEvent p) (served_header p) (inDecodeArgs p)
  | Error => (None, c)
  end.
Proof.
  unfold conn_dispatchPacket, served_header, canonical_nsp.
  destruct (decide (hNamespace (inHeader p) = aliasRootNamespace)); simpl; [done|].
  destruct (inHeader p); simpl; done.
Qed.

Lemma add_calls_nil (c : conn) : add_calls [] c = c.
Proof. destruct c. unfold add_calls. simpl. by rewrite app_nil_r. Qed.

Lemma conn_onError_open (ns : string) (err : error) (c : conn) :
  quitChan c = false →
  conn_onError ns err c = send_errorChan {| em_namespace := ns; em_err := err |} c.
Proof. unfold conn_onError. by intros ->. Qed.

Lemma conn_serveRead_step (p : InPacket) (rest : list Frame) (c : conn) :
  quitChan c = false →
  conn_serveRead (Packet p :: rest) c =
  match (conn_dispatchPacket c p).1 with
  | Some err => (conn_onError rootNamespace err (conn_dispatchPacket c p).2, rest)
  | None => conn_serveRead rest (conn_dispatchPacket c p).2
  end.
Proof. intros Hq. simpl. by rewrite Hq. Qed.

Lemma funcHandler_Call_panicked (fh : funcHandler) (args : list Value) (r : PanicValue) :
  f fh args = Panicked r → funcHandler_Call fh args = ([], Some (recovered_error r)).
Proof. unfold funcHandler_Call. intros ->. by destruct r. Qed.
End reader_facts.

(** C5 (amended): a panic raised by a registered event function while an
    inbound EVENT packet is dispatched to it is trapped and becomes an
    error queued for the packet's namespace, which the error dispatcher
    hands to that namespace's [onError] when one is registered. The close
    sequence is not run and nothing is written back; the reader then queues
    [errHandleDispatch] for the root namespace and returns, leaving the
    frames that follow unread. *)
Theorem event_panic_reported_then_reader_returns `{MapRange} `{Constants}
    (c : conn) (p : InPacket) (rest : list Frame) (nc : namespaceConn)
    (handler : Handler) (fh : funcHandler) (args : list Data) (r : PanicValue) :
  quitChan c = false →
  hType (inHeader p) = Event →
  namespaceConns c !! canonical_nsp (hNamespace (inHeader p)) = Some nc →
  handlers c !! canonical_nsp (hNamespace (inHeader p)) = Some handler →
  events handler !! inEvent p = Some fh →
  inDecodeArgs p (argTypes fh) = inr args →
  f fh (VConn (nc_conn nc) :: (VData <$> args)) = Panicked r →
  let ns := canonical_nsp (hNamespace (inHeader p)) in
  let reported := {| em_namespace := ns; em_err := recovered_error r |} in
  let invoked := CallEvent ns (inEvent p) (VConn (nc_conn nc) :: (VData <$> args)) in
  let c' := send_errorChan {| em_namespace := rootNamespace; em_err := errHandleDispatch |}
              (send_errorChan reported (add_calls [invoked] c)) in
  conn_serveRead (Packet p :: rest) c = (c', rest)
  ∧ closeOnce c' = closeOnce c ∧ quitChan c' = false
  ∧ writeChan c' = writeChan c
  ∧ namespaceConns c' = namespaceConns c
  ∧ (onError handler = true →
       conn_serveError_handle reported c'
       = add_calls [CallOnError (nc_conn nc) (recovered_error r)] c').
Proof.
  intros Hq Hty Hnc Hh Hev Hdec Hpanic ns reported invoked c'.
  split_and!; try done.
  - rewrite conn_serveRead_step by done. rewrite conn_dispatchPacket_header, Hty.
    unfold conn_eventPacketHandler.
    change (hNamespace (served_header p)) with ns. subst ns. rewrite Hnc, Hh.
    unfold Handler_getEventTypes, Handler_dispatchEvent. rewrite Hev, Hdec. simpl.
    rewrite (funcHandler_Call_panicked _ _ _ Hpanic). simpl.
    rewrite (conn_onError_open _ _ (add_calls _ c)) by exact Hq.
    by rewrite conn_onError_open by exact Hq.
  - intros HonError. unfold conn_serveError_handle.
    change (em_namespace reported) with ns.
    change (handlers c') with (handlers c).
    change (namespaceConns c') with (namespaceConns c).
    subst ns. by rewrite Hh, HonError, Hnc.
Qed.

Lemma event_panic_reported_then_reader_returns_witness :
  quitChan chat_conn = false
  ∧ events chat_handler !! "boom" = Some fn_boom
  ∧ (@conn_serveRead canonical_range spec_constants
       [Packet event_boom; Packet event_hello] chat_conn).2 = [Packet event_hello].
Proof.
  assert (quitChan chat_conn = false) as Hq by (vm_compute; reflexivity).
  assert (events chat_handler !! "boom" = Some fn_boom) as Hev
    by (vm_compute; reflexivity).
  assert (∃ h, handlers chat_conn !! "/chat" = Some h ∧ events h = events chat_handler)
    as (h & Hh & Hevs).
  { eexists. split; vm_compute; reflexivity. }
  rewrite <- Hevs in Hev.
  split; [exact Hq|]. split; [by rewrite <- Hevs|].
  pose proof (@event_panic_reported_then_reader_returns canonical_range spec_constants
                chat_conn event_boom [Packet event_hello]
                (newNamespaceConn "A" "/chat") h fn_boom [] (PanicOther "boom")
                Hq eq_refl ltac:(vm_compute; reflexivity) Hh Hev eq_refl eq_refl)
    as [Hread _].
  cbv zeta in Hread. by rewrite Hread.
Defined.

(** C5 as stated fails: a panicking event function is trapped, but the
    connection does not go on to the next packet. After the panic of
    ["boom"], the reader has returned; the ["hello"] packet that follows is
    left unread and its function is never called. *)
Lemma event_panic_stops_reader :
  let served := @conn_serveRead canonical_range spec_constants
                  [Packet event_boom; Packet event_hello] chat_conn in
  served.2 = [Packet event_hello]
  ∧ calls served.1 =
      [CallEvent "/chat" "boom" [VConn {| ID := "A"; Namespace := "/chat" |}]]
  ∧ errorChan served.1 =
      [{| em_namespace := "/chat"; em_err := errorString "event call error: boom" |};
       {| em_namespace := "/"; em_err := errHandleDispatch |}]
  ∧ closeOnce served.1 = false
  ∧ calls (@conn_serveRead canonical_range spec_constants
             [Packet event_hello] chat_conn).1 =
      [CallEvent "/chat" "hello"
         [VConn {| ID := "A"; Namespace := "/chat" |}; VData (DString "hi")]].
Proof. vm_compute. by split_and!. Qed.

(** C6 (amended): for an inbound CONNECT packet whose auth payload decodes
    and whose namespace has no registered handler, the reader queues the
    error [errFailedConnectNamespace] ("failed to connect to the
    namespace") on the onError path for the packet's namespace and again for
    the root namespace, and returns, leaving the frames that follow unread.
    No view is created, nothing is written and no user code runs; the error
    dispatcher drops the message of the unregistered namespace; the close
    sequence is not run by this path. *)
Theorem connect_without_handler_reported `{MapRange} `{Constants}
    (c : conn) (p : InPacket) (rest : list Frame) (args : list Data) :
  quitChan c = false →
  hType (inHeader p) = Connect →
  handlers c !! canonical_nsp (hNamespace (inHeader p)) = None →
  inDecodeArgs p defaultHeaderType = inr args →
  let ns := canonical_nsp (hNamespace (inHeader p)) in
  let reported := {| em_namespace := ns; em_err := errFailedConnectNamespace |} in
  let c' := send_errorChan
              {| em_namespace := rootNamespace; em_err := errFailedConnectNamespace |}
              (send_errorChan reported c) in
  conn_serveRead (Packet p :: rest) c = (c', rest)
  ∧ error_text errFailedConnectNamespace = Some "failed to connect to the namespace"
  ∧ namespaceConns c' = namespaceConns c
  ∧ handlers c' = handlers c
  ∧ calls c' = calls c ∧ writeChan c' = writeChan c
  ∧ closeOnce c' = closeOnce c ∧ quitChan c' = false
  ∧ conn_serveError_handle reported c' = c'.
Proof.
  intros Hq Hty Hh Hdec ns reported c'.
  split_and!; try done.
  - rewrite conn_serveRead_step by done. rewrite conn_dispatchPacket_header, Hty.
    unfold conn_connectPacketHandler. rewrite Hdec.
    change (hNamespace (served_header p)) with ns. subst ns. rewrite Hh. simpl.
    rewrite (conn_onError_open _ _ c) by exact Hq.
    by rewrite conn_onError_open by exact Hq.
  - unfold conn_serveError_handle.
    change (em_namespace reported) with ns.
    change (handlers c') with (handlers c). subst ns. by rewrite Hh.
Qed.

Lemma connect_without_handler_reported_witness :
  quitChan chat_conn = false
  ∧ handlers chat_conn !! "/admin" = None
  ∧ errorChan (@conn_serveRead canonical_range spec_constants
                 [Packet connect_admin] chat_conn).1 =
      [{| em_namespace := "/admin"; em_err := errFailedConnectNamespace |};
       {| em_namespace := "/"; em_err := errFailedConnectNamespace |}].
Proof.
  assert (quitChan chat_conn = false) as Hq by (vm_compute; reflexivity).
  assert (handlers chat_conn !! "/admin" = None) as Hh by (vm_compute; reflexivity).
  split; [exact Hq|]. split; [exact Hh|].
  pose proof (@connect_without_handler_reported canonical_range spec_constants
                chat_conn connect_admin [] [DMap []] Hq eq_refl Hh eq_refl)
    as [Hread _].
  cbv zeta in Hread. rewrite Hread. vm_compute. reflexivity.
Defined.

(** C6 as stated fails: a CONNECT for the unregistered ["/admin"] whose
    auth payload does not decode is answered with the decoder's error and
    [errDecodeArgs]; [errFailedConnectNamespace] is never reported. In this
    case, and in the case of a payload that decodes, the reader returns
    without the close sequence being run: the latch has not fired and the
    quit channel is open. *)
Lemma connect_undecodable_not_reported_as_failed_connect :
  handlers chat_conn !! "/admin" = None
  ∧ (let served := @conn_serveRead canonical_range spec_constants
                     [Packet connect_admin_undecodable] chat_conn in
     errorChan served.1 =
       [{| em_namespace := "/admin"; em_err := errorString "invalid character" |};
        {| em_namespace := "/"; em_err := errDecodeArgs |}]
     ∧ closeOnce served.1 = false ∧ quitChan served.1 = false)
  ∧ (let served := @conn_serveRead canonical_range spec_constants
                     [Packet connect_admin] chat_conn in
     closeOnce served.1 = false ∧ quitChan served.1 = false).
Proof. vm_compute. by split_and!. Qed.

(** C10 (amended): for an inbound EVENT packet whose namespace has a
    registered handler and a view, whose event name has no registered
    function and whose arguments decode (against no parameter types),
    dispatch returns no values and no error and runs no user code; the
    packet leaves the connection unchanged (no ACK is written, no error is
    queued) and the reader goes on with the next frame. *)
Theorem event_without_function_skipped `{MapRange} `{Constants}
    (c : conn) (p : InPacket) (rest : list Frame) (nc : namespaceConn)
    (handler : Handler) (args : list Data) :
  quitChan c = false →
  hType (inHeader p) = Event →
  namespaceConns c !! canonical_nsp (hNamespace (inHeader p)) = Some nc →
  handlers c !! canonical_nsp (hNamespace (inHeader p)) = Some handler →
  events handler !! inEvent p = None →
  inDecodeArgs p [] = inr args →
  Handler_dispatchEvent handler (canonical_nsp (hNamespace (inHeader p)))
    (nc_conn nc) (inEvent p) args = ([], None, [])
  ∧ conn_dispatchPacket c p = (None, c)
  ∧ conn_serveRead (Packet p :: rest) c = conn_serveRead rest c.
Proof.
  intros Hq Hty Hnc Hh Hev Hdec.
  assert (Handler_dispatchEvent handler (canonical_nsp (hNamespace (inHeader p)))
            (nc_conn nc) (inEvent p) args = ([], None, [])) as Hdisp.
  { unfold Handler_dispatchEvent. by rewrite Hev. }
  assert (conn_dispatchPacket c p = (None, c)) as Hpkt.
  { rewrite conn_dispatchPacket_header, Hty. unfold conn_eventPacketHandler.
    change (hNamespace (served_header p))
      with (canonical_nsp (hNamespace (inHeader p))).
    rewrite Hnc, Hh. unfold Handler_getEventTypes. rewrite Hev, Hdec, Hdisp.
    simpl. by rewrite add_calls_nil. }
  split_and!; [done..|].
  rewrite conn_serveRead_step by done. by rewrite Hpkt.
Qed.

Lemma event_without_function_skipped_witness :
  quitChan chat_conn = false
  ∧ (∃ h, handlers chat_conn !! "/chat" = Some h ∧ events h !! "nope" = None)
  ∧ @conn_serveRead canonical_range spec_constants
      [Packet event_unknown; Packet event_hello] chat_conn
    = @conn_serveRead canonical_range spec_constants [Packet event_hello] chat_conn.
Proof.
  assert (quitChan chat_conn = false) as Hq by (vm_compute; reflexivity).
  assert (∃ h, handlers chat_conn !! "/chat" = Some h ∧ events h !! "nope" = None)
    as Hhandler.
  { eexists. split; vm_compute; reflexivity. }
  split; [exact Hq|]. split; [exact Hhandler|].
  destruct Hhandler as (h & Hh & Hev).
  exact (proj2 (proj2
    (@event_without_function_skipped canonical_range spec_constants
       chat_conn event_unknown [Packet event_hello]
       (newNamespaceConn "A" "/chat") h [] Hq eq_refl
       ltac:(vm_compute; reflexivity) Hh Hev eq_refl))).
Defined.

(** C10 as stated fails: an EVENT packet for a namespace with handler and
    view, naming an event without function, whose arguments do not decode:
    the decoder's error is queued for the namespace, [errDecodeArgs] for the
    root namespace, and the reader returns with the next frame unread. *)
Lemma event_without_function_undecodable_stops_reader :
  (∃ h, handlers chat_conn !! "/chat" = Some h ∧ events h !! "nope" = None)
  ∧ is_Some (namespaceConns chat_conn !! "/chat")
  ∧ (let served := @conn_serveRead canonical_range spec_constants
                     [Packet event_unknown_undecodable; Packet event_hello] chat_conn in
     served.2 = [Packet event_hello]
     ∧ errorChan served.1 =
         [{| em_namespace := "/chat"; em_err := errorString "invalid character" |};
          {| em_namespace := "/"; em_err := errDecodeArgs |}]
     ∧ calls served.1 = []).
Proof.
  split_and!.
  - eexists. split; vm_compute; reflexivity.
  - eexists. vm_compute. reflexivity.
  - vm_compute. by split_and!.
Qed.

(* ===================================================================== *)
(** ** Cluster requests                                                    *)
(* ===================================================================== *)

Section remote_facts.
Context `{MapRange}.

(** With a subscriber count of 0 and at least one response counted or none
    yet, [msgCount] is past [numSub] after every further response: a
    response that carries a room list never signals completion. *)
Lemma remote_await_allRooms_never_done (RequestID : string)
    (responses : list Response) (requests : gmap string Request)
    (r : allRoomRequest) :
  requests !! RequestID = Some (ReqAllRoom r) →
  ar_numSub r = 0%Z → (0 ≤ ar_msgCount r)%Z → ar_done r = 0 →
  Forall (λ res, resRequestID res = RequestID
                 ∧ resRequestType res = allRoomReqType
                 ∧ is_Some (resRooms res)) responses →
  remote_await_allRooms RequestID responses requests = None.
Proof.
  intros Hreq Hsub Hcount Hdone Hall. revert requests r Hreq Hsub Hcount Hdone.
  induction Hall as [|res responses (Hid & Hty & [rooms Hrooms]) _ IH];
    intros requests r Hreq Hsub Hcount Hdone; simpl; rewrite Hreq.
  - rewrite decide_False by lia. done.
  - rewrite decide_False by lia.
    unfold remote_onResponse. rewrite Hid, Hreq, Hty, Hrooms.
    rewrite decide_False by done. rewrite decide_True by done.
    eapply IH; [apply lookup_insert_eq|simpl..].
    + done.
    + lia.
    + rewrite decide_False by lia. done.
Qed.

(** [allRooms] after a failed subscriber count and a successful publish:
    however many peers answer with their rooms, the call does not return. *)
Lemma remote_allRooms_numSub_error_blocks (bus : Bus)
    (requests : gmap string Request) (RequestID : string) (err : error) :
  bus_numSub bus = inl err → bus_publish bus = None →
  Forall (λ res, resRequestID res = RequestID
                 ∧ resRequestType res = allRoomReqType
                 ∧ is_Some (resRooms res)) (bus_responses bus) →
  remote_allRooms bus requests RequestID = None.
Proof.
  intros Hsub Hpub Hall. unfold remote_allRooms, remote_getNumSub.
  rewrite Hsub, Hpub.
  eapply remote_await_allRooms_never_done; [apply lookup_insert_eq|done..].
Qed.
End remote_facts.

(** C7 (amended): when publishing the request fails, [lenRoom] returns the
    sentinel -1 and [allRooms] returns the empty list, both by an ordinary
    return. [lenRoom] also returns -1 when marshalling the request or
    reading the subscriber count fails. There is no timeout: a request that
    was published returns only once its completion is signalled. *)
Theorem remote_publish_error_sentinels `{MapRange} (bus : Bus)
    (requests : gmap string Request) (RequestID room : string) :
  is_Some (bus_publish bus) →
  remote_lenRoom bus requests RequestID room = Some (-1)%Z
  ∧ remote_allRooms bus requests RequestID = Some []
  ∧ ∀ bus', (is_Some (bus_marshal bus') ∨ (∃ err, bus_numSub bus' = inl err)) →
            remote_lenRoom bus' requests RequestID room = Some (-1)%Z.
Proof.
  intros [err Hpub]. split_and!.
  - unfold remote_lenRoom. rewrite Hpub.
    destruct (bus_marshal bus); [done|]. by destruct (remote_getNumSub bus).
  - unfold remote_allRooms. by rewrite Hpub.
  - intros bus' [[e He]|[e He]]; unfold remote_lenRoom, remote_getNumSub.
    + by rewrite He.
    + rewrite He. by destruct (bus_marshal bus').
Qed.

Lemma remote_publish_error_sentinels_witness :
  is_Some (bus_publish bus_publish_fails)
  ∧ @remote_lenRoom bus_publish_fails ∅ "req-1" "r1" = Some (-1)%Z
  ∧ @remote_allRooms canonical_range bus_publish_fails ∅ "req-1" = Some [].
Proof.
  assert (is_Some (bus_publish bus_publish_fails)) as Hpub by (by eexists).
  destruct (@remote_publish_error_sentinels canonical_range bus_publish_fails
              ∅ "req-1" "r1" Hpub) as (Hlen & Hall & _).
  exact (conj Hpub (conj Hlen Hall)).
Defined.

(** C7 as stated fails. With one subscriber counted, the request published
    and no response arriving, neither [lenRoom] nor [allRooms] returns: no
    timeout ends the wait. When reading the subscriber count fails but the
    publish succeeds, [allRooms] discards the error and waits for a
    completion that a well-formed response cannot signal, instead of
    returning the empty list; [lenRoom] returns -1 there. *)
Lemma remote_request_without_response_blocks :
  @remote_lenRoom bus_silent ∅ "req-1" "r1" = None
  ∧ @remote_allRooms canonical_range bus_silent ∅ "req-1" = None
  ∧ @remote_allRooms canonical_range bus_numSub_fails ∅ "req-1" = None
  ∧ @remote_lenRoom bus_numSub_fails ∅ "req-1" "r1" = Some (-1)%Z.
Proof. vm_compute. by split_and!. Qed.

(* ===================================================================== *)
(** * Further properties of the room index and the local broadcaster       *)
(* ===================================================================== *)

Section room_index_more.
Context `{MapRange}.

Lemma elem_of_map_range {V : Type} (m : gmap string V) (k : string) (v : V) :
  (k, v) ∈ map_range m ↔ m !! k = Some v.
Proof. rewrite map_range_perm. apply elem_of_map_to_list. Qed.

Lemma connMap_forEach_loop_foldl {A : Type} (cm : connMap)
    (g : string → Conn → A → A) (ids : list string) (acc : A) :
  connMap_forEach_loop cm (λ id c a, (g id c a, true)) ids acc =
  foldl (λ a id, match cm !! id with Some c => g id c a | None => a end) acc ids.
Proof.
  revert acc. induction ids as [|id ids IH]; intros acc; simpl; [done|].
  destruct (cm !! id); simpl; apply IH.
Qed.

Lemma collect_loop {V : Type} (m : gmap string V) (ids : list string) (acc : list V) :
  foldl (λ a id, match m !! id with Some c => a ++ [c] | None => a end) acc ids
  = acc ++ omap (λ id, m !! id) ids.
Proof.
  revert acc. induction ids as [|id ids IH]; intros acc; csimpl.
  - by rewrite app_nil_r.
  - rewrite IH. destruct (m !! id); csimpl; [by rewrite <- app_assoc|done].
Qed.

Lemma omap_lookup_replicate {V : Type} (m : gmap string V) (n : nat) (k : string) :
  omap (λ id, m !! id) (replicate n k) =
  match m !! k with Some v => replicate n v | None => [] end.
Proof.
  induction n as [|n IH]; csimpl; [by destruct (m !! k)|].
  rewrite IH. by destruct (m !! k).
Qed.

Lemma omap_lookup_entries {V : Type} (m : gmap string V) (l : list (string * V)) :
  Forall (λ kv, m !! kv.1 = Some kv.2) l → omap (λ id, m !! id) l.*1 = l.*2.
Proof.
  induction 1 as [|kv l Hkv _ IH]; [done|]. csimpl. by rewrite Hkv, IH.
Qed.

Lemma omap_lookup_keys {V : Type} (m : gmap string V) :
  omap (λ id, m !! id) (map_range m).*1 = (map_range m).*2.
Proof.
  apply omap_lookup_entries, Forall_forall. intros [k v] Hin.
  by apply elem_of_map_range.
Qed.

(** The values a non-breaking [forEach] visits: the values, preceded by
    [len] copies of the value stored under the empty key, if any. *)
Lemma omap_lookup_getKeysOfMap {V : Type} (m : gmap string V) :
  omap (λ id, m !! id) (getKeysOfMap m) =
  match m !! EmptyString with Some v => replicate (size m) v | None => [] end
  ++ (map_range m).*2.
Proof.
  unfold getKeysOfMap. by rewrite omap_app, omap_lookup_replicate, omap_lookup_keys.
Qed.

Lemma connMap_collect (cm : connMap) (acc : list Conn) :
  connMap_forEach cm (λ _ conn a, (a ++ [conn], true)) acc =
  acc ++ omap (λ id, cm !! id) (getKeysOfMap cm).
Proof.
  unfold connMap_forEach, connMap_listConnID.
  rewrite (connMap_forEach_loop_foldl cm (λ _ conn a, a ++ [conn])).
  apply collect_loop.
Qed.

Lemma map_range_values_perm {V : Type} (m : gmap string V) :
  (map_range m).*2 ≡ₚ (map_to_list m).*2.
Proof. by rewrite map_range_perm. Qed.

Lemma foldl_insert_list_to_map {V : Type} (l : list (string * V)) :
  foldl (λ res kv, <[kv.1 := kv.2]> res) (∅ : gmap string V) l
  = list_to_map (reverse l).
Proof.
  induction l as [|kv l IH] using rev_ind; [done|].
  rewrite foldl_app, reverse_app. simpl. by rewrite IH.
Qed.
End room_index_more.

Section local_broadcaster_more.
Context `{MapRange}.

Lemma rooms_bind_loop {B : Type} (rm : roomMap) (T : connMap → list B)
    (ids : list string) (acc : list B) :
  foldl (λ a room, match rm !! room with Some cm => a ++ T cm | None => a end)
        acc ids
  = acc ++ (omap (λ room, rm !! room) ids ≫= T).
Proof.
  revert acc. induction ids as [|id ids IH]; intros acc; csimpl.
  - by rewrite app_nil_r.
  - rewrite IH. destruct (rm !! id); csimpl; [by rewrite <- app_assoc|done].
Qed.

Lemma foldl_pointwise {A B : Type} (f g : A → B → A) (l : list B) (a : A) :
  (∀ a' x, f a' x = g a' x) → foldl f a l = foldl g a l.
Proof.
  intros Hfg. revert a. induction l as [|x l IH]; intros a; simpl; [done|].
  by rewrite Hfg, IH.
Qed.

Lemma bind_pointwise_Permutation {A B : Type} (T1 T2 : A → list B) (l : list A) :
  Forall (λ x, T1 x ≡ₚ T2 x) l → l ≫= T1 ≡ₚ l ≫= T2.
Proof.
  induction 1 as [|x l Hx _ IH]; [done|]. csimpl. by rewrite Hx, IH.
Qed.

Lemma send_targets_value (cm : connMap) :
  connMap_forEach cm (λ _ conn a, (a ++ [conn], true)) [] =
  match cm !! EmptyString with Some c => replicate (size cm) c | None => [] end
  ++ (map_range cm).*2.
Proof. by rewrite connMap_collect, omap_lookup_getKeysOfMap. Qed.

Lemma elem_of_map_range_values {V : Type} (m : gmap string V) (v : V) :
  v ∈ (map_range m).*2 ↔ ∃ k, m !! k = Some v.
Proof.
  rewrite list_elem_of_fmap. split.
  - intros [[k v'] [-> Hin]]. exists k. by apply elem_of_map_range.
  - intros [k Hk]. exists (k, v). split; [done|]. by apply elem_of_map_range.
Qed.
End local_broadcaster_more.

(** X1: [send] starts an emission for nobody when the room is absent;
    otherwise for the handles stored in the room, in iteration order,
    preceded by [len] extra emissions to the handle stored under the empty
    id, if there is one. So exactly the members are reached, and each
    member once when no member has the empty id. [forEach] applies its
    function to the same handles. *)
Theorem broadcastLocal_send_reaches_members `{MapRange}
    (bc : broadcastLocal) (room : string) :
  broadcastLocal_forEach bc room = broadcastLocal_send bc room
  ∧ match roomsSync bc !! room with
    | None => broadcastLocal_send bc room = []
    | Some cm =>
        broadcastLocal_send bc room =
          match cm !! EmptyString with
          | Some c => replicate (size cm) c
          | None => []
          end ++ (map_range cm).*2
        ∧ (∀ c, c ∈ broadcastLocal_send bc room ↔ ∃ id, cm !! id = Some c)
        ∧ (cm !! EmptyString = None →
           broadcastLocal_send bc room ≡ₚ (map_to_list cm).*2)
    end.
Proof.
  split; [done|].
  unfold broadcastLocal_send, broadcastLocal_getOccupants, roomMap_getConnections.
  destruct (roomsSync bc !! room) as [cm|]; [|done].
  rewrite send_targets_value. split_and!; [done| |].
  - intros c. rewrite elem_of_app, elem_of_map_range_values. split.
    + intros [Hin|Hin]; [|done].
      destruct (cm !! EmptyString) as [c0|] eqn:E; [|by apply elem_of_nil in Hin].
      apply elem_of_replicate in Hin as [-> _]. by exists EmptyString.
    + intros Hex. by right.
  - intros ->. simpl. apply map_range_values_perm.
Qed.

(** X2: when no room and no member is named by the empty string,
    [sendAll] starts, for every room, one emission per member of that room:
    a connection joined to several rooms is emitted to once per room. *)
Theorem broadcastLocal_sendAll_once_per_membership `{MapRange} (bc : broadcastLocal) :
  well_named (roomsSync bc) →
  broadcastLocal_sendAll bc ≡ₚ
    (map_to_list (roomsSync bc)).*2 ≫= (λ cm, (map_to_list cm).*2).
Proof.
  intros [Hroom Hmembers]. unfold broadcastLocal_sendAll, roomMap_forEach.
  rewrite (roomMap_forEach_loop_foldl _
             (λ _ cm acc, connMap_forEach cm (λ _ conn a, (a ++ [conn], true)) acc)).
  transitivity ((map_range (roomsSync bc)).*2 ≫=
                  (λ cm, omap (λ id, cm !! id) (getKeysOfMap cm))).
  - erewrite (foldl_pointwise _ (λ a room, match roomsSync bc !! room with
                                      | Some cm => a ++ omap (λ id, cm !! id) (getKeysOfMap cm)
                                      | None => a end)).
    + rewrite rooms_bind_loop. simpl. unfold roomMap_listRoomID.
      by rewrite omap_lookup_getKeysOfMap, Hroom.
    + intros a room. destruct (roomsSync bc !! room); [|done].
      apply connMap_collect.
  - rewrite (bind_pointwise_Permutation _ (λ cm, (map_to_list cm).*2)).
    + by rewrite map_range_values_perm.
    + apply Forall_forall. intros cm [k Hk]%elem_of_map_range_values.
      rewrite omap_lookup_getKeysOfMap, (Hmembers k cm Hk). simpl.
      apply map_range_values_perm.
Qed.

Lemma broadcastLocal_sendAll_once_per_membership_witness :
  well_named (roomsSync chat_two_joined)
  ∧ @broadcastLocal_sendAll canonical_range chat_two_joined ≡ₚ [connA; connB].
Proof.
  assert (well_named (roomsSync chat_two_joined)) as Hwn.
  { split; [vm_compute; reflexivity|].
    apply (bool_decide_unpack _). vm_compute. exact I. }
  split; [exact Hwn|].
  rewrite (@broadcastLocal_sendAll_once_per_membership canonical_range
             chat_two_joined Hwn).
  vm_compute. reflexivity.
Defined.

Section rooms_of_connection.
Context `{MapRange}.

(** How often [forEach] visits the key [k] of [m]. *)
Lemma visits_of_key {V : Type} (m : gmap string V) (k : string) :
  length (filter (λ id, k = id ∧ is_Some (m !! id)) (getKeysOfMap m)) =
  match m !! k with
  | None => 0
  | Some _ => if decide (k = EmptyString) then S (size m) else 1
  end.
Proof.
  unfold getKeysOfMap. rewrite filter_app, length_app.
  destruct (m !! k) as [v|] eqn:E.
  - assert (length (filter (λ id, k = id ∧ is_Some (m !! id)) (map_range m).*1) = 1)
      as ->.
    { rewrite <- (length_filter_eq_NoDup (map_range m).*1 k (λ id, is_Some (m !! id))).
      - f_equal. apply list_filter_iff. intros id. split; intros [-> ?]; done.
      - apply map_range_keys_NoDup.
      - by eexists.
      - apply elem_of_map_range_keys. by eexists. }
    case_decide as Hk.
    + subst k. rewrite filter_replicate_True by (split; [done|by eexists]).
      rewrite length_replicate. lia.
    + rewrite filter_replicate_False by (by intros [? _]). simpl. lia.
  - rewrite !(proj2 (length_zero_iff_nil _)); [done| |];
      apply filter_drop_all, Forall_forall; intros id _ [<- [? ?]]; congruence.
Qed.

Lemma rooms_of_conn_inner (cm : connMap) (connection : Conn) (room : string)
    (rooms : list string) :
  connMap_forEach cm
    (λ connID _ rooms',
       (if decide (ID connection = connID) then rooms' ++ [room] else rooms', true))
    rooms
  = rooms ++ replicate
               (length (filter (λ id, ID connection = id ∧ is_Some (cm !! id))
                               (getKeysOfMap cm))) room.
Proof.
  unfold connMap_forEach, connMap_listConnID.
  rewrite (connMap_forEach_loop_foldl cm
             (λ connID _ rooms',
                if decide (ID connection = connID) then rooms' ++ [room] else rooms')).
  generalize (getKeysOfMap cm). intros ids. revert rooms.
  induction ids as [|id ids IH]; intros rooms; simpl.
  - by rewrite app_nil_r.
  - rewrite IH. destruct (cm !! id) as [c|] eqn:E.
    + destruct (decide (ID connection = id)) as [Heq|Hne].
      * rewrite filter_cons_True by (split; [done|by eexists]).
        simpl. by rewrite <- app_assoc.
      * by rewrite filter_cons_False by (by intros [? _]).
    + by rewrite filter_cons_False by (intros [_ [? ?]]; congruence).
Qed.

(** How often the inner loop of [getRoomsByConn] appends the room. *)
Lemma rooms_of_conn_count (cm : connMap) (connection : Conn) :
  length (filter (λ id, ID connection = id ∧ is_Some (cm !! id)) (getKeysOfMap cm))
  = match cm !! ID connection with
    | None => 0
    | Some _ => if decide (ID connection = EmptyString) then S (size cm) else 1
    end.
Proof. apply visits_of_key. Qed.

Lemma getRoomsByConn_fold (bc : broadcastLocal) (connection : Conn) :
  broadcastLocal_getRoomsByConn bc connection =
  foldl (λ a room,
           match roomsSync bc !! room with
           | Some cm =>
               a ++ replicate
                      (match cm !! ID connection with
                       | None => 0
                       | Some _ => if decide (ID connection = EmptyString)
                                   then S (size cm) else 1
                       end) room
           | None => a
           end) [] (getKeysOfMap (roomsSync bc)).
Proof.
  unfold broadcastLocal_getRoomsByConn, roomMap_forEach, roomMap_listRoomID.
  rewrite (roomMap_forEach_loop_foldl _
             (λ room cm rooms,
                connMap_forEach cm
                  (λ connID _ rooms',
                     (if decide (ID connection = connID) then rooms' ++ [room]
                      else rooms', true)) rooms)).
  apply foldl_pointwise. intros a room.
  destruct (roomsSync bc !! room) as [cm|]; [|done].
  by rewrite rooms_of_conn_inner, rooms_of_conn_count.
Qed.

Lemma rooms_of_conn_fold_elem (rm : roomMap) (id : string) (n : connMap → nat)
    (ids acc : list string) (r : string) :
  r ∈ foldl (λ a room, match rm !! room with
                       | Some cm => a ++ replicate (n cm) room
                       | None => a end) acc ids
  ↔ r ∈ acc ∨ (r ∈ ids ∧ ∃ cm, rm !! r = Some cm ∧ n cm ≠ 0).
Proof.
  revert acc. induction ids as [|room ids IH]; intros acc; simpl.
  - split; [by left|]. intros [?|[Hin _]]; [done|by apply elem_of_nil in Hin].
  - rewrite IH. destruct (rm !! room) as [cm|] eqn:E.
    + rewrite elem_of_app, elem_of_replicate. split.
      * intros [[?|[-> Hn]]|(Hin & Hex)]; [by left| |].
        -- right. split; [apply list_elem_of_here|]. by exists cm.
        -- right. split; [by apply list_elem_of_further|done].
      * intros [?|([->|Hin]%elem_of_cons & cm' & Hcm' & Hn)]; [by left; left| |].
        -- left. right. split; [done|]. congruence.
        -- right. split; [done|]. by exists cm'.
    + split.
      * intros [?|(Hin & Hex)]; [by left|].
        right. split; [by apply list_elem_of_further|done].
      * intros [?|([->|Hin]%elem_of_cons & cm' & Hcm' & Hn)]; [by left| |].
        -- congruence.
        -- right. split; [done|]. by exists cm'.
Qed.

Lemma rooms_of_conn_fold_filter (rm : roomMap) (id : string)
    (ids acc : list string) :
  id ≠ EmptyString →
  foldl (λ a room,
           match rm !! room with
           | Some cm =>
               a ++ replicate
                      (match cm !! id with
                       | None => 0
                       | Some _ => if decide (id = EmptyString)
                                   then S (size cm) else 1
                       end) room
           | None => a
           end) acc ids
  = acc ++ filter (λ room, id ∈ members rm room) ids.
Proof.
  intros Hid. revert acc. induction ids as [|room ids IH]; intros acc; simpl.
  - by rewrite app_nil_r.
  - rewrite IH. unfold members at 2. destruct (rm !! room) as [cm|] eqn:E.
    + destruct (cm !! id) as [c|] eqn:Ec.
      * rewrite decide_False by done.
        rewrite filter_cons_True
          by (unfold members; rewrite E; apply elem_of_dom; by eexists).
        simpl. by rewrite <- app_assoc.
      * rewrite filter_cons_False.
        -- simpl. by rewrite app_nil_r.
        -- unfold members. rewrite E. rewrite elem_of_dom, Ec. by intros [? ?].
    + rewrite filter_cons_False; [done|].
      unfold members. rewrite E. set_solver.
Qed.
End rooms_of_connection.

Section rooms_of_connection_elem.
Context `{MapRange}.

Lemma getRoomsByConn_elem (bc : broadcastLocal) (connection : Conn) (room : string) :
  room ∈ broadcastLocal_getRoomsByConn bc connection
  ↔ ID connection ∈ members (roomsSync bc) room.
Proof.
  rewrite getRoomsByConn_fold.
  rewrite (rooms_of_conn_fold_elem (roomsSync bc) (ID connection)
             (λ cm, match cm !! ID connection with
                    | None => 0
                    | Some _ => if decide (ID connection = EmptyString)
                                then S (size cm) else 1
                    end)).
  unfold members. split.
  - intros [Hin|(_ & cm & Hcm & Hn)]; [by apply elem_of_nil in Hin|].
    rewrite Hcm. apply elem_of_dom.
    destruct (cm !! ID connection); [by eexists|done].
  - intros Hin. right. destruct (roomsSync bc !! room) as [cm|] eqn:E;
      [|by apply not_elem_of_empty in Hin].
    split.
    + unfold getKeysOfMap. apply elem_of_app. right.
      apply elem_of_map_range_keys. by eexists.
    + exists cm. split; [done|]. apply elem_of_dom in Hin as [c Hc].
      rewrite Hc. case_decide; lia.
Qed.

Lemma members_handle (rm : roomMap) (room id : string) :
  id ∈ members rm room ↔ is_Some (roomMap_handle rm room id).
Proof.
  unfold members, roomMap_handle. destruct (rm !! room) as [cm|]; simpl.
  - apply elem_of_dom.
  - split; [set_solver|by intros [? ?]].
Qed.
End rooms_of_connection_elem.

(** X3: [getRoomsByConn] returns exactly the rooms that hold a member with
    the connection's id. When neither a room nor the connection is named by
    the empty string, each such room is listed once, in iteration order. *)
Theorem getRoomsByConn_rooms_of_member `{MapRange}
    (bc : broadcastLocal) (connection : Conn) :
  (∀ room, room ∈ broadcastLocal_getRoomsByConn bc connection
           ↔ ID connection ∈ members (roomsSync bc) room)
  ∧ (roomsSync bc !! EmptyString = None → ID connection ≠ EmptyString →
     broadcastLocal_getRoomsByConn bc connection =
       filter (λ room, ID connection ∈ members (roomsSync bc) room)
              (map_range (roomsSync bc)).*1
     ∧ NoDup (broadcastLocal_getRoomsByConn bc connection)).
Proof.
  split; [apply getRoomsByConn_elem|].
  rewrite getRoomsByConn_fold.
  intros Hroom Hid.
  rewrite (rooms_of_conn_fold_filter _ _ _ _ Hid). simpl.
  unfold getKeysOfMap. rewrite filter_app.
  rewrite (filter_drop_all _ (replicate _ _)).
  - simpl. split; [done|]. apply NoDup_filter, map_range_keys_NoDup.
  - apply Forall_forall. intros room ->%elem_of_replicate_inv.
    unfold members. rewrite Hroom. set_solver.
Qed.

Section join_leave_laws.
Context `{MapRange}.

Lemma roomMap_handle_join (rm : roomMap) (room : string) (conn : Conn)
    (r id : string) :
  roomMap_handle (roomMap_join room conn rm) r id =
  if decide (r = room ∧ id = ID conn) then Some conn else roomMap_handle rm r id.
Proof.
  unfold roomMap_handle, roomMap_join, connMap_join, newConnMap.
  destruct (decide (r = room)) as [->|Hr].
  - destruct (rm !! room) as [cm|] eqn:E; rewrite lookup_insert_eq; simpl;
      (destruct (decide (id = ID conn)) as [->|Hid];
       [rewrite decide_True by done; apply lookup_insert_eq
       |rewrite decide_False by (by intros [_ ?]); by rewrite lookup_insert_ne]).
  - rewrite decide_False by (by intros [? _]).
    destruct (rm !! room); by rewrite lookup_insert_ne.
Qed.

Lemma roomMap_handle_leave (rm : roomMap) (room : string) (conn : Conn)
    (r id : string) :
  roomMap_handle (roomMap_leave room conn rm) r id =
  if decide (r = room ∧ id = ID conn) then None else roomMap_handle rm r id.
Proof.
  unfold roomMap_handle, roomMap_leave, connMap_leave, connMap_len.
  destruct (decide (r = room)) as [->|Hr].
  - destruct (rm !! room) as [cm|] eqn:E.
    + destruct (Nat.eqb_spec (size (delete (ID conn) cm)) 0) as [H0|H0].
      * rewrite lookup_delete_eq. simpl. apply map_size_empty_inv in H0.
        case_decide as Hd; [done|]. rewrite ?E. simpl.
        destruct (decide (id = ID conn)) as [->|Hid]; [by destruct Hd|].
        rewrite <- (lookup_delete_ne cm (ID conn) id) by done.
        by rewrite H0, lookup_empty.
      * rewrite lookup_insert_eq. simpl.
        destruct (decide (id = ID conn)) as [->|Hid].
        -- rewrite decide_True by done. apply lookup_delete_eq.
        -- rewrite decide_False by (by intros [_ ?]). rewrite ?E. simpl.
           by rewrite lookup_delete_ne.
    + rewrite ?E. simpl. by case_decide.
  - rewrite decide_False by (by intros [? _]).
    destruct (rm !! room) as [cm|] eqn:E; [|done].
    destruct (Nat.eqb (size (delete (ID conn) cm)) 0).
    + by rewrite lookup_delete_ne, lookup_insert_ne.
    + by rewrite lookup_insert_ne.
Qed.

Lemma roomMap_handle_leaveAll_fold (conn : Conn) (ids : list string)
    (rm : roomMap) (r id : string) :
  roomMap_handle (foldl (λ acc roomID, roomMap_leave roomID conn acc) rm ids) r id =
  if decide (r ∈ ids ∧ id = ID conn) then None else roomMap_handle rm r id.
Proof.
  revert rm. induction ids as [|room ids IH]; intros rm; cbn [foldl].
  - rewrite decide_False; [done|]. intros [Hin _]. by apply elem_of_nil in Hin.
  - rewrite IH, roomMap_handle_leave.
    destruct (decide (r ∈ ids ∧ id = ID conn)) as [[Hin ->]|Hn].
    + rewrite decide_True; [done|]. split; [by apply list_elem_of_further|done].
    + destruct (decide (r = room ∧ id = ID conn)) as [[-> ->]|Hn'].
      * rewrite decide_True; [done|]. split; [apply list_elem_of_here|done].
      * rewrite decide_False; [done|].
        intros [[->|Hin]%elem_of_cons ->]; [by apply Hn'|by apply Hn].
Qed.

Lemma roomMap_join_no_change (rm : roomMap) (room : string) (conn : Conn) (cm : connMap) :
  rm !! room = Some cm → cm !! ID conn = Some conn → roomMap_join room conn rm = rm.
Proof.
  intros Hroom Hconn. unfold roomMap_join, connMap_join. rewrite Hroom.
  by rewrite (insert_id cm), insert_id.
Qed.

Lemma roomMap_leave_not_member (rm : roomMap) (room : string) (conn : Conn) :
  no_empty_room rm → roomMap_handle rm room (ID conn) = None →
  roomMap_leave room conn rm = rm.
Proof.
  intros Hrm Hnone. unfold roomMap_leave, connMap_leave, connMap_len.
  unfold roomMap_handle in Hnone.
  destruct (rm !! room) as [cm|] eqn:E; [|done]. simpl in Hnone.
  rewrite (delete_id cm) by done.
  destruct (Nat.eqb_spec (size cm) 0) as [H0|H0].
  - apply map_size_empty_inv in H0. subst cm. by destruct (Hrm room).
  - by apply insert_id.
Qed.
End join_leave_laws.

(** X4: [join] stores the handle under its id in the room and changes no
    other membership; a later handle with the same id replaces the earlier
    one; joining again with the same handle changes nothing. *)
Theorem roomMap_join_stores_handle (rm : roomMap) (room : string) (conn : Conn) :
  (∀ r id, roomMap_handle (roomMap_join room conn rm) r id =
           if decide (r = room ∧ id = ID conn) then Some conn
           else roomMap_handle rm r id)
  ∧ (∀ conn', ID conn' = ID conn →
       roomMap_join room conn' (roomMap_join room conn rm) = roomMap_join room conn' rm)
  ∧ roomMap_join room conn (roomMap_join room conn rm) = roomMap_join room conn rm
  ∧ (no_empty_room rm → no_empty_room (roomMap_join room conn rm)).
Proof.
  split_and!.
  - apply roomMap_handle_join.
  - intros conn' Hid. unfold roomMap_join, connMap_join. rewrite Hid.
    destruct (rm !! room) as [cm|] eqn:E; rewrite lookup_insert_eq;
      by rewrite insert_insert_eq, insert_insert_eq.
  - unfold roomMap_join, connMap_join.
    destruct (rm !! room) as [cm|] eqn:E; rewrite lookup_insert_eq;
      by rewrite insert_insert_eq, insert_insert_eq.
  - apply no_empty_room_join.
Qed.

(** X5: [leave] removes the membership of the connection's id in that room
    and no other. On an index free of empty rooms it keeps the index free of
    them, changes nothing when the id is not a member of the room, and
    undoes a [join] of a connection that was not a member. *)
Theorem roomMap_leave_removes_membership (rm : roomMap) (room : string) (conn : Conn) :
  (∀ r id, roomMap_handle (roomMap_leave room conn rm) r id =
           if decide (r = room ∧ id = ID conn) then None
           else roomMap_handle rm r id)
  ∧ (no_empty_room rm →
       no_empty_room (roomMap_leave room conn rm)
       ∧ (roomMap_handle rm room (ID conn) = None →
            roomMap_leave room conn rm = rm
            ∧ roomMap_leave room conn (roomMap_join room conn rm) = rm)).
Proof.
  split; [apply roomMap_handle_leave|].
  intros Hrm. split; [by apply no_empty_room_leave|].
  intros Hnone. split; [by apply roomMap_leave_not_member|].
  unfold roomMap_handle in Hnone.
  unfold roomMap_join, roomMap_leave, connMap_join, connMap_leave, connMap_len,
    newConnMap.
  destruct (rm !! room) as [cm|] eqn:E; simpl in Hnone;
    rewrite lookup_insert_eq.
  - rewrite delete_insert_id by done.
    destruct (Nat.eqb_spec (size cm) 0) as [H0|H0].
    + apply map_size_empty_inv in H0. subst cm. by destruct (Hrm room).
    + by rewrite insert_insert_eq, insert_id.
  - rewrite delete_insert_id by apply lookup_empty.
    rewrite map_size_empty. simpl.
    by rewrite delete_insert_eq, delete_insert_eq, delete_id.
Qed.

(** X6: [leaveAll] removes the connection's id from every room and leaves
    every other membership as it was; it keeps the index free of empty
    rooms; afterwards [getRoomsByConn] returns no room for the connection,
    and the same rooms as before for any connection with another id. *)
Theorem broadcastLocal_leaveAll_leaves_every_room `{MapRange}
    (bc : broadcastLocal) (conn : Conn) :
  (∀ r id, roomMap_handle (roomsSync (broadcastLocal_leaveAll conn bc)) r id =
           if decide (id = ID conn) then None
           else roomMap_handle (roomsSync bc) r id)
  ∧ (no_empty_room (roomsSync bc) →
       no_empty_room (roomsSync (broadcastLocal_leaveAll conn bc)))
  ∧ broadcastLocal_getRoomsByConn (broadcastLocal_leaveAll conn bc) conn = []
  ∧ (∀ other room, ID other ≠ ID conn →
       (room ∈ broadcastLocal_getRoomsByConn (broadcastLocal_leaveAll conn bc) other
        ↔ room ∈ broadcastLocal_getRoomsByConn bc other)).
Proof.
  assert (∀ r id, roomMap_handle (roomsSync (broadcastLocal_leaveAll conn bc)) r id =
                  if decide (id = ID conn) then None
                  else roomMap_handle (roomsSync bc) r id) as Hhandle.
  { intros r id. simpl. unfold roomMap_leaveAll.
    rewrite roomMap_handle_leaveAll_fold.
    destruct (decide (id = ID conn)) as [->|Hid].
    - case_decide as Hin; [done|].
      unfold roomMap_handle. destruct (roomsSync bc !! r) as [cm|] eqn:E; [|done].
      exfalso. apply Hin. split; [|done].
      unfold roomMap_listRoomID, getKeysOfMap. apply elem_of_app. right.
      apply elem_of_map_range_keys. by eexists.
    - by rewrite decide_False by (by intros [_ ?]). }
  split_and!.
  - exact Hhandle.
  - intros Hrm. simpl. unfold roomMap_leaveAll.
    generalize (roomMap_listRoomID (roomsSync bc)). intros ids.
    revert Hrm. generalize (roomsSync bc). intros rm.
    revert rm. induction ids as [|room ids IH]; intros rm Hrm; simpl; [done|].
    by apply IH, no_empty_room_leave.
  - apply elem_of_nil_inv. intros room.
    rewrite getRoomsByConn_elem, members_handle, Hhandle.
    rewrite decide_True by done. by intros [? ?].
  - intros other room Hother.
    rewrite !getRoomsByConn_elem, !members_handle, Hhandle.
    by rewrite decide_False.
Qed.

(** X7: [clear] removes the room and nothing else. Afterwards [send] and
    [forEach] on it reach nobody, [lenRoom] of it is 0, [allRooms] does not
    list it and no connection has it among its rooms. *)
Theorem broadcastLocal_clear_removes_room `{MapRange}
    (bc : broadcastLocal) (room : string) :
  let cleared := broadcastLocal_clear room bc in
  roomsSync cleared !! room = None
  ∧ (∀ r, r ≠ room → roomsSync cleared !! r = roomsSync bc !! r)
  ∧ broadcastLocal_send cleared room = []
  ∧ broadcastLocal_forEach cleared room = []
  ∧ broadcastLocal_lenRoom cleared room = 0%Z
  ∧ (room ∉ broadcastLocal_allRooms cleared)
  ∧ (∀ conn, room ∉ broadcastLocal_getRoomsByConn cleared conn).
Proof.
  intros cleared.
  assert (roomsSync cleared !! room = None) as Hnone by apply lookup_delete_eq.
  split_and!; try done.
  - intros r Hr. simpl. unfold roomMap_delete. by rewrite lookup_delete_ne.
  - unfold broadcastLocal_send, broadcastLocal_getOccupants, roomMap_getConnections.
    by rewrite Hnone.
  - unfold broadcastLocal_forEach, broadcastLocal_getOccupants, roomMap_getConnections.
    by rewrite Hnone.
  - by rewrite lenRoom_value, Hnone.
  - rewrite allRooms_value. intros [Hin|Hin]%elem_of_app.
    + case_decide as Hempty; [|by apply elem_of_nil in Hin].
      apply elem_of_replicate_inv in Hin. subst room.
      rewrite Hnone in Hempty. by destruct Hempty.
    + apply elem_of_map_range_keys in Hin. rewrite Hnone in Hin. by destruct Hin.
  - intros conn. rewrite getRoomsByConn_elem. unfold members. rewrite Hnone.
    set_solver.
Qed.

(** X8: [copyMap] (the snapshot behind [iterableData]) returns a map equal
    to its argument, whatever the iteration order. *)
Theorem copyMap_equal `{MapRange} {V : Type} (m : gmap string V) :
  copyMap m = m.
Proof.
  unfold copyMap. rewrite foldl_insert_list_to_map.
  rewrite <- (list_to_map_to_list m) at 2.
  apply list_to_map_proper.
  - rewrite fmap_reverse, reverse_Permutation. apply map_range_keys_NoDup.
  - by rewrite reverse_Permutation, map_range_perm.
Qed.

(** X9: [lenRoom] tests whether the room exists: it is 0 exactly when the
    room is absent, and 1 for any present room whose name is not the empty
    string, whatever the number of members; in particular it is 1 right
    after any [join] to such a room. *)
Theorem broadcastLocal_lenRoom_is_existence_test `{MapRange}
    (bc : broadcastLocal) (roomID : string) :
  (broadcastLocal_lenRoom bc roomID = 0%Z ↔ roomsSync bc !! roomID = None)
  ∧ (roomID ≠ EmptyString →
       (is_Some (roomsSync bc !! roomID) → broadcastLocal_lenRoom bc roomID = 1%Z)
       ∧ ∀ conn, broadcastLocal_lenRoom (broadcastLocal_join roomID conn bc) roomID
                 = 1%Z).
Proof.
  split.
  - rewrite lenRoom_value. destruct (roomsSync bc !! roomID); [|done].
    split; [|done]. case_decide; lia.
  - intros Hname. split.
    + intros [cm Hcm]. rewrite lenRoom_value, Hcm. by rewrite decide_False.
    + intros conn. rewrite lenRoom_value. simpl. unfold roomMap_join.
      destruct (roomsSync bc !! roomID); rewrite lookup_insert_eq;
        by rewrite decide_False.
Qed.

(* ===================================================================== *)
(** * Further properties of the server and the handlers                    *)
(* ===================================================================== *)

Section registration_facts.
Context `{Constants}.

Lemma canonical_nsp_idemp (nsp0 : string) :
  canonical_nsp (canonical_nsp nsp0) = canonical_nsp nsp0.
Proof.
  unfold canonical_nsp. destruct (decide (nsp0 = aliasRootNamespace)); [|by rewrite decide_False].
  by destruct (decide (rootNamespace = aliasRootNamespace)).
Qed.

Lemma canonical_nsp_alias : canonical_nsp aliasRootNamespace = canonical_nsp rootNamespace.
Proof.
  unfold canonical_nsp. rewrite decide_True by done.
  by destruct (decide (rootNamespace = aliasRootNamespace)).
Qed.

Lemma Server_getOrCreate_lookup (s : Server) (nsp0 uid0 : string) :
  let r := Server_getOrCreateNamespaceHandler s nsp0 uid0 in
  nspHandlers r.2 !! canonical_nsp nsp0 = Some r.1
  ∧ (∀ k, k ≠ canonical_nsp nsp0 → nspHandlers r.2 !! k = nspHandlers s !! k)
  ∧ r.1 = default (NewHandler (canonical_nsp (canonical_nsp nsp0)) uid0)
                  (nspHandlers s !! canonical_nsp nsp0).
Proof.
  unfold Server_getOrCreateNamespaceHandler, Server_getNamespaceHandler,
    Server_createNamespaceHandler.
  destruct (nspHandlers s !! canonical_nsp nsp0) as [h|] eqn:E; simpl.
  - done.
  - rewrite canonical_nsp_idemp. rewrite lookup_insert_eq. split_and!; [done| |done].
    intros k Hk. by rewrite lookup_insert_ne.
Qed.

Lemma Server_update_lookup (s : Server) (nsp0 : string) (h : Handler) (other : string) :
  Server_getNamespaceHandler (Server_update s nsp0 h) other =
  if decide (canonical_nsp other = canonical_nsp nsp0) then Some h
  else Server_getNamespaceHandler s other.
Proof.
  unfold Server_getNamespaceHandler, Server_update, Handlers_Set. simpl.
  case_decide as Heq.
  - rewrite Heq. apply lookup_insert_eq.
  - by rewrite lookup_insert_ne.
Qed.

(** What every registration call does to the registry: the handler of the
    namespace becomes [g] applied to the handler found or created, and no
    other namespace is touched. *)
Lemma Server_register_lookup (s : Server) (namespace uid0 : string)
    (g : Handler → Handler) (other : string) :
  let r := Server_getOrCreateNamespaceHandler s namespace uid0 in
  Server_getNamespaceHandler (Server_update r.2 namespace (g r.1)) other =
  if decide (canonical_nsp other = canonical_nsp namespace)
  then Some (g (default (NewHandler (canonical_nsp namespace) uid0)
                        (Server_getNamespaceHandler s namespace)))
  else Server_getNamespaceHandler s other.
Proof.
  intros r. rewrite Server_update_lookup.
  destruct (Server_getOrCreate_lookup s namespace uid0) as (Hl & Hother & Hr).
  fold r in Hl, Hother, Hr. case_decide as Heq.
  - rewrite Hr. by rewrite canonical_nsp_idemp.
  - unfold Server_getNamespaceHandler. by apply Hother.
Qed.
End registration_facts.

(** X10: the registry is keyed by canonical namespace names. The alias and
    the root name always resolve to the same handler. [OnConnect],
    [OnDisconnect] and [OnError] create the namespace's handler on first use
    and otherwise update the one registered: only the callback named
    changes, the broadcaster, the event table and the other callbacks stay,
    and the handler of every namespace with another canonical name is
    untouched. *)
Theorem Server_registration_is_canonical `{Constants}
    (s : Server) (namespace uid0 : string)
    (fn : option (Conn → Data → option error)) (registered : bool) :
  let before := default (NewHandler (canonical_nsp namespace) uid0)
                        (Server_getNamespaceHandler s namespace) in
  Server_getNamespaceHandler s aliasRootNamespace
    = Server_getNamespaceHandler s rootNamespace
  ∧ Server_getNamespaceHandler (Server_OnConnect s namespace uid0 fn) namespace
    = Some (Handler_OnConnect before fn)
  ∧ Server_getNamespaceHandler (Server_OnDisconnect s namespace uid0 registered) namespace
    = Some (Handler_OnDisconnect before registered)
  ∧ Server_getNamespaceHandler (Server_OnError s namespace uid0 registered) namespace
    = Some (Handler_OnError before registered)
  ∧ (∀ other, canonical_nsp other = canonical_nsp namespace →
       Server_getNamespaceHandler (Server_OnConnect s namespace uid0 fn) other
       = Server_getNamespaceHandler (Server_OnConnect s namespace uid0 fn) namespace)
  ∧ (∀ other, canonical_nsp other ≠ canonical_nsp namespace →
       Server_getNamespaceHandler (Server_OnConnect s namespace uid0 fn) other
       = Server_getNamespaceHandler s other
       ∧ Server_getNamespaceHandler (Server_OnDisconnect s namespace uid0 registered) other
         = Server_getNamespaceHandler s other
       ∧ Server_getNamespaceHandler (Server_OnError s namespace uid0 registered) other
         = Server_getNamespaceHandler s other).
Proof.
  intros before. unfold Server_OnConnect, Server_OnDisconnect, Server_OnError.
  split_and!.
  - unfold Server_getNamespaceHandler. by rewrite canonical_nsp_alias.
  - rewrite (Server_register_lookup s namespace uid0 (λ h, Handler_OnConnect h fn)).
    by rewrite decide_True.
  - rewrite (Server_register_lookup s namespace uid0
               (λ h, Handler_OnDisconnect h registered)).
    by rewrite decide_True.
  - rewrite (Server_register_lookup s namespace uid0 (λ h, Handler_OnError h registered)).
    by rewrite decide_True.
  - intros other Heq.
    rewrite !(Server_register_lookup s namespace uid0 (λ h, Handler_OnConnect h fn)).
    by rewrite !decide_True.
  - intros other Hne. split_and!.
    + rewrite (Server_register_lookup s namespace uid0 (λ h, Handler_OnConnect h fn)).
      by rewrite decide_False.
    + rewrite (Server_register_lookup s namespace uid0
                 (λ h, Handler_OnDisconnect h registered)).
      by rewrite decide_False.
    + rewrite (Server_register_lookup s namespace uid0
                 (λ h, Handler_OnError h registered)).
      by rewrite decide_False.
Qed.

(** X11: [OnEvent] accepts exactly the functions whose first parameter's
    type is named [Conn]; it panics in [newEventFunc] for anything else,
    after the namespace's handler has been created all the same. On
    success the function is registered under the event name with the
    remaining parameter types as the types its arguments are decoded to,
    other events of the namespace are kept, and other namespaces are
    untouched. *)
Theorem Server_OnEvent_validates_function `{Constants}
    (s : Server) (namespace uid0 event : string) (v : GoValue) :
  let before := default (NewHandler (canonical_nsp namespace) uid0)
                        (Server_getNamespaceHandler s namespace) in
  let r := Server_OnEvent s namespace uid0 event v in
  (r.1 = true ↔ ∃ first rest body,
                  v = GoFunc (first :: rest) body ∧ Ty_named_Conn first = true)
  ∧ (r.1 = false → Server_getNamespaceHandler r.2 namespace = Some before)
  ∧ (∀ first rest body,
       v = GoFunc (first :: rest) body → Ty_named_Conn first = true →
       ∃ h, Server_getNamespaceHandler r.2 namespace = Some h
            ∧ events h !! event = Some {| argTypes := rest; f := body |}
            ∧ Handler_getEventTypes h event = rest
            ∧ (∀ e, e ≠ event → events h !! e = events before !! e)
            ∧ broadcast h = broadcast before ∧ onConnect h = onConnect before
            ∧ onDisconnect h = onDisconnect before ∧ onError h = onError before)
  ∧ (∀ other, canonical_nsp other ≠ canonical_nsp namespace →
       Server_getNamespaceHandler r.2 other = Server_getNamespaceHandler s other).
Proof.
  intros before r.
  destruct (Server_getOrCreate_lookup s namespace uid0) as (Hl & Hother & Hr).
  rewrite canonical_nsp_idemp in Hr.
  assert ((Server_getOrCreateNamespaceHandler s namespace uid0).1 = before) as Hb
    by exact Hr.
  subst r. unfold Server_OnEvent, Handler_OnEvent. rewrite Hb.
  split_and!.
  - destruct v as [|[|first rest] body]; simpl.
    + split; [done|]. by intros (? & ? & ? & ? & _).
    + split; [done|]. by intros (? & ? & ? & ? & _).
    + destruct (Ty_named_Conn first) eqn:E; simpl.
      * split; [|done]. intros _. by exists first, rest, body.
      * split; [done|]. intros (? & ? & ? & [= <- <- <-] & ?). congruence.
  - destruct (newEventFunc v); simpl; [done|]. intros _.
    unfold Server_getNamespaceHandler. by rewrite Hl, Hb.
  - intros first rest body -> Hconn. simpl. rewrite Hconn. simpl.
    eexists. rewrite Server_update_lookup, decide_True by done.
    split; [reflexivity|]. simpl. unfold Handler_getEventTypes. simpl.
    rewrite lookup_insert_eq. split_and!; try done.
    intros e He. by rewrite lookup_insert_ne.
  - intros other Hne. destruct (newEventFunc v); simpl.
    + rewrite Server_update_lookup, decide_False by done.
      unfold Server_getNamespaceHandler. by apply Hother.
    + unfold Server_getNamespaceHandler. by apply Hother.
Qed.

(** X12: on a namespace with a registered handler [JoinRoom] returns
    [true] and makes the connection a member of the room in that
    namespace's room index; the handler's callbacks and events are kept;
    the rooms of every namespace with another canonical name are untouched;
    [ForEach] on the room then visits the connection, and a following
    [LeaveRoom] removes the membership again. *)
Theorem Server_JoinRoom_registered `{MapRange} `{Constants}
    (s : Server) (namespace room : string) (conn : Conn) (h : Handler) :
  Server_getNamespaceHandler s namespace = Some h →
  let r := Server_JoinRoom s namespace room conn in
  r.1 = true
  ∧ Server_getNamespaceHandler r.2 namespace
    = Some (with_broadcast h (broadcastLocal_join room conn (broadcast h)))
  ∧ (∀ other, canonical_nsp other ≠ canonical_nsp namespace →
       Server_getNamespaceHandler r.2 other = Server_getNamespaceHandler s other)
  ∧ conn ∈ (Server_ForEach r.2 namespace room).1.2
  ∧ (∃ h', Server_getNamespaceHandler
             (Server_LeaveRoom r.2 namespace room conn).2 namespace = Some h'
           ∧ roomMap_handle (roomsSync (broadcast h')) room (ID conn) = None).
Proof.
  intros Hh r. subst r. unfold Server_JoinRoom. rewrite Hh.
  unfold Handler_Join. cbn [fst snd].
  assert (∀ h1 other,
            Server_getNamespaceHandler (Server_store s namespace (Some h1)) other =
            if decide (canonical_nsp other = canonical_nsp namespace) then Some h1
            else Server_getNamespaceHandler s other) as Hstore.
  { intros h1 other. unfold Server_getNamespaceHandler, Server_store. simpl.
    case_decide as Heq; [rewrite Heq; apply lookup_insert_eq|].
    by rewrite lookup_insert_ne. }
  split_and!.
  - done.
  - by rewrite Hstore, decide_True.
  - intros other Hne. by rewrite Hstore, decide_False.
  - unfold Server_ForEach. rewrite Hstore, decide_True by done.
    unfold Handler_ForEach. cbn [fst snd].
    unfold broadcastLocal_forEach, broadcastLocal_getOccupants,
      roomMap_getConnections. cbn [broadcast with_broadcast roomsSync broadcastLocal_join with_rooms].
    pose proof (roomMap_handle_join (roomsSync (broadcast h)) room conn room (ID conn))
      as Hj. rewrite decide_True in Hj by done. unfold roomMap_handle in Hj.
    destruct (roomMap_join room conn (roomsSync (broadcast h)) !! room) as [cm|];
      [|done]. simpl in Hj.
    rewrite connMap_collect. simpl. apply list_elem_of_omap.
    exists (ID conn). split; [|done].
    unfold getKeysOfMap. apply elem_of_app. right.
    apply elem_of_map_range_keys. by eexists.
  - unfold Server_LeaveRoom. rewrite Hstore, decide_True by done.
    unfold Handler_Leave. cbn [fst snd].
    eexists. split.
    + unfold Server_getNamespaceHandler, Server_store. cbn [nspHandlers].
      apply lookup_insert_eq.
    + cbn [broadcast with_broadcast roomsSync broadcastLocal_join broadcastLocal_leave
           with_rooms].
      rewrite roomMap_handle_leave. by rewrite decide_True.
Qed.

Lemma Server_JoinRoom_registered_witness :
  is_Some (@Server_getNamespaceHandler spec_constants chat_server "/chat")
  ∧ (@Server_JoinRoom spec_constants chat_server "/chat" "r1" connA).1 = true
  ∧ connA ∈ (@Server_ForEach canonical_range spec_constants
               (@Server_JoinRoom spec_constants chat_server "/chat" "r1" connA).2
               "/chat" "r1").1.2.
Proof.
  assert (∃ h, @Server_getNamespaceHandler spec_constants chat_server "/chat" = Some h)
    as [h Hh] by (eexists; vm_compute; reflexivity).
  split; [by exists h|].
  destruct (@Server_JoinRoom_registered canonical_range spec_constants
              chat_server "/chat" "r1" connA h Hh) as (Hr & _ & _ & Hin & _).
  exact (conj Hr Hin).
Defined.

(* ===================================================================== *)
(** * Further properties of the connection                                 *)
(* ===================================================================== *)

Section connect_facts.
Context `{MapRange} `{Constants}.

Lemma conn_onError_frame (ns : string) (err : error) (c : conn) :
  namespaceConns (conn_onError ns err c) = namespaceConns c
  ∧ handlers (conn_onError ns err c) = handlers c
  ∧ writeChan (conn_onError ns err c) = writeChan c
  ∧ calls (conn_onError ns err c) = calls c
  ∧ closeOnce (conn_onError ns err c) = closeOnce c
  ∧ quitChan (conn_onError ns err c) = quitChan c.
Proof. unfold conn_onError. destruct (quitChan c) eqn:E; by split_and!. Qed.

Lemma conn_writeWithArgs_open (header : Header) (args : list Data) (c : conn) :
  quitChan c = false →
  conn_writeWithArgs header args c =
  send_writeChan {| pHeader := header; pData := []; pArgs := args |} c.
Proof. unfold conn_writeWithArgs. by intros ->. Qed.

Lemma conn_write_open (header : Header) (args : list Data) (c : conn) :
  quitChan c = false →
  conn_write header args c =
  send_writeChan {| pHeader := header; pData := args; pArgs := [] |} c.
Proof. unfold conn_write. by intros ->. Qed.
End connect_facts.

(** X13: a CONNECT packet for a namespace with a registered handler, whose
    auth payload decodes, on a connection without a view for that namespace
    and accepted by [onConnect] (or without one): a fresh view is stored for
    the namespace, it joins the room named by the connection id in that
    namespace's room index, [onConnect] (if registered) is called once with
    the decoded auth data, a CONNECT reply carrying the sid is written,
    no error is queued and the reader goes on with the next frame. *)
Theorem connect_creates_view `{MapRange} `{Constants}
    (c : conn) (p : InPacket) (rest : list Frame) (handler : Handler)
    (args : list Data) :
  quitChan c = false →
  hType (inHeader p) = Connect →
  handlers c !! canonical_nsp (hNamespace (inHeader p)) = Some handler →
  inDecodeArgs p defaultHeaderType = inr args →
  namespaceConns c !! canonical_nsp (hNamespace (inHeader p)) = None →
  (∀ onC, onConnect handler = Some onC →
          onC (mkConn (connID c) (canonical_nsp (hNamespace (inHeader p))))
              (getDispatchData args) = None) →
  let ns := canonical_nsp (hNamespace (inHeader p)) in
  let view := newNamespaceConn (connID c) ns in
  let joined := with_broadcast handler
                  (broadcastLocal_join (connID c) (nc_conn view) (broadcast handler)) in
  ∃ c', conn_dispatchPacket c p = (None, c')
        ∧ conn_serveRead (Packet p :: rest) c = conn_serveRead rest c'
        ∧ namespaceConns c' = <[ns := view]> (namespaceConns c)
        ∧ handlers c' = <[ns := joined]> (handlers c)
        ∧ roomMap_handle (roomsSync (broadcast joined)) (connID c) (connID c)
          = Some (nc_conn view)
        ∧ writeChan c' = writeChan c ++
            [{| pHeader := served_header p; pData := [];
                pArgs := [DMap [("sid", DString (connID c))]] |}]
        ∧ calls c' = calls c ++
            match onConnect handler with
            | Some _ => [CallOnConnect (nc_conn view) (getDispatchData args)]
            | None => []
            end
        ∧ errorChan c' = errorChan c ∧ closeOnce c' = closeOnce c.
Proof.
  intros Hq Hty Hh Hdec Hnc Haccept ns view joined.
  set (c1 := set_handlers (namespaceConn_Join view (connID c) (handlers c))
               (set_namespaceConns (<[ns := view]> (namespaceConns c)) c)).
  set (cl := match onConnect handler with
             | Some _ => [CallOnConnect (nc_conn view) (getDispatchData args)]
             | None => []
             end).
  set (c' := send_writeChan
               {| pHeader := served_header p; pData := [];
                  pArgs := [DMap [("sid", DString (connID c))]] |}
               (add_calls cl c1)).
  assert (conn_dispatchPacket c p = (None, c')) as Hdisp.
  { rewrite conn_dispatchPacket_header, Hty. unfold conn_connectPacketHandler.
    rewrite Hdec. change (hNamespace (served_header p)) with ns.
    subst ns. rewrite Hh, Hnc. cbn [fst snd].
    unfold Handler_dispatch.
    change (hType (served_header p)) with (hType (inHeader p)). rewrite Hty.
    subst cl. destruct (onConnect handler) as [onC|] eqn:EonC.
    - cbn [nc_conn newNamespaceConn]. rewrite (Haccept onC eq_refl). cbn [fst snd].
      by rewrite conn_writeWithArgs_open by exact Hq.
    - cbn [fst snd]. by rewrite conn_writeWithArgs_open by exact Hq. }
  exists c'. split_and!; try done.
  - rewrite conn_serveRead_step by done. by rewrite Hdisp.
  - subst c' c1. cbn. unfold namespaceConn_Join. cbn. subst ns. by rewrite Hh.
  - subst joined. cbn. rewrite roomMap_handle_join. by rewrite decide_True.
Qed.

Lemma connect_creates_view_witness :
  quitChan fresh_conn = false
  ∧ handlers fresh_conn !! "/chat" = Some chat_handler
  ∧ namespaceConns fresh_conn !! "/chat" = None
  ∧ ∃ c', @conn_dispatchPacket canonical_range spec_constants fresh_conn connect_chat
          = (None, c')
          ∧ namespaceConns c' = <["/chat" := newNamespaceConn "A" "/chat"]> ∅.
Proof.
  assert (quitChan fresh_conn = false) as Hq by reflexivity.
  assert (handlers fresh_conn !! "/chat" = Some chat_handler) as Hh
    by (vm_compute; reflexivity).
  assert (namespaceConns fresh_conn !! "/chat" = None) as Hnc
    by (vm_compute; reflexivity).
  split; [exact Hq|]. split; [exact Hh|]. split; [exact Hnc|].
  destruct (@connect_creates_view canonical_range spec_constants
              fresh_conn connect_chat [] chat_handler [DMap []]
              Hq eq_refl Hh eq_refl Hnc
              ltac:(intros onC HonC; discriminate HonC))
    as (c' & Hdisp & _ & Hviews & _).
  exists c'. split; [exact Hdisp|exact Hviews].
Defined.

(** X14: when [onConnect] returns an error for a CONNECT that creates the
    view, no CONNECT reply is written, the error is queued for the
    namespace and [errHandleDispatch] for the root namespace, and the reader
    returns; the view created for the packet stays stored and stays joined
    to the room named by the connection id. *)
Theorem connect_rejected_by_onConnect `{MapRange} `{Constants}
    (c : conn) (p : InPacket) (rest : list Frame) (handler : Handler)
    (args : list Data) (onC : Conn → Data → option error) (err : error) :
  quitChan c = false →
  hType (inHeader p) = Connect →
  handlers c !! canonical_nsp (hNamespace (inHeader p)) = Some handler →
  inDecodeArgs p defaultHeaderType = inr args →
  namespaceConns c !! canonical_nsp (hNamespace (inHeader p)) = None →
  onConnect handler = Some onC →
  onC (mkConn (connID c) (canonical_nsp (hNamespace (inHeader p))))
      (getDispatchData args) = Some err →
  let ns := canonical_nsp (hNamespace (inHeader p)) in
  let view := newNamespaceConn (connID c) ns in
  ∃ c', conn_serveRead (Packet p :: rest) c = (c', rest)
        ∧ namespaceConns c' !! ns = Some view
        ∧ (∃ h', handlers c' !! ns = Some h'
                 ∧ roomMap_handle (roomsSync (broadcast h')) (connID c) (connID c)
                   = Some (nc_conn view))
        ∧ writeChan c' = writeChan c
        ∧ errorChan c' = errorChan c ++
            [{| em_namespace := ns; em_err := err |};
             {| em_namespace := rootNamespace; em_err := errHandleDispatch |}]
        ∧ calls c' = calls c ++ [CallOnConnect (nc_conn view) (getDispatchData args)]
        ∧ closeOnce c' = closeOnce c.
Proof.
  intros Hq Hty Hh Hdec Hnc HonC Herr ns view.
  set (c1 := set_handlers (namespaceConn_Join view (connID c) (handlers c))
               (set_namespaceConns (<[ns := view]> (namespaceConns c)) c)).
  set (c2 := add_calls [CallOnConnect (nc_conn view) (getDispatchData args)] c1).
  set (c3 := send_errorChan {| em_namespace := ns; em_err := err |} c2).
  set (c' := send_errorChan
               {| em_namespace := rootNamespace; em_err := errHandleDispatch |} c3).
  assert (conn_dispatchPacket c p = (Some errHandleDispatch, c3)) as Hdisp.
  { rewrite conn_dispatchPacket_header, Hty. unfold conn_connectPacketHandler.
    rewrite Hdec. change (hNamespace (served_header p)) with ns.
    subst ns. rewrite Hh, Hnc. cbn [fst snd].
    unfold Handler_dispatch.
    change (hType (served_header p)) with (hType (inHeader p)). rewrite Hty, HonC.
    cbn [nc_conn newNamespaceConn]. rewrite Herr. cbn [fst snd].
    by rewrite conn_onError_open by exact Hq. }
  exists c'. split_and!; try done.
  - rewrite conn_serveRead_step by done. rewrite Hdisp. cbn [fst snd].
    by rewrite conn_onError_open by exact Hq.
  - subst c' c3 c2 c1. cbn. apply lookup_insert_eq.
  - subst c' c3 c2 c1. cbn. unfold namespaceConn_Join. cbn. subst ns. rewrite Hh.
    eexists. split; [apply lookup_insert_eq|]. cbn.
    rewrite roomMap_handle_join. by rewrite decide_True.
  - subst c' c3 c2 c1. cbn. by rewrite <- app_assoc.
Qed.

Lemma connect_rejected_by_onConnect_witness :
  quitChan strict_conn = false
  ∧ handlers strict_conn !! "/chat" = Some strict_handler
  ∧ namespaceConns strict_conn !! "/chat" = None
  ∧ ∃ c', @conn_serveRead canonical_range spec_constants
            [Packet connect_chat; Packet event_hello] strict_conn
          = (c', [Packet event_hello])
          ∧ writeChan c' = [].
Proof.
  assert (quitChan strict_conn = false) as Hq by reflexivity.
  assert (handlers strict_conn !! "/chat" = Some strict_handler) as Hh
    by (vm_compute; reflexivity).
  assert (namespaceConns strict_conn !! "/chat" = None) as Hnc
    by (vm_compute; reflexivity).
  split; [exact Hq|]. split; [exact Hh|]. split; [exact Hnc|].
  destruct (@connect_rejected_by_onConnect canonical_range spec_constants
              strict_conn connect_chat [Packet event_hello] strict_handler [DMap []]
              refuse_all (errorString "unauthorized")
              Hq eq_refl Hh eq_refl Hnc eq_refl eq_refl)
    as (c' & Hread & _ & _ & Hw & _).
  exists c'. split; [exact Hread|exact Hw].
Defined.

(** X15: a CONNECT for a namespace the connection already has a view for
    reuses the view: its packet-id counter and pending acks are kept and no
    room is joined; [onConnect] runs again and, when it accepts, the CONNECT
    reply is written again. *)
Theorem connect_reuses_view `{MapRange} `{Constants}
    (c : conn) (p : InPacket) (handler : Handler) (nc : namespaceConn)
    (args : list Data) :
  quitChan c = false →
  hType (inHeader p) = Connect →
  handlers c !! canonical_nsp (hNamespace (inHeader p)) = Some handler →
  inDecodeArgs p defaultHeaderType = inr args →
  namespaceConns c !! canonical_nsp (hNamespace (inHeader p)) = Some nc →
  (∀ onC, onConnect handler = Some onC →
          onC (nc_conn nc) (getDispatchData args) = None) →
  ∃ c', conn_dispatchPacket c p = (None, c')
        ∧ namespaceConns c' = namespaceConns c
        ∧ handlers c' = handlers c
        ∧ writeChan c' = writeChan c ++
            [{| pHeader := served_header p; pData := [];
                pArgs := [DMap [("sid", DString (ID (nc_conn nc)))]] |}]
        ∧ calls c' = calls c ++
            match onConnect handler with
            | Some _ => [CallOnConnect (nc_conn nc) (getDispatchData args)]
            | None => []
            end
        ∧ errorChan c' = errorChan c.
Proof.
  intros Hq Hty Hh Hdec Hnc Haccept.
  set (cl := match onConnect handler with
             | Some _ => [CallOnConnect (nc_conn nc) (getDispatchData args)]
             | None => []
             end).
  set (c' := send_writeChan
               {| pHeader := served_header p; pData := [];
                  pArgs := [DMap [("sid", DString (ID (nc_conn nc)))]] |}
               (add_calls cl c)).
  exists c'. split_and!; try done.
  rewrite conn_dispatchPacket_header, Hty. unfold conn_connectPacketHandler.
  rewrite Hdec.
  change (hNamespace (served_header p))
    with (canonical_nsp (hNamespace (inHeader p))).
  rewrite Hh, Hnc. cbn [fst snd].
  unfold Handler_dispatch.
  change (hType (served_header p)) with (hType (inHeader p)). rewrite Hty.
  subst c' cl. destruct (onConnect handler) as [onC|] eqn:EonC.
  - rewrite (Haccept onC eq_refl). cbn [fst snd].
    by rewrite conn_writeWithArgs_open by exact Hq.
  - cbn [fst snd]. by rewrite conn_writeWithArgs_open by exact Hq.
Qed.

Lemma connect_reuses_view_witness :
  quitChan chat_conn_pinged = false
  ∧ (∃ nc, namespaceConns chat_conn_pinged !! "/chat" = Some nc ∧ pkgID nc = 1%Z)
  ∧ ∃ c', @conn_dispatchPacket canonical_range spec_constants
            chat_conn_pinged connect_chat = (None, c')
          ∧ namespaceConns c' = namespaceConns chat_conn_pinged.
Proof.
  assert (quitChan chat_conn_pinged = false) as Hq by (vm_compute; reflexivity).
  assert (∃ nc, namespaceConns chat_conn_pinged !! "/chat" = Some nc ∧ pkgID nc = 1%Z)
    as Hview.
  { eexists. split; vm_compute; reflexivity. }
  assert (∃ h, handlers chat_conn_pinged !! "/chat" = Some h ∧ onConnect h = None)
    as (h & Hh & HonC).
  { eexists. split; vm_compute; reflexivity. }
  split; [exact Hq|]. split; [exact Hview|].
  destruct Hview as (nc & Hnc & _).
  destruct (@connect_reuses_view canonical_range spec_constants
              chat_conn_pinged connect_chat h nc [DMap []]
              Hq eq_refl Hh eq_refl Hnc
              ltac:(intros onC HonC'; rewrite HonC in HonC'; discriminate HonC'))
    as (c' & Hdisp & Hviews & _).
  exists c'. split; [exact Hdisp|exact Hviews].
Defined.

(** X16: a DISCONNECT packet whose payload decodes, for a namespace the
    connection has a view for: the view leaves every room of the namespace
    and is removed, the other views are kept, [onDisconnect] (if registered)
    is called once with the decoded reason and details, nothing is written,
    no error is queued and the reader goes on. For a namespace without view
    the packet changes nothing. *)
Theorem disconnect_removes_view `{MapRange} `{Constants}
    (c : conn) (p : InPacket) (rest : list Frame) (args : list Data) :
  quitChan c = false →
  hType (inHeader p) = Disconnect →
  inDecodeArgs p disconnectHeaderType = inr args →
  let ns := canonical_nsp (hNamespace (inHeader p)) in
  match namespaceConns c !! ns with
  | None => conn_dispatchPacket c p = (None, c)
  | Some nc =>
      ∃ c', conn_dispatchPacket c p = (None, c')
            ∧ conn_serveRead (Packet p :: rest) c = conn_serveRead rest c'
            ∧ namespaceConns c' = delete ns (namespaceConns c)
            ∧ handlers c' = namespaceConn_LeaveAll nc (handlers c)
            ∧ left_all_rooms nc (handlers c')
            ∧ writeChan c' = writeChan c ∧ errorChan c' = errorChan c
            ∧ calls c' = calls c ++
                match handlers c !! ns with
                | Some handler =>
                    if onDisconnect handler
                    then [CallOnDisconnect (nc_conn nc)
                            (getDispatchDisconnectData args).1
                            (getDispatchDisconnectData args).2]
                    else []
                | None => []
                end
  end.
Proof.
  intros Hq Hty Hdec ns.
  assert (∀ c0, conn_dispatchPacket c p = c0 →
                conn_disconnectPacketHandler c (served_header p) (inDecodeArgs p) = c0)
    as Hto.
  { intros c0 <-. by rewrite conn_dispatchPacket_header, Hty. }
  destruct (namespaceConns c !! ns) as [nc|] eqn:Hnc.
  - set (cl := match handlers c !! ns with
               | Some handler =>
                   if onDisconnect handler
                   then [CallOnDisconnect (nc_conn nc)
                           (getDispatchDisconnectData args).1
                           (getDispatchDisconnectData args).2]
                   else []
               | None => []
               end).
    set (c1 := set_namespaceConns (delete ns (namespaceConns c))
                 (set_handlers (namespaceConn_LeaveAll nc (handlers c)) c)).
    assert (conn_dispatchPacket c p = (None, add_calls cl c1)) as Hdisp.
    { rewrite conn_dispatchPacket_header, Hty. unfold conn_disconnectPacketHandler.
      rewrite Hdec. change (hNamespace (served_header p)) with ns. rewrite Hnc.
      subst cl. destruct (handlers c !! ns) as [handler|] eqn:Hh.
      - unfold Handler_dispatch.
        change (hType (served_header p)) with (hType (inHeader p)). rewrite Hty.
        by destruct (onDisconnect handler).
      - by rewrite add_calls_nil. }
    exists (add_calls cl c1). split_and!; try done.
    + rewrite conn_serveRead_step by done. by rewrite Hdisp.
    + apply namespaceConn_LeaveAll_left.
  - rewrite conn_dispatchPacket_header, Hty. unfold conn_disconnectPacketHandler.
    rewrite Hdec. change (hNamespace (served_header p)) with ns. by rewrite Hnc.
Qed.

Lemma disconnect_removes_view_witness :
  quitChan chat_conn = false
  ∧ is_Some (namespaceConns chat_conn !! "/chat")
  ∧ ∃ c', @conn_dispatchPacket canonical_range spec_constants chat_conn disconnect_chat
          = (None, c')
          ∧ namespaceConns c' !! "/chat" = None.
Proof.
  assert (quitChan chat_conn = false) as Hq by (vm_compute; reflexivity).
  assert (∃ nc, namespaceConns chat_conn !! "/chat" = Some nc) as [nc Hnc]
    by (eexists; vm_compute; reflexivity).
  split; [exact Hq|]. split; [by exists nc|].
  pose proof (@disconnect_removes_view canonical_range spec_constants
                chat_conn disconnect_chat []
                [DString "client namespace disconnect"; DMap []]
                Hq eq_refl eq_refl) as Hd.
  cbv zeta in Hd.
  change (@canonical_nsp spec_constants (hNamespace (inHeader disconnect_chat)))
    with "/chat" in Hd.
  rewrite Hnc in Hd. destruct Hd as (c' & Hdisp & _ & Hviews & _).
  exists c'. split; [exact Hdisp|]. rewrite Hviews. apply lookup_delete_eq.
Defined.

(** X17: handling an ACK packet never returns an error, so it never stops
    the reader, whatever the packet. It writes nothing and leaves the
    registry, the rooms and the close latch alone; among the views it can
    only remove the pending entry of the packet's id in the packet's
    namespace; it invokes at most one callback. When the namespace has no
    view or the id is not pending, nothing changes at all. *)
Theorem ack_never_stops_reader `{Constants} (c : conn) (header : Header)
    (decode : list Ty → error + list Data) :
  let r := conn_ackPacketHandler c header decode in
  r.1 = None
  ∧ writeChan r.2 = writeChan c ∧ handlers r.2 = handlers c
  ∧ closeOnce r.2 = closeOnce c ∧ quitChan r.2 = quitChan c
  ∧ (∀ ns, ns ≠ hNamespace header → namespaceConns r.2 !! ns = namespaceConns c !! ns)
  ∧ (∀ nc, namespaceConns c !! hNamespace header = Some nc →
       ∃ nc', namespaceConns r.2 !! hNamespace header = Some nc'
              ∧ nc_conn nc' = nc_conn nc ∧ pkgID nc' = pkgID nc
              ∧ ack nc' = delete (hID header) (ack nc))
  ∧ (∃ added, calls r.2 = calls c ++ added ∧ (length added ≤ 1)%nat)
  ∧ ((∀ nc, namespaceConns c !! hNamespace header = Some nc →
            ack nc !! hID header = None) → r.2 = c).
Proof.
  intros r. subst r. unfold conn_ackPacketHandler.
  destruct (namespaceConns c !! hNamespace header) as [nc|] eqn:Hnc.
  - cbn [namespaceConn_ackLoadAndDelete fst snd].
    destruct (ack nc !! hID header) as [fh|] eqn:Hid.
    + set (c1 := set_namespaceConns _ c).
      assert (∀ c2 : conn,
                namespaceConns c2 = namespaceConns c1 →
                (∀ ns, ns ≠ hNamespace header →
                       namespaceConns c2 !! ns = namespaceConns c !! ns)
                ∧ ∃ nc', namespaceConns c2 !! hNamespace header = Some nc'
                         ∧ nc_conn nc' = nc_conn nc ∧ pkgID nc' = pkgID nc
                         ∧ ack nc' = delete (hID header) (ack nc)) as Hviews.
      { intros c2 ->. subst c1. cbn. split.
        - intros ns Hns. by rewrite lookup_insert_ne.
        - eexists. split; [apply lookup_insert_eq|done]. }
      destruct (decode (argTypes fh)) as [err|args].
      * cbn [fst snd].
        destruct (conn_onError_frame (Namespace (nc_conn nc)) err c1)
          as (H1 & H2 & H3 & H4 & H5 & H6).
        destruct (Hviews _ H1) as [Hother Hsame].
        split_and!; try done.
        -- intros nc0 [= <-]. exact Hsame.
        -- exists []. split; [by rewrite H4, app_nil_r|simpl; lia].
        -- intros Hno. specialize (Hno nc eq_refl). congruence.
      * set (c2 := add_calls _ c1).
        destruct (funcHandler_Call fh (VData <$> args)).2 as [err|]; cbn [fst snd].
        -- destruct (conn_onError_frame (Namespace (nc_conn nc)) err c2)
             as (H1 & H2 & H3 & H4 & H5 & H6).
           destruct (Hviews _ H1) as [Hother Hsame].
           split_and!; try done.
           ++ intros nc0 [= <-]. exact Hsame.
           ++ eexists. split; [by rewrite H4|simpl; lia].
           ++ intros Hno. specialize (Hno nc eq_refl). congruence.
        -- destruct (Hviews c2 eq_refl) as [Hother Hsame].
           split_and!; try done.
           ++ intros nc0 [= <-]. exact Hsame.
           ++ eexists. split; [done|simpl; lia].
           ++ intros Hno. specialize (Hno nc eq_refl). congruence.
    + cbn [fst snd]. split_and!; try done.
      * intros nc0 [= <-]. exists nc. split; [done|]. split_and!; try done.
        by rewrite delete_id.
      * exists []. split; [by rewrite app_nil_r|simpl; lia].
  - cbn [fst snd]. split_and!; try done.
    exists []. split; [by rewrite app_nil_r|simpl; lia].
Qed.

Section emit_facts.
Context `{Constants}.

Lemma namespaceConn_Emit_one_callback (nc : namespaceConn) (eventName : string)
    (fh : funcHandler) :
  namespaceConn_Emit nc eventName [ArgFunc fh] =
  EmitWrite
    {| nc_conn := nc_conn nc; pkgID := uint64_add (pkgID nc) 1;
       ack := <[uint64_add (pkgID nc) 1 := fh]> (ack nc) |}
    {| hType := Event; hNamespace := hNamespace (Emit_header nc);
       hID := uint64_add (pkgID nc) 1; hNeedAck := true |}
    [DString eventName].
Proof. exact (namespaceConn_Emit_callback nc eventName [] fh [] eq_refl). Qed.

Lemma mapM_interface_nil (v : list EmitArg) :
  ArgNil ∈ v → mapM EmitArg_interface v = None.
Proof.
  intros Hin. apply mapM_None_2, Exists_exists. by exists ArgNil.
Qed.

Lemma last_removelast {A : Type} (l : list A) (x : A) :
  last l = Some x → l = removelast l ++ [x].
Proof.
  intros Hlast. destruct (list_snoc_cases l) as [->|(l' & y & ->)]; [done|].
  rewrite last_snoc in Hlast. injection Hlast as ->.
  by rewrite removelast_last.
Qed.
End emit_facts.

(** X18: successive emits with a trailing callback allocate consecutive
    packet ids: starting from a view whose pending ids were allocated by its
    counter, as long as the counter stays below [2^64], the [i]-th callback
    is pending under id [pkgID + 1 + i], the entries that were pending
    before are untouched, and the counter has advanced by the number of
    emits. *)
Theorem emit_callbacks_consecutive_ids `{Constants} (eventName : string)
    (fhs : list funcHandler) (nc : namespaceConn) :
  (0 ≤ pkgID nc)%Z →
  (pkgID nc + Z.of_nat (length fhs) < uint64_mod)%Z →
  ack_ids_allocated nc →
  let nc' := emit_callbacks eventName fhs nc in
  pkgID nc' = (pkgID nc + Z.of_nat (length fhs))%Z
  ∧ (∀ i fh, fhs !! i = Some fh →
             ack nc' !! (pkgID nc + 1 + Z.of_nat i)%Z = Some fh)
  ∧ (∀ id, (id ≤ pkgID nc)%Z → ack nc' !! id = ack nc !! id)
  ∧ ack_ids_allocated nc'
  ∧ nc_conn nc' = nc_conn nc.
Proof.
  revert nc. induction fhs as [|fh fhs IH]; intros nc Hpos Hbound Hwf nc'.
  - subst nc'. cbn. split_and!; try done. lia.
  - subst nc'. unfold emit_callbacks. cbn [foldl].
    rewrite namespaceConn_Emit_one_callback. cbn [EmitResult_view].
    cbn [length] in Hbound.
    rewrite uint64_add_small by (unfold uint64_mod in *; lia).
    set (nc1 := {| nc_conn := nc_conn nc; pkgID := (pkgID nc + 1)%Z;
                   ack := <[(pkgID nc + 1)%Z := fh]> (ack nc) |}).
    destruct (IH nc1) as (Hid & Hnew & Hold & Hwf' & Hconn).
    { cbn. lia. }
    { cbn. lia. }
    { by apply ack_ids_allocated_store. }
    fold (emit_callbacks eventName fhs nc1).
    split_and!.
    + rewrite Hid. cbn. lia.
    + intros [|i] fh' Hfh'.
      * injection Hfh' as <-. rewrite Z.add_0_r.
        rewrite Hold by (cbn; lia). cbn. apply lookup_insert_eq.
      * cbn in Hfh'. specialize (Hnew i fh' Hfh'). cbn in Hnew.
        by replace (pkgID nc + 1 + Z.of_nat (S i))%Z
          with (pkgID nc + 1 + 1 + Z.of_nat i)%Z by lia.
    + intros id Hle. rewrite Hold by (cbn; lia). cbn.
      rewrite lookup_insert_ne; [done|lia].
    + exact Hwf'.
    + exact Hconn.
Qed.

Lemma emit_callbacks_consecutive_ids_witness :
  (0 ≤ pkgID (newNamespaceConn "A" "/chat"))%Z
  ∧ (pkgID (newNamespaceConn "A" "/chat") + Z.of_nat (length [cb_pong; fn_hello])
     < uint64_mod)%Z
  ∧ pkgID (@emit_callbacks spec_constants "ping" [cb_pong; fn_hello]
             (newNamespaceConn "A" "/chat")) = 2%Z.
Proof.
  assert (0 ≤ pkgID (newNamespaceConn "A" "/chat"))%Z as Hpos by (vm_compute; discriminate).
  assert (pkgID (newNamespaceConn "A" "/chat") + Z.of_nat (length [cb_pong; fn_hello])
          < uint64_mod)%Z as Hbound by (vm_compute; reflexivity).
  assert (ack_ids_allocated (newNamespaceConn "A" "/chat")) as Hwf.
  { intros id [fh Hfh]. vm_compute in Hfh. discriminate Hfh. }
  split; [exact Hpos|]. split; [exact Hbound|].
  exact (proj1 (@emit_callbacks_consecutive_ids spec_constants "ping"
                  [cb_pong; fn_hello] (newNamespaceConn "A" "/chat")
                  Hpos Hbound Hwf)).
Defined.

(** X19: [Emit] panics whenever one of its arguments is a nil interface.
    With arguments that all convert and no trailing function it leaves the
    view untouched (no packet id is allocated, nothing becomes pending) and
    hands [write] an EVENT header with id 0 and no ack request, carrying the
    event name followed by the arguments. At the top of [uint64] the
    counter wraps: the callback is registered under id 0. *)
Theorem Emit_arguments `{Constants} (nc : namespaceConn) (eventName : string)
    (v : list EmitArg) :
  (ArgNil ∈ v → ∃ nc', namespaceConn_Emit nc eventName v = EmitPanic nc')
  ∧ (∀ data, mapM EmitArg_interface v = Some data →
             (∀ fh, last v ≠ Some (ArgFunc fh)) →
             namespaceConn_Emit nc eventName v
             = EmitWrite nc (Emit_header nc) (DString eventName :: data))
  ∧ hType (Emit_header nc) = Event ∧ hID (Emit_header nc) = 0%Z
  ∧ hNeedAck (Emit_header nc) = false
  ∧ (∀ fh, pkgID nc = (uint64_mod - 1)%Z →
           ∃ nc' header args,
             namespaceConn_Emit nc eventName [ArgFunc fh] = EmitWrite nc' header args
             ∧ hID header = 0%Z ∧ pkgID nc' = 0%Z ∧ ack nc' !! 0%Z = Some fh).
Proof.
  split_and!; try done.
  - intros Hnil. unfold namespaceConn_Emit, Emit_finish.
    destruct (last v) as [[| d | fh]|] eqn:Hlast.
    + by eexists.
    + rewrite (mapM_interface_nil v Hnil). by eexists.
    + apply last_removelast in Hlast. rewrite Hlast in Hnil.
      apply elem_of_app in Hnil as [Hnil|Hnil];
        [|by apply list_elem_of_singleton in Hnil].
      rewrite (mapM_interface_nil _ Hnil). by eexists.
    + rewrite (mapM_interface_nil v Hnil). by eexists.
  - intros data Hdata Hlast. unfold namespaceConn_Emit, Emit_finish.
    destruct (last v) as [[| d | fh]|] eqn:E.
    + apply last_removelast in E. rewrite E in Hdata.
      rewrite mapM_interface_nil in Hdata; [done|].
      apply elem_of_app. right. apply list_elem_of_here.
    + by rewrite Hdata.
    + by destruct (Hlast fh).
    + by rewrite Hdata.
  - intros fh Hmax. rewrite namespaceConn_Emit_one_callback.
    assert (uint64_add (pkgID nc) 1 = 0%Z) as ->.
    { unfold uint64_add. rewrite Hmax. by vm_compute. }
    eexists _, _, _. split; [reflexivity|]. cbn. split_and!; try done.
    apply lookup_insert_eq.
Qed.



(* ===================================================================== *)
(** ** The remote broadcaster: collecting the cluster's answers            *)
(* ===================================================================== *)

Section remote_collect.
Context `{MapRange}.

Lemma roomLenReqType_not_allRoom : roomLenReqType ≠ allRoomReqType.
Proof. done. Qed.

(** A response to somebody else's request leaves the table alone. *)
Lemma remote_onResponse_foreign (res : Response) (requests : gmap string Request) :
  requests !! resRequestID res = None →
  remote_onResponse res requests = Some requests.
Proof. intros E. unfold remote_onResponse. by rewrite E. Qed.

(** Once [done] has been signalled the waiting call returns. *)
Lemma remote_await_roomLen_done (RequestID : string) (responses : list Response)
    (table : gmap string Request) (r : roomLenRequest) :
  table !! RequestID = Some (ReqRoomLen r) → (0 < rl_done r)%nat →
  remote_await_roomLen RequestID responses table = Some (rl_connections r).
Proof.
  intros Ht Hdone. destruct responses; simpl; rewrite Ht; by rewrite decide_True.
Qed.

Lemma remote_await_allRooms_done (RequestID : string) (responses : list Response)
    (table : gmap string Request) (r : allRoomRequest) :
  table !! RequestID = Some (ReqAllRoom r) → (0 < ar_done r)%nat →
  remote_await_allRooms RequestID responses table
  = Some (map_range (ar_rooms r)).*1.
Proof.
  intros Ht Hdone. destruct responses; simpl; rewrite Ht; by rewrite decide_True.
Qed.

(** Waiting on a room-length request that still lacks answers. *)
Lemma remote_await_roomLen_sum (RequestID room : string) (numSub : Z)
    (rest : list Response) (rs : list Response) :
  ∀ (table : gmap string Request) (k s : Z),
    table !! RequestID =
      Some (ReqRoomLen {| rl_Room := room; rl_numSub := numSub; rl_msgCount := k;
                          rl_connections := s; rl_done := 0 |}) →
    (k < numSub)%Z →
    Forall (λ res, roomLen_reply RequestID res
                   ∨ (resRequestID res ≠ RequestID
                      ∧ table !! resRequestID res = None)) rs →
    (k + Z.of_nat (length (replies_to RequestID rs)) = numSub)%Z →
    remote_await_roomLen RequestID (rs ++ rest) table
    = Some (s + sum_connections (replies_to RequestID rs))%Z.
Proof.
  induction rs as [|res rs IH]; intros table k s Ht Hk Hall Hcount.
  - simpl in Hcount. lia.
  - apply Forall_cons in Hall as [Hres Hall].
    simpl. rewrite Ht. simpl.
    destruct Hres as [(Hid & Hty & [n Hn])|[Hid Hnone]].
    + unfold remote_onResponse. rewrite Hid, Ht, Hty, Hn.
      rewrite decide_True by done.
      unfold replies_to in *. rewrite filter_cons_True in * by done.
      simpl in Hcount. simpl. rewrite Hn. simpl.
      destruct (decide (numSub = (k + 1)%Z)) as [Hlast|Hmore].
      * assert (filter (λ res0, resRequestID res0 = RequestID) rs = []) as ->
          by (apply length_zero_iff_nil; lia).
        erewrite remote_await_roomLen_done;
          [|apply lookup_insert_eq|simpl; lia]. simpl. f_equal. lia.
      * rewrite (IH _ (k + 1)%Z (s + n)%Z); [f_equal; lia|apply lookup_insert_eq|lia| |lia].
        eapply Forall_impl; [exact Hall|]. intros r [Hr|[Hr1 Hr2]]; [by left|].
        right. split; [done|]. by rewrite lookup_insert_ne.
    + rewrite remote_onResponse_foreign by done.
      unfold replies_to in *. rewrite filter_cons_False in * by done.
      by eapply IH.
Qed.

(** The rooms named by the well-formed answers among [rs]. *)
Lemma remote_rooms_collected (rooms : list string) (m : gmap string bool)
    (room : string) :
  room ∈ dom (foldl (λ m0 room0, <[room0 := true]> m0) m rooms)
  ↔ room ∈ dom m ∨ room ∈ rooms.
Proof.
  revert m. induction rooms as [|r rooms IH]; intros m; simpl.
  - set_solver.
  - rewrite IH. set_solver.
Qed.

(** Waiting on an all-rooms request: the answers [rs] are folded into the
    request's set; waiting ends after the [numSub]-th answer or at an
    answer [bad] without a room list. *)
Lemma remote_await_allRooms_collect (RequestID : string) (numSub : Z)
    (rest : list Response) (rs : list Response) :
  ∀ (table : gmap string Request) (k : Z) (rooms : gmap string bool),
    table !! RequestID =
      Some (ReqAllRoom {| ar_rooms := rooms; ar_numSub := numSub;
                          ar_msgCount := k; ar_done := 0 |}) →
    (k < numSub)%Z →
    Forall (λ res, allRoom_reply RequestID res
                   ∨ (resRequestID res ≠ RequestID
                      ∧ table !! resRequestID res = None)) rs →
    ((k + Z.of_nat (length (replies_to RequestID rs)) = numSub)%Z
     ∨ ((k + Z.of_nat (length (replies_to RequestID rs)) < numSub)%Z
        ∧ ∃ bad rest', rest = bad :: rest' ∧ resRequestID bad = RequestID
                       ∧ resRequestType bad = allRoomReqType
                       ∧ resRooms bad = None)) →
    ∃ result,
      remote_await_allRooms RequestID (rs ++ rest) table = Some result
      ∧ NoDup result
      ∧ ∀ room, room ∈ result ↔
                room ∈ dom rooms
                ∨ ∃ res l, res ∈ rs ∧ resRequestID res = RequestID
                           ∧ resRooms res = Some l ∧ room ∈ l.
Proof.
  induction rs as [|res rs IH]; intros table k rooms Ht Hk Hall Hcount.
  - simpl in Hcount. destruct Hcount as [?|[_ (bad & rest' & -> & Hid & Hty & Hbad)]];
      [lia|].
    simpl. rewrite Ht. simpl.
    unfold remote_onResponse. rewrite Hid, Ht, Hty, Hbad.
    rewrite decide_False by done. rewrite decide_True by done.
    eexists. split.
    { erewrite remote_await_allRooms_done;
        [reflexivity|apply lookup_insert_eq|simpl; lia]. }
    split; [apply map_range_keys_NoDup|].
    intros room. rewrite elem_of_map_range_keys, <- elem_of_dom.
    split; [by left|]. intros [?|(? & ? & Hin & _)]; [done|].
    by apply elem_of_nil in Hin.
  - apply Forall_cons in Hall as [Hres Hall].
    simpl. rewrite Ht. simpl.
    destruct Hres as [(Hid & Hty & [l Hl])|[Hid Hnone]].
    + unfold remote_onResponse. rewrite Hid, Ht, Hty, Hl.
      rewrite decide_False by done. rewrite decide_True by done.
      unfold replies_to in *. rewrite filter_cons_True in Hcount by done.
      simpl in Hcount. cbn [ar_rooms ar_numSub ar_msgCount ar_done].
      destruct (decide (numSub = (k + 1)%Z)) as [Hlast|Hmore].
      * eexists. split.
        { erewrite remote_await_allRooms_done;
            [reflexivity|apply lookup_insert_eq|simpl; lia]. }
        split; [apply map_range_keys_NoDup|].
        intros room. rewrite elem_of_map_range_keys, <- elem_of_dom.
        cbn [ar_rooms]. rewrite remote_rooms_collected.
        assert (filter (λ res0, resRequestID res0 = RequestID) rs = []) as Hnil.
        { apply length_zero_iff_nil.
          destruct Hcount as [?|[? _]]; lia. }
        split.
        -- intros [?|?]; [by left|]. right. exists res, l.
           split; [apply list_elem_of_here|done].
        -- intros [?|(r & l' & Hin & Hr & Hl' & Hroom)]; [by left|].
           apply elem_of_cons in Hin as [->|Hin].
           ++ right. congruence.
           ++ assert (r ∈ filter (λ res0, resRequestID res0 = RequestID) rs) as Hf
                by (by apply list_elem_of_filter).
              rewrite Hnil in Hf. by apply elem_of_nil in Hf.
      * edestruct (IH (<[RequestID :=
                          ReqAllRoom {| ar_rooms := foldl (λ m0 room0, <[room0 := true]> m0)
                                                          rooms l;
                                        ar_numSub := numSub;
                                        ar_msgCount := (k + 1)%Z;
                                        ar_done := 0 |}]> table) (k + 1)%Z)
          as (result & Hres & Hnd & Hiff).
        { apply lookup_insert_eq. }
        { destruct Hcount as [?|[? _]]; lia. }
        { eapply Forall_impl; [exact Hall|]. intros r [Hr|[Hr1 Hr2]]; [by left|].
          right. split; [done|]. by rewrite lookup_insert_ne. }
        { destruct Hcount as [?|[? Hbad]]; [left; lia|right; split; [lia|done]]. }
        exists result. split; [exact Hres|]. split; [done|].
        intros room. rewrite Hiff, remote_rooms_collected. split.
        -- intros [[?|?]|(r & l' & Hin & ?)].
           ++ by left.
           ++ right. exists res, l. split; [apply list_elem_of_here|done].
           ++ right. exists r, l'. split; [by apply list_elem_of_further|done].
        -- intros [?|(r & l' & Hin & Hr & Hl' & Hroom)]; [by left; left|].
           apply elem_of_cons in Hin as [->|Hin].
           ++ left. right. congruence.
           ++ right. by exists r, l'.
    + rewrite remote_onResponse_foreign by done.
      unfold replies_to in *. rewrite filter_cons_False in Hcount by done.
      edestruct (IH table k rooms) as (result & Hres & Hnd & Hiff); [done..|].
      exists result. split; [exact Hres|]. split; [done|].
      intros room. rewrite Hiff. split.
      -- intros [?|(r & l' & Hin & ?)]; [by left|].
         right. exists r, l'. split; [by apply list_elem_of_further|done].
      -- intros [?|(r & l' & Hin & Hr & ?)]; [by left|].
         apply elem_of_cons in Hin as [->|Hin]; [done|].
         right. by exists r, l'.
Qed.

(** With no subscriber counted, no answer ever completes a room-length
    request. *)
Lemma remote_await_roomLen_no_subscriber (RequestID : string)
    (responses : list Response) :
  ∀ (table : gmap string Request) (room : string) (k s : Z),
    table !! RequestID =
      Some (ReqRoomLen {| rl_Room := room; rl_numSub := 0; rl_msgCount := k;
                          rl_connections := s; rl_done := 0 |}) →
    (0 ≤ k)%Z →
    remote_await_roomLen RequestID responses table = None.
Proof.
  induction responses as [|res rest IH]; intros table room k s Ht Hk; simpl;
    rewrite Ht; simpl; [done|].
  destruct (remote_onResponse res table) as [table'|] eqn:E; [|done].
  unfold remote_onResponse in E.
  destruct (decide (resRequestID res = RequestID)) as [Hid|Hid].
  - rewrite Hid, Ht in E.
    destruct (decide (resRequestType res = roomLenReqType)).
    + destruct (resConnections res); [|done]. inversion E; subst table'.
      eapply (IH _ room (k + 1)%Z); [|lia].
      rewrite lookup_insert_eq. simpl. by rewrite decide_False by lia.
    + destruct (decide (resRequestType res = allRoomReqType)); [done|].
      inversion E; subst table'. by eapply IH.
  - assert (table' !! RequestID = table !! RequestID) as Hsame.
    { destruct (table !! resRequestID res) as [req|]; [|by inversion E].
      destruct (decide (resRequestType res = roomLenReqType)).
      - destruct req, (resConnections res); inversion E.
        by rewrite lookup_insert_ne.
      - destruct (decide (resRequestType res = allRoomReqType)).
        + destruct req; [done|]. destruct (resRooms res); inversion E;
            by rewrite lookup_insert_ne.
        + by inversion E. }
    rewrite Ht in Hsame. by eapply IH.
Qed.

Lemma sum_connections_app (l1 l2 : list Response) :
  sum_connections (l1 ++ l2) = (sum_connections l1 + sum_connections l2)%Z.
Proof. induction l1 as [|r l1 IH]; simpl; [done|]. rewrite IH. lia. Qed.

Lemma sum_connections_Permutation (l1 l2 : list Response) :
  l1 ≡ₚ l2 → sum_connections l1 = sum_connections l2.
Proof.
  induction 1 as [|x l l' _ IH|x y l|l l' l'' _ IH1 _ IH2]; simpl;
    [done|by rewrite IH|lia|congruence].
Qed.

Lemma req_field_roomLen (RequestID room : string) :
  req_field (roomLenRequest_json RequestID room) "RequestType" = roomLenReqType
  ∧ req_field (roomLenRequest_json RequestID room) "RequestID" = RequestID
  ∧ req_field (roomLenRequest_json RequestID room) "Room" = room.
Proof. done. Qed.

Lemma cluster_replies_roomLen_cons (RequestID room : string)
    (local : broadcastLocal) (nodes : list broadcastLocal) :
  cluster_replies (roomLenRequest_json RequestID room) (local :: nodes)
  = {| resRequestType := roomLenReqType; resRequestID := RequestID;
       resConnections := Some (broadcastLocal_lenRoom local room);
       resRooms := None |}
    :: cluster_replies (roomLenRequest_json RequestID room) nodes.
Proof.
  unfold cluster_replies. cbn [omap list_omap]. unfold remote_onRequest at 1.
  destruct (req_field_roomLen RequestID room) as (-> & -> & ->).
  by rewrite decide_True.
Qed.

Lemma sum_connections_cluster (RequestID room : string)
    (nodes : list broadcastLocal) :
  room ≠ EmptyString →
  sum_connections (cluster_replies (roomLenRequest_json RequestID room) nodes)
  = Z.of_nat (length (filter (λ local, is_Some (roomsSync local !! room)) nodes)).
Proof.
  intros Hroom. induction nodes as [|local nodes IH]; [done|].
  rewrite cluster_replies_roomLen_cons.
  change (sum_connections (?x :: ?l))
    with (default 0 (resConnections x) + sum_connections l)%Z.
  rewrite IH. cbn [resConnections default]. rewrite lenRoom_value.
  destruct (roomsSync local !! room) as [cm|] eqn:E; unfold id.
  - rewrite filter_cons_True by (by rewrite E). rewrite decide_False by done.
    simpl. lia.
  - rewrite filter_cons_False by (rewrite E; by intros [? ?]). lia.
Qed.

Lemma cluster_replies_roomLen (RequestID room : string)
    (nodes : list broadcastLocal) :
  length (cluster_replies (roomLenRequest_json RequestID room) nodes) = length nodes
  ∧ Forall (roomLen_reply RequestID)
           (cluster_replies (roomLenRequest_json RequestID room) nodes).
Proof.
  induction nodes as [|local nodes [IH1 IH2]]; [done|].
  rewrite cluster_replies_roomLen_cons. split; [simpl; by rewrite IH1|].
  apply Forall_cons. split; [|done]. repeat split; by eexists.
Qed.
End remote_collect.

(* ===================================================================== *)
(** ** The remote broadcaster: results of cluster requests                 *)
(* ===================================================================== *)

(** X21: [lenRoom] of the remote broadcaster: when marshalling, the
    subscriber count ([numSub] > 0) and the publication succeed, and the
    responses that arrive begin with [rs], made of well-formed replies to
    this request and of replies to requests this node is not waiting for,
    with exactly [numSub] replies to this request among them, the call
    returns the sum of the [Connections] of these replies; the replies to
    other requests are skipped and what arrives after [rs] is not
    counted. *)
Theorem remote_lenRoom_sums_replies `{MapRange} (bus : Bus)
    (requests : gmap string Request) (RequestID room : string) (numSub : Z)
    (rs rest : list Response) :
  bus_marshal bus = None →
  bus_numSub bus = inr (Some numSub) →
  bus_publish bus = None →
  bus_responses bus = rs ++ rest →
  Forall (λ res, roomLen_reply RequestID res
                 ∨ foreign_reply requests RequestID res) rs →
  (0 < numSub)%Z →
  Z.of_nat (length (replies_to RequestID rs)) = numSub →
  remote_lenRoom bus requests RequestID room
  = Some (sum_connections (replies_to RequestID rs)).
Proof.
  intros Hm Hn Hp Hr Hall Hpos Hcount.
  unfold remote_lenRoom, remote_getNumSub. rewrite Hm, Hn, Hp, Hr.
  rewrite (remote_await_roomLen_sum RequestID room numSub rest rs _ 0%Z 0%Z);
    [f_equal; lia|apply lookup_insert_eq|done| |lia].
  eapply Forall_impl; [exact Hall|]. intros r [Hr'|[Hr1 Hr2]]; [by left|].
  right. split; [done|]. by rewrite lookup_insert_ne.
Qed.

Lemma remote_lenRoom_sums_replies_witness :
  @remote_lenRoom
    (bus_answering 2 [reply_len "req-1" 1; stray_reply; reply_len "req-1" 0;
                      reply_len "req-1" 5])
    ∅ "req-1" "r1" = Some 1%Z.
Proof.
  apply (@remote_lenRoom_sums_replies canonical_range
           (bus_answering 2 [reply_len "req-1" 1; stray_reply;
                             reply_len "req-1" 0; reply_len "req-1" 5])
           ∅ "req-1" "r1" 2
           [reply_len "req-1" 1; stray_reply; reply_len "req-1" 0]
           [reply_len "req-1" 5]); try reflexivity.
  repeat apply Forall_cons_2; [left|right|left|apply Forall_nil_2].
  - unfold roomLen_reply. simpl. split_and!; [done..|by eexists].
  - unfold foreign_reply. simpl. split; done.
  - unfold roomLen_reply. simpl. split_and!; [done..|by eexists].
Defined.

(** X22: when the subscriber count is 0 (nobody subscribed, or an empty
    [PubSubNumSub] reply) and the request has been published, [lenRoom]
    never returns, whatever responses arrive: the message counter is
    compared with [numSub] only after it has been incremented. *)
Theorem remote_lenRoom_no_subscriber_never_returns `{MapRange} (bus : Bus)
    (requests : gmap string Request) (RequestID room : string) :
  bus_marshal bus = None →
  remote_getNumSub bus = inr 0%Z →
  bus_publish bus = None →
  remote_lenRoom bus requests RequestID room = None.
Proof.
  intros Hm Hn Hp. unfold remote_lenRoom. rewrite Hm, Hn, Hp.
  eapply remote_await_roomLen_no_subscriber; [apply lookup_insert_eq|done].
Qed.

Lemma remote_lenRoom_no_subscriber_never_returns_witness :
  @remote_lenRoom (bus_answering 0 [reply_len "req-1" 1; reply_len "req-1" 4])
                  ∅ "req-1" "r1" = None.
Proof.
  by apply (@remote_lenRoom_no_subscriber_never_returns canonical_range
              (bus_answering 0 [reply_len "req-1" 1; reply_len "req-1" 4])
              ∅ "req-1" "r1").
Defined.

(** X23: [allRooms] of the remote broadcaster: when the publication
    succeeds and the responses begin with [rs] (well-formed replies to this
    request and replies to requests this node is not waiting for), the call
    returns once [numSub] replies have arrived, or earlier, at the first
    reply to it that carries no room list. The result lists, without
    duplicates, exactly the rooms named by the replies of [rs]. *)
Theorem remote_allRooms_union_of_replies `{MapRange} (bus : Bus)
    (requests : gmap string Request) (RequestID : string) (numSub : Z)
    (rs rest : list Response) :
  bus_numSub bus = inr (Some numSub) →
  bus_publish bus = None →
  bus_responses bus = rs ++ rest →
  Forall (λ res, allRoom_reply RequestID res
                 ∨ foreign_reply requests RequestID res) rs →
  (0 < numSub)%Z →
  (Z.of_nat (length (replies_to RequestID rs)) = numSub
   ∨ ((Z.of_nat (length (replies_to RequestID rs)) < numSub)%Z
      ∧ ∃ bad rest', rest = bad :: rest' ∧ resRequestID bad = RequestID
                     ∧ resRequestType bad = allRoomReqType
                     ∧ resRooms bad = None)) →
  ∃ result,
    remote_allRooms bus requests RequestID = Some result
    ∧ NoDup result
    ∧ ∀ room, room ∈ result ↔
              ∃ res l, res ∈ rs ∧ resRequestID res = RequestID
                       ∧ resRooms res = Some l ∧ room ∈ l.
Proof.
  intros Hn Hp Hr Hall Hpos Hcount.
  unfold remote_allRooms, remote_getNumSub. rewrite Hn, Hp, Hr.
  edestruct (remote_await_allRooms_collect RequestID numSub rest rs
               (<[RequestID := ReqAllRoom {| ar_rooms := ∅; ar_numSub := numSub;
                                             ar_msgCount := 0; ar_done := 0 |}]>
                  requests) 0%Z ∅) as (result & Hres & Hnd & Hiff).
  - apply lookup_insert_eq.
  - done.
  - eapply Forall_impl; [exact Hall|]. intros r [Hr'|[Hr1 Hr2]]; [by left|].
    right. split; [done|]. by rewrite lookup_insert_ne.
  - destruct Hcount as [?|[? ?]]; [left; lia|right; split; [lia|done]].
  - exists result. split; [exact Hres|]. split; [done|].
    intros room. rewrite Hiff. split; [|by right].
    intros [Hin|?]; [|done]. by rewrite dom_empty_L in Hin.
Qed.

Lemma remote_allRooms_union_of_replies_witness :
  ∃ result,
    @remote_allRooms canonical_range
      (bus_answering 3 [reply_rooms "req-1" (Some ["r1"; "r2"]);
                        reply_rooms "req-1" (Some ["r1"]);
                        reply_rooms "req-1" None])
      ∅ "req-1" = Some result
    ∧ NoDup result
    ∧ ∀ room, room ∈ result ↔
              ∃ res l, res ∈ [reply_rooms "req-1" (Some ["r1"; "r2"]);
                              reply_rooms "req-1" (Some ["r1"])]
                       ∧ resRequestID res = "req-1"
                       ∧ resRooms res = Some l ∧ room ∈ l.
Proof.
  apply (@remote_allRooms_union_of_replies canonical_range
           (bus_answering 3 [reply_rooms "req-1" (Some ["r1"; "r2"]);
                             reply_rooms "req-1" (Some ["r1"]);
                             reply_rooms "req-1" None])
           ∅ "req-1" 3
           [reply_rooms "req-1" (Some ["r1"; "r2"]);
            reply_rooms "req-1" (Some ["r1"])]
           [reply_rooms "req-1" None]); try reflexivity.
  - repeat apply Forall_cons_2; [left|left|apply Forall_nil_2];
      unfold allRoom_reply; simpl; (split_and!; [done..|by eexists]).
  - right. split; [reflexivity|]. by eexists _, [].
Defined.

(** X24: across a cluster, [Len] counts nodes, not connections: when the
    nodes subscribed to the request channel each answer a room-length
    request with their local [lenRoom] (through [onRequest]) and the
    answers reach the requester in any order, the remote [lenRoom] of a
    room with a non-empty name returns the number of nodes whose index
    holds the room, whatever the number of its members. *)
Theorem cluster_lenRoom_counts_nodes `{MapRange} (bus : Bus)
    (nodes : list broadcastLocal) (requests : gmap string Request)
    (RequestID room : string) :
  room ≠ EmptyString →
  nodes ≠ [] →
  bus_marshal bus = None →
  bus_numSub bus = inr (Some (Z.of_nat (length nodes))) →
  bus_publish bus = None →
  bus_responses bus ≡ₚ cluster_replies (roomLenRequest_json RequestID room) nodes →
  remote_lenRoom bus requests RequestID room
  = Some (Z.of_nat (length (filter (λ local, is_Some (roomsSync local !! room))
                                   nodes))).
Proof.
  intros Hroom Hnodes Hm Hn Hp Hperm.
  destruct (cluster_replies_roomLen RequestID room nodes) as [Hlen Hall].
  assert (Forall (roomLen_reply RequestID) (bus_responses bus)) as Hall'
    by (by rewrite Hperm).
  assert (replies_to RequestID (bus_responses bus) = bus_responses bus) as Hrep.
  { unfold replies_to. apply filter_keep_all.
    eapply Forall_impl; [exact Hall'|]. by intros r [? _]. }
  unfold remote_lenRoom, remote_getNumSub. rewrite Hm, Hn, Hp.
  rewrite <- (app_nil_r (bus_responses bus)).
  rewrite (remote_await_roomLen_sum RequestID room (Z.of_nat (length nodes)) []
             (bus_responses bus) _ 0%Z 0%Z); [|apply lookup_insert_eq| | |].
  - rewrite Hrep. f_equal. rewrite Z.add_0_l.
    rewrite <- (sum_connections_cluster RequestID room nodes Hroom).
    by apply sum_connections_Permutation.
  - destruct nodes; [done|]. simpl. lia.
  - eapply Forall_impl; [exact Hall'|]. by left.
  - rewrite Hrep, Hperm, Hlen. lia.
Qed.

Lemma cluster_lenRoom_counts_nodes_witness :
  @remote_lenRoom
    (@cluster_bus canonical_range (roomLenRequest_json "req-1" "r1")
                  [node_1; node_2])
    ∅ "req-1" "r1" = Some 2%Z.
Proof.
  apply (@cluster_lenRoom_counts_nodes canonical_range
           (@cluster_bus canonical_range (roomLenRequest_json "req-1" "r1")
                         [node_1; node_2])
           [node_1; node_2] ∅ "req-1" "r1"); done.
Defined.

(** X25: [onRequest] changes the local broadcaster only for a clear
    request of another node. After [Clear(room)] on a node the room is
    gone there and the request it publishes carries the node's uid: the
    node ignores its own request, a node with another uid removes the room
    and nothing else, and a node with the same uid keeps the room. A clear
    request is never answered; room-length and all-rooms requests,
    requests of an unknown type and undecodable ones leave the rooms as
    they are. *)
Theorem remote_clear_reaches_other_nodes `{MapRange}
    (a b : broadcastLocal) (RequestID room : string) :
  let r := broadcastRemote_Clear a RequestID room in
  roomsSync r.1 !! room = None
  ∧ remote_onRequest (Some r.2) r.1 = (None, r.1)
  ∧ (remote_onRequest (Some r.2) b).1 = None
  ∧ (uid b ≠ uid a →
       roomsSync (remote_onRequest (Some r.2) b).2 !! room = None
       ∧ ∀ room', room' ≠ room →
                  roomsSync (remote_onRequest (Some r.2) b).2 !! room'
                  = roomsSync b !! room')
  ∧ (uid b = uid a → (remote_onRequest (Some r.2) b).2 = b)
  ∧ (∀ req, req_field req "RequestType" ≠ clearRoomReqType →
            (remote_onRequest (Some req) b).2 = b)
  ∧ remote_onRequest None b = (None, b).
Proof.
  assert (∀ local, remote_onRequest
                     (Some (clearRoomRequest_json RequestID room (uid a))) local
                   = if decide (uid local = uid a) then (None, local)
                     else (None, broadcastLocal_clear room local)) as Hclear.
  { intros local. unfold remote_onRequest.
    change (req_field (clearRoomRequest_json RequestID room (uid a)) "RequestType")
      with clearRoomReqType.
    change (req_field (clearRoomRequest_json RequestID room (uid a)) "UUID")
      with (uid a).
    change (req_field (clearRoomRequest_json RequestID room (uid a)) "Room")
      with room.
    rewrite decide_False by done. rewrite decide_False by done.
    by rewrite decide_True by done. }
  cbn zeta. unfold broadcastRemote_Clear, remote_publishClear. cbn [fst snd].
  repeat split.
  - simpl. unfold roomMap_delete. apply lookup_delete_eq.
  - rewrite Hclear. by rewrite decide_True.
  - rewrite Hclear. by case_decide.
  - rewrite Hclear. rewrite decide_False by done. simpl.
    unfold roomMap_delete. apply lookup_delete_eq.
  - intros room' Hne. rewrite Hclear. rewrite decide_False by done. simpl.
    unfold roomMap_delete. by apply lookup_delete_ne.
  - intros Huid. rewrite Hclear. by rewrite decide_True.
  - intros req Hty. unfold remote_onRequest. repeat case_decide; done.
Qed.

(* ===================================================================== *)
(** ** Broadcast messages between nodes                                    *)
(* ===================================================================== *)







Section remote_message_facts.
Context `{MapRange}.

End remote_message_facts.




(* ===================================================================== *)
(** ** Adapter configuration                                               *)
(* ===================================================================== *)

Lemma string_length_pos (s : string) :
  (0 < String.length s)%nat ↔ s ≠ EmptyString.
Proof. destruct s; simpl; split; (done || lia). Qed.

(** The options [GetOptions] returns, field by field. *)
Lemma GetOptions_value (o : RedisAdapterConfig) :
  GetOptions (Some o)
  = {| Addr := if decide (Addr o = EmptyString) then Addr defaultConfig else Addr o;
       Prefix := if decide (Prefix o = EmptyString) then Prefix defaultConfig
                 else Prefix o;
       Network := if decide (Network o = EmptyString) then Network defaultConfig
                  else Network o;
       Password := Password o;
       DB := Z.max 0 (DB o) |}.
Proof.
  destruct o as [addr prefix network password db].
  unfold GetOptions. cbn [Addr Prefix Network Password DB].
  assert ((if decide (0 < String.length password)%nat then password
           else Password defaultConfig) = password) as Hpw.
  { case_decide as Hp; [done|]. rewrite string_length_pos in Hp.
    destruct (decide (password = EmptyString)) as [->|]; done. }
  assert ((if decide (0 < db)%Z then db else DB defaultConfig) = Z.max 0 db) as Hdb.
  { destruct (decide (0 < db)%Z); unfold defaultConfig; cbn [DB]; lia. }
  destruct (decide (addr = EmptyString)) as [Ha|Ha];
    [rewrite (decide_False (P := addr ≠ EmptyString)) by (by intros ?)
    |rewrite (decide_True (P := addr ≠ EmptyString)) by done];
    (destruct (decide (prefix = EmptyString)) as [Hp|Hp];
     [rewrite (decide_False (P := prefix ≠ EmptyString)) by (by intros ?)
     |rewrite (decide_True (P := prefix ≠ EmptyString)) by done]);
    (destruct (decide (network = EmptyString)) as [Hn|Hn];
     [rewrite (decide_False (P := network ≠ EmptyString)) by (by intros ?)
     |rewrite (decide_True (P := network ≠ EmptyString)) by done]);
    cbn [Addr Prefix Network Password DB];
    (destruct (decide (0 < db)%Z) as [Hd|Hd];
     destruct (decide (0 < String.length password)%nat) as [Hl|Hl];
     cbn [Addr Prefix Network Password DB];
     f_equal; first [reflexivity | exact Hpw | exact Hdb
                    | rewrite <- Hpw at 2; by rewrite decide_False
                    | rewrite <- Hpw at 2; by rewrite decide_True
                    | lia | idtac]).
  all: try (rewrite decide_False in Hpw by done; exact Hpw).
  all: try (rewrite decide_True in Hpw by done; exact Hpw).
Qed.

(** X27: [GetOptions] always yields usable options: address, prefix and
    network are never empty and the database index is never negative; each
    field given (non-empty, or positive for [DB]) is kept and each field
    left at its zero value, or a negative [DB], takes the default; the
    function is idempotent and maps the nil pointer and the zero
    configuration to the same defaults. *)
Theorem GetOptions_defaults (o : RedisAdapterConfig) :
  let r := GetOptions (Some o) in
  (Addr r ≠ EmptyString ∧ Prefix r ≠ EmptyString ∧ Network r ≠ EmptyString
   ∧ (0 ≤ DB r)%Z)
  ∧ Addr r = (if decide (Addr o = EmptyString) then "127.0.0.1:6379" else Addr o)
  ∧ Prefix r = (if decide (Prefix o = EmptyString) then "socket.io" else Prefix o)
  ∧ Network r = (if decide (Network o = EmptyString) then "tcp" else Network o)
  ∧ DB r = Z.max 0 (DB o)
  ∧ Password r = Password o
  ∧ GetOptions (Some r) = r
  ∧ GetOptions None = GetOptions (Some (mkRedisAdapterConfig EmptyString EmptyString
                                          EmptyString EmptyString 0)).
Proof.
  cbn zeta.
  assert (Addr (GetOptions (Some o)) ≠ EmptyString
          ∧ Prefix (GetOptions (Some o)) ≠ EmptyString
          ∧ Network (GetOptions (Some o)) ≠ EmptyString
          ∧ (0 ≤ DB (GetOptions (Some o)))%Z) as Hne.
  { rewrite GetOptions_value. cbn [Addr Prefix Network DB].
    split_and!; [by case_decide..|lia]. }
  split; [exact Hne|].
  split_and!; try (by rewrite GetOptions_value).
  - destruct Hne as (Ha & Hp & Hn & Hd).
    rewrite (GetOptions_value (GetOptions (Some o))).
    rewrite !decide_False by done. rewrite Z.max_r by done.
    by destruct (GetOptions (Some o)).
Qed.

(* ===================================================================== *)
(** ** The engine session                                                  *)
(* ===================================================================== *)

Lemma Session_Close_ok (s : Session) :
  Session_ok s →
  ∃ s', Session_Close s = Some (t_close (s_conn s), s')
        ∧ Session_ok s' ∧ s_quitOnce s' = true
        ∧ t_closed (s_conn s') = S (t_closed (s_conn s))
        ∧ t_sent (s_conn s') = t_sent (s_conn s)
        ∧ t_writes (s_conn s') = t_writes (s_conn s)
        ∧ t_close (s_conn s') = t_close (s_conn s)
        ∧ s_transport s' = s_transport s
        ∧ s_readDeadline s' = s_readDeadline s.
Proof.
  destruct s as [c t sid rd q once]. unfold Session_ok, Session_Close. simpl.
  intros ->. destruct once; eexists; by split_and!.
Qed.

Lemma Session_close_and_fail_ok (err : error) (rest : list ReadResult)
    (s : Session) :
  Session_ok s →
  ∃ s', Session_close_and_fail err rest s = Some (NRError err, rest, s')
        ∧ Session_ok s' ∧ s_quitOnce s' = true
        ∧ t_closed (s_conn s') = S (t_closed (s_conn s))
        ∧ t_sent (s_conn s') = t_sent (s_conn s).
Proof.
  intros Hok. destruct (Session_Close_ok s Hok) as (s' & E & ? & ? & ? & ? & _).
  exists s'. unfold Session_close_and_fail. by rewrite E.
Qed.

Lemma Session_nextWriter_keeps (s s1 : Session)
    (w : error + option error * option error) :
  Session_nextWriter s = Some (w, s1) →
  s_quitChan s1 = s_quitChan s ∧ s_quitOnce s1 = s_quitOnce s
  ∧ t_closed (s_conn s1) = t_closed (s_conn s)
  ∧ t_sent (s_conn s1) = t_sent (s_conn s)
  ∧ s_readDeadline s1 = s_readDeadline s.
Proof.
  unfold Session_nextWriter.
  destruct (transport_nextWriter (t_writes (s_conn s))) as [[w' rest]|]; [|done].
  intros [= <- <-]. done.
Qed.

(** What [NextReader] returns and how it leaves the session. *)
Lemma Session_NextReader_result (reads : list ReadResult) :
  ∀ (s s' : Session) (res : NextReaderResult) (rest : list ReadResult),
    Session_ok s →
    Session_NextReader reads s = Some (res, rest, s') →
    Session_ok s'
    ∧ match res with
      | NRError _ =>
          s_quitOnce s' = true
          ∧ t_closed (s_conn s') = S (t_closed (s_conn s))
      | NRMessage ft data =>
          s_quitOnce s' = s_quitOnce s
          ∧ t_closed (s_conn s') = t_closed (s_conn s)
          ∧ s_readDeadline s' = false
          ∧ ∃ pre, reads = pre ++ ReadPacket ft MESSAGE data :: rest
                   ∧ Forall passes pre
      end.
Proof.
  induction reads as [|r reads IH]; intros s s' res rest Hok Hrun; [done|].
  assert (∀ err s0, Session_ok s0 →
            t_closed (s_conn s0) = t_closed (s_conn s) →
            Session_close_and_fail err reads s0 = Some (res, rest, s') →
            Session_ok s' ∧ match res with
                            | NRError _ => s_quitOnce s' = true
                                           ∧ t_closed (s_conn s') = S (t_closed (s_conn s))
                            | NRMessage ft data =>
                                s_quitOnce s' = s_quitOnce s
                                ∧ t_closed (s_conn s') = t_closed (s_conn s)
                                ∧ s_readDeadline s' = false
                                ∧ ∃ pre, r :: reads = pre ++ ReadPacket ft MESSAGE data :: rest
                                         ∧ Forall passes pre
                            end) as Hfail.
  { intros err s0 Hok0 Hc Hf.
    destruct (Session_close_and_fail_ok err reads s0 Hok0)
      as (s1 & E & Hok1 & Honce & Hclosed & _).
    rewrite E in Hf. inversion Hf; subst. split; [done|]. split; [done|].
    by rewrite Hclosed, Hc. }
  assert (∀ s0, Session_ok s0 → s_quitOnce s0 = s_quitOnce s →
            t_closed (s_conn s0) = t_closed (s_conn s) →
            passes r →
            Session_NextReader reads s0 = Some (res, rest, s') →
            Session_ok s' ∧ match res with
                            | NRError _ => s_quitOnce s' = true
                                           ∧ t_closed (s_conn s') = S (t_closed (s_conn s))
                            | NRMessage ft data =>
                                s_quitOnce s' = s_quitOnce s
                                ∧ t_closed (s_conn s') = t_closed (s_conn s)
                                ∧ s_readDeadline s' = false
                                ∧ ∃ pre, r :: reads = pre ++ ReadPacket ft MESSAGE data :: rest
                                         ∧ Forall passes pre
                            end) as Hgo.
  { intros s0 Hok0 Honce Hc Hr Hf.
    destruct (IH s0 s' res rest Hok0 Hf) as [Hok' Hres]. split; [done|].
    destruct res as [ft data|err].
    - destruct Hres as (? & ? & ? & pre & -> & Hpre).
      split_and!; [congruence..|done|].
      exists (r :: pre). split; [done|]. by apply Forall_cons.
    - destruct Hres as [? ?]. split; congruence. }
  destruct r as [|err|ft pt data]; simpl in Hrun.
  - by apply (Hgo s).
  - by apply (Hfail err s).
  - set (s0 := Session_releasePongReadline s) in *.
    assert (Session_ok s0) as Hok0 by exact Hok.
    destruct pt; try (apply (Hgo s0); done).
    + by apply (Hfail io_EOF s0).
    + destruct (Session_nextWriter s0) as [[w s1]|] eqn:Ew; [|done].
      destruct (Session_nextWriter_keeps _ _ _ Ew) as (Hq & Ho & Hc & _).
      assert (Session_ok s1) as Hok1.
      { unfold Session_ok. rewrite Hq, Ho. exact Hok0. }
      destruct w as [err|[[err|] close]].
      * by apply (Hfail err s1).
      * by apply (Hfail err s1).
      * destruct close as [err|].
        -- apply (Hgo s1); [done|exact Ho|exact Hc|done|exact Hrun].
        -- apply (Hgo (Session_set_conn
                         (Transport_send (ft, PONG, data) (s_conn s1)) s1));
             [exact Hok1|exact Ho|exact Hc|done|exact Hrun].
    + inversion Hrun; subst. split; [done|]. split_and!; [done..|].
      by exists [].
Qed.

(** [NextReader] does return the next message when the reads before it
    pass and the transport opens a writer for every PING among them. *)
Lemma Session_NextReader_message (ft : frame_Type) (data : string)
    (rest : list ReadResult) (pre : list ReadResult) :
  ∀ (s : Session) (ws : list WriteResult),
    Forall passes pre →
    t_writes (s_conn s)
    = replicate (length (pongs pre)) (WriteOpens None None) ++ ws →
    ∃ s', Session_NextReader (pre ++ ReadPacket ft MESSAGE data :: rest) s
          = Some (NRMessage ft data, rest, s')
          ∧ t_sent (s_conn s') = t_sent (s_conn s) ++ pongs pre
          ∧ t_writes (s_conn s') = ws.
Proof.
  induction pre as [|r pre IH]; intros s ws Hpre Hw.
  - simpl. eexists. split; [done|]. simpl. by rewrite app_nil_r.
  - apply Forall_cons in Hpre as [Hr Hpre].
    destruct r as [|err|ft' pt' data']; [|done|].
    + simpl. by apply IH.
    + destruct Hr as [Hm Hc].
      destruct (decide (pt' = PING)) as [->|Hping].
      * change (pongs (ReadPacket ft' PING data' :: pre))
          with ((ft', PONG, data') :: pongs pre) in *.
        simpl in Hw. simpl. unfold Session_nextWriter. simpl. rewrite Hw. simpl.
        edestruct (IH (Session_set_conn
                         (Transport_send (ft', PONG, data')
                            (s_conn (Session_set_conn
                                       (Transport_set_writes
                                          (replicate (length (pongs pre))
                                                     (WriteOpens None None) ++ ws)
                                          (s_conn (Session_releasePongReadline s)))
                                       (Session_releasePongReadline s))))
                         (Session_set_conn
                            (Transport_set_writes
                               (replicate (length (pongs pre))
                                          (WriteOpens None None) ++ ws)
                               (s_conn (Session_releasePongReadline s)))
                            (Session_releasePongReadline s))) ws)
          as (s' & E & Hsent & Hws); [done|done|].
        exists s'. split; [exact E|]. split; [|done].
        rewrite Hsent. simpl. by rewrite <- app_assoc.
      * assert (pongs (ReadPacket ft' pt' data' :: pre) = pongs pre) as Hp
          by (by destruct pt').
        rewrite Hp in *.
        destruct (IH (Session_releasePongReadline s) ws Hpre Hw)
          as (s' & E & Hsent & Hws).
        exists s'. split; [|done]. by destruct pt'.
Qed.

(** X28: [New] never returns an error: when a deadline cannot be set it
    calls [Close] before the quit channel exists, and closing the nil
    channel panics; otherwise it returns a session whose quit channel is
    open. On such a session every [Close] returns what the transport's
    [Close] returns; the quit channel is closed by the first call only
    while the transport is closed again by every call. [InitSession]
    either writes the OPEN packet as a string frame and leaves the
    session open, or returns an error after closing the session. *)
Theorem Session_New_Close_InitSession (conn : Transport) (sid transport : string) :
  (∀ err, Session_New conn sid transport ≠ Some (inl err))
  ∧ (is_Some (Session_resetDeadlines
                (mkSession conn transport sid false None false)) →
     Session_New conn sid transport = None)
  ∧ (Session_resetDeadlines (mkSession conn transport sid false None false) = None →
     ∃ s, Session_New conn sid transport = Some (inr s)
          ∧ s_conn s = conn ∧ s_quitChan s = Some false ∧ Session_ok s
          ∧ (∀ n, ∃ s', Session_Close_times (S n) s = Some s'
                        ∧ s_quitChan s' = Some true
                        ∧ t_closed (s_conn s') = (t_closed conn + S n)%nat)
          ∧ (∀ s1, Session_ok s1 →
                   ∃ s2, Session_Close s1 = Some (t_close (s_conn s1), s2)
                         ∧ Session_ok s2)
          ∧ ∀ params r s',
              Session_InitSession params s = Some (r, s') →
              match r with
              | None => t_sent (s_conn s') = t_sent conn ++ [(frame_String, OPEN, params)]
                        ∧ s_quitChan s' = Some false
                        ∧ t_closed (s_conn s') = t_closed conn
              | Some _ => t_sent (s_conn s') = t_sent conn
                          ∧ s_quitChan s' = Some true
                          ∧ t_closed (s_conn s') = S (t_closed conn)
              end).
Proof.
  unfold Session_New. split_and!.
  - intros err. by destruct (Session_resetDeadlines _).
  - by intros [err ->].
  - intros ->. eexists. split; [done|].
    set (s := {| s_conn := conn; s_transport := transport; s_SID := sid;
                 s_readDeadline := false; s_quitChan := Some false;
                 s_quitOnce := false |}).
    assert (Session_ok s) as Hok by done.
    split_and!; [done..| | |].
    + assert (∀ n s0, Session_ok s0 →
                ∃ s', Session_Close_times (S n) s0 = Some s'
                      ∧ s_quitChan s' = Some true
                      ∧ t_closed (s_conn s') = (t_closed (s_conn s0) + S n)%nat)
        as Htimes.
      { induction n as [|n IHn]; intros s0 Hok0;
          destruct (Session_Close_ok s0 Hok0) as (s1 & E & Hok1 & Ho & Hc & _).
        - exists s1. simpl. rewrite E. split; [done|].
          split; [by rewrite Hok1, Ho|lia].
        - destruct (IHn s1 Hok1) as (s' & E' & Hq & Hc').
          exists s'. change (Session_Close_times (S (S n)) s0)
            with (match Session_Close s0 with
                  | None => None
                  | Some (_, s2) => Session_Close_times (S n) s2
                  end).
          rewrite E. split; [done|]. split; [done|]. lia. }
      intros n. apply (Htimes n s Hok).
    + intros s1 Hok1. destruct (Session_Close_ok s1 Hok1) as (s2 & E & ? & _).
      by exists s2.
    + intros params r s' Hinit. unfold Session_InitSession in Hinit.
      destruct (Session_nextWriter s) as [[w s1]|] eqn:Ew; [|done].
      destruct (Session_nextWriter_keeps _ _ _ Ew) as (Hq & Ho & Hc & Hs & _).
      assert (Session_ok s1) as Hok1.
      { unfold Session_ok. by rewrite Hq, Ho. }
      destruct (Session_Close_ok s1 Hok1)
        as (s2 & E & Hok2 & Ho2 & Hc2 & Hs2 & _).
      rewrite E in Hinit.
      destruct w as [err|[[err|] [err'|]]]; inversion Hinit; subst;
        try (split_and!; [by rewrite Hs2, Hs|by rewrite Hok2, Ho2
                         |by rewrite Hc2, Hc]).
      simpl. split_and!; [by rewrite Hs|by rewrite Hq|by rewrite Hc].
Qed.

(** X29: [NextReader] on a session whose quit channel exists. It does
    return the next MESSAGE packet when the reads before it are temporary
    errors and packets other than MESSAGE and CLOSE and the transport
    opens a writer for every PING: each PING has then been answered, in
    order, by a PONG of the same frame type echoing its data. Whenever it
    returns a message, that message is the first MESSAGE packet read,
    nothing before it was a CLOSE or a failed read, the session is still
    open and the pong timer is disarmed; whenever it returns an error,
    [Close] has run and the transport has been closed once. *)
Theorem Session_NextReader_returns_message (s : Session) :
  Session_ok s →
  (∀ pre ft data rest ws,
     Forall passes pre →
     t_writes (s_conn s)
     = replicate (length (pongs pre)) (WriteOpens None None) ++ ws →
     ∃ s', Session_NextReader (pre ++ ReadPacket ft MESSAGE data :: rest) s
           = Some (NRMessage ft data, rest, s')
           ∧ t_sent (s_conn s') = t_sent (s_conn s) ++ pongs pre
           ∧ t_writes (s_conn s') = ws
           ∧ s_quitOnce s' = s_quitOnce s
           ∧ t_closed (s_conn s') = t_closed (s_conn s)
           ∧ s_readDeadline s' = false)
  ∧ ∀ reads res rest s',
      Session_NextReader reads s = Some (res, rest, s') →
      Session_ok s'
      ∧ match res with
        | NRError _ =>
            s_quitOnce s' = true
            ∧ t_closed (s_conn s') = S (t_closed (s_conn s))
        | NRMessage ft data =>
            s_quitOnce s' = s_quitOnce s
            ∧ t_closed (s_conn s') = t_closed (s_conn s)
            ∧ s_readDeadline s' = false
            ∧ ∃ pre, reads = pre ++ ReadPacket ft MESSAGE data :: rest
                     ∧ Forall passes pre
        end.
Proof.
  intros Hok. split.
  - intros pre ft data rest ws Hpre Hw.
    destruct (Session_NextReader_message ft data rest pre s ws Hpre Hw)
      as (s' & E & Hsent & Hws).
    exists s'. split; [exact E|].
    destruct (Session_NextReader_result _ _ _ _ _ Hok E) as (_ & ? & ? & ? & _).
    by split_and!.
  - intros reads res rest s' E. by eapply Session_NextReader_result.
Qed.

Lemma Session_NextReader_returns_message_witness :
  ∃ s', Session_NextReader ping_then_message good_session
        = Some (NRMessage frame_String "hello",
                [ReadPacket frame_String CLOSE EmptyString], s')
        ∧ t_sent (s_conn s') = [(frame_String, PONG, "probe")]
        ∧ s_quitOnce s' = false.
Proof.
  destruct (Session_NextReader_returns_message good_session) as [Hmsg _];
    [reflexivity|].
  destruct (Hmsg [ReadPacket frame_String PING "probe"; ReadTemporary;
                  ReadPacket frame_String PONG EmptyString]
                 frame_String "hello"
                 [ReadPacket frame_String CLOSE EmptyString]
                 [WriteOpens None None])
    as (s' & E & Hsent & _ & Honce & _).
  - repeat apply Forall_cons_2; [done..|apply Forall_nil_2].
  - reflexivity.
  - exists s'. split; [exact E|]. split; [exact Hsent|exact Honce].
Defined.

(** One path of [upgrading]: the trace is evaluated and the facts about
    it are read off. *)
Ltac upgrading_path :=
  vm_compute; split_and!; try done;
  try (by intros (? & ? & ? & ? & (? & ? & ?) & ? & ?); congruence);
  try (intros _; split_and!; try done; first [by left | by right]).

(** X30: [upgrading] keeps its connections in order on every path. Each
    reader and each writer it obtains from the new connection is closed
    exactly once. Either the session switches to the new connection and
    the new transport name, which happens exactly when every call
    succeeds, the first packet is a PING, the next one an UPGRADE and the
    old connection is a [Pauser]: the PING has then been echoed, the old
    connection has been paused and then closed, never resumed, and the new
    connection is not closed. Or the session keeps its transport, the new
    connection is closed exactly once, and the old connection is either
    untouched or paused and then resumed, never closed. *)
Theorem Session_upgrading_outcomes (t : string) (new : Upgrader)
    (oldPauser : bool) (s : Session) :
  let r := Session_upgrading t new oldPauser s in
  count_action NewReaderClosed r.1 = count_action NewReaderOpened r.1
  ∧ count_action NewWriterClosed r.1 = count_action NewWriterOpened r.1
  ∧ (r.2.2 = true ↔
     oldPauser = true
     ∧ u_setReadDeadline1 new = None ∧ u_setWriteDeadline new = None
     ∧ u_setReadDeadline2 new = None
     ∧ (∃ ft data, u_read1 new = inr (ft, PING, data, None))
     ∧ u_nextWriter new = inr (None, None)
     ∧ u_read2 new = inr (UPGRADE, None))
  ∧ (r.2.2 = true →
     r.2.1 = t ∧ count_action NewClosed r.1 = 0%nat
     ∧ old_actions r.1 = [OldPaused; OldClosed]
     ∧ ∃ ft data, u_read1 new = inr (ft, PING, data, None)
                  ∧ NewEchoed ft data ∈ r.1)
  ∧ (r.2.2 = false →
     r.2.1 = s_transport s ∧ count_action NewClosed r.1 = 1%nat
     ∧ (old_actions r.1 = [] ∨ old_actions r.1 = [OldPaused; OldResumed])).
Proof.
  destruct new as [rd1 read1 nw wd rd2 read2].
  unfold Session_upgrading, Session_upgrading_paused.
  cbn [u_setReadDeadline1 u_read1 u_nextWriter u_setWriteDeadline
       u_setReadDeadline2 u_read2].
  destruct rd1 as [e1|]; [upgrading_path|].
  destruct read1 as [e2|[[[ft pt] data] rclose]]; [upgrading_path|].
  destruct (decide (pt ≠ PING)) as [Hpt|Hpt]; [upgrading_path|].
  assert (pt = PING) as -> by (by apply dec_stable).
  destruct nw as [e3|[copy wclose]]; [upgrading_path|].
  destruct wd as [e4|]; [upgrading_path|].
  destruct copy as [e5|]; [upgrading_path|].
  destruct rclose as [e6|]; [upgrading_path|].
  destruct wclose as [e7|]; [upgrading_path|].
  destruct oldPauser; [|upgrading_path].
  destruct rd2 as [e8|]; [upgrading_path|].
  destruct read2 as [e9|[pt2 rclose2]]; [upgrading_path|].
  destruct (decide (pt2 ≠ UPGRADE)) as [Hpt2|Hpt2]; [upgrading_path|].
  assert (pt2 = UPGRADE) as -> by (by apply dec_stable).
  destruct rclose2 as [e10|]; [upgrading_path|].
  vm_compute. split_and!; try done.
  - intros _. split_and!; try done. by exists ft, data.
  - intros _. split_and!; try done. exists ft, data. split; [done|].
    do 2 apply list_elem_of_further. apply list_elem_of_here.
Qed.
